(** * IDL compatibility checker: a shallow embedding of
    [buildscripts/idl/idl_check_compatibility.py] and the properties of its
    type comparison, field reconciliation, namespace and access-check rules.

    The checker records every violation in an [IDLCompatibilityContext] and
    keeps going; two conditions call [sys.exit(1)], and dereferencing an
    attribute that a Python object does not have raises [AttributeError].
    All three outcomes are part of the model. *)

From Stdlib Require Import List String Bool Arith Lia.
From Stdlib Require Import Permutation Sorted.
Import ListNotations.
Local Open Scope string_scope.
Local Open Scope list_scope.

Scheme All for list.
Scheme All for option.

(** ** Data model: the resolved IDL syntax tree

    [syntax.Type] and its subclasses [syntax.ArrayType] and
    [syntax.VariantType] share the attributes gathered in [TypeAttrs];
    [syntax.Enum] and [syntax.Struct] are separate classes.  A field carries
    the result of [get_field_type] on it ([None] when the type does not
    resolve).

    Two things the source does lie outside this model.  When a type does not
    resolve, [get_field_type] prints the errors of the parser context it
    created for the lookup before it returns [None]: that output belongs to
    the parser, and [dumped] below traces the dumps of the compatibility
    error collection only.  And [bson_serialization_type] is a list here: a
    type for which the attribute is absent is not an input of the model. *)

Record TypeAttrs : Type := mkTypeAttrs {
  name : string;
  bson_serialization_type : list string;
  cpp_type : option string;
  serializer : option string;
  deserializer : option string
}.

(** Modelled from the spec: an enum value is a labelled value, equal to
    another when label and value are equal. *)
Record EnumValue : Type := mkEnumValue {
  ev_name : string;
  ev_value : string
}.

(** Modelled from the spec: a field's validator is an opaque expression that
    can only be compared for equality. *)
Definition Validator : Type := string.

Inductive IdlType : Type :=
| Type_ (attrs : TypeAttrs)
| ArrayType (attrs : TypeAttrs) (element_type : IdlType)
| VariantType (attrs : TypeAttrs) (variant_types : list IdlType)
              (variant_struct_type : option Struct)
| Enum (enum_name : string) (values : list EnumValue)
| StructType (s : Struct)
with Struct : Type :=
| mkStruct (struct_name : string) (fields : list Field)
with Field : Type :=
| mkField (field_name : string) (field_type : option IdlType)
          (optional unstable : bool) (default : option string)
          (validator : option Validator).

Scheme IdlType_mut := Induction for IdlType Sort Prop
with Struct_mut := Induction for Struct Sort Prop
with Field_mut := Induction for Field Sort Prop.

Combined Scheme IdlType_mutind from IdlType_mut, Struct_mut, Field_mut.

Definition struct_name (s : Struct) : string :=
  match s with mkStruct n _ => n end.
Definition fields (s : Struct) : list Field :=
  match s with mkStruct _ fs => fs end.

Definition field_name (f : Field) : string :=
  match f with mkField n _ _ _ _ _ => n end.
Definition get_field_type (f : Field) : option IdlType :=
  match f with mkField _ t _ _ _ _ => t end.
Definition optional (f : Field) : bool :=
  match f with mkField _ _ o _ _ _ => o end.
Definition unstable (f : Field) : bool :=
  match f with mkField _ _ _ u _ _ => u end.
Definition default (f : Field) : option string :=
  match f with mkField _ _ _ _ d _ => d end.
Definition validator (f : Field) : option Validator :=
  match f with mkField _ _ _ _ _ v => v end.

(** [isinstance(t, syntax.Type)]: the attributes when [t] is a [Type], an
    [ArrayType] or a [VariantType]. *)
Definition as_Type (t : IdlType) : option TypeAttrs :=
  match t with
  | Type_ a | ArrayType a _ | VariantType a _ _ => Some a
  | Enum _ _ | StructType _ => None
  end.

(** [t.name], defined on every resolved type. *)
Definition type_name (t : IdlType) : string :=
  match t with
  | Type_ a | ArrayType a _ | VariantType a _ _ => name a
  | Enum n _ => n
  | StructType s => struct_name s
  end.

Definition is_ArrayType (t : option IdlType) : bool :=
  match t with Some (ArrayType _ _) => true | _ => false end.

Definition is_VariantType (t : IdlType) : bool :=
  match t with VariantType _ _ _ => true | _ => false end.

Inductive Namespace : Type :=
| COMMAND_NAMESPACE_IGNORED
| COMMAND_NAMESPACE_CONCATENATE_WITH_DB
| COMMAND_NAMESPACE_CONCATENATE_WITH_DB_OR_UUID
| COMMAND_NAMESPACE_TYPE.

Definition namespace_str (n : Namespace) : string :=
  match n with
  | COMMAND_NAMESPACE_IGNORED => "ignored"
  | COMMAND_NAMESPACE_CONCATENATE_WITH_DB => "concatenate_with_db"
  | COMMAND_NAMESPACE_CONCATENATE_WITH_DB_OR_UUID => "concatenate_with_db_or_uuid"
  | COMMAND_NAMESPACE_TYPE => "type"
  end.

Definition Namespace_eqb (a b : Namespace) : bool :=
  match a, b with
  | COMMAND_NAMESPACE_IGNORED, COMMAND_NAMESPACE_IGNORED
  | COMMAND_NAMESPACE_CONCATENATE_WITH_DB, COMMAND_NAMESPACE_CONCATENATE_WITH_DB
  | COMMAND_NAMESPACE_CONCATENATE_WITH_DB_OR_UUID,
    COMMAND_NAMESPACE_CONCATENATE_WITH_DB_OR_UUID
  | COMMAND_NAMESPACE_TYPE, COMMAND_NAMESPACE_TYPE => true
  | _, _ => false
  end.

Record Privilege : Type := mkPrivilege {
  resource_pattern : string;
  action_type : list string
}.

Record AccessCheck : Type := mkAccessCheck {
  check : option string;
  privilege : option Privilege
}.

(** Modelled from the spec: [syntax.AccessChecks] is one of none, simple and
    complex; [simple] and [complex] are the attributes read by the checker
    and [get_access_check_type] names the alternative. *)
Inductive AccessChecks : Type :=
| AccessNone
| AccessSimple (c : AccessCheck)
| AccessComplex (cs : list AccessCheck).

Inductive AccessCheckType : Type := ac_none | ac_simple | ac_complex.

Definition get_access_check_type (a : AccessChecks) : AccessCheckType :=
  match a with
  | AccessNone => ac_none
  | AccessSimple _ => ac_simple
  | AccessComplex _ => ac_complex
  end.

Definition access_check_type_str (t : AccessCheckType) : string :=
  match t with ac_none => "none" | ac_simple => "simple" | ac_complex => "complex" end.

Definition AccessCheckType_eqb (a b : AccessCheckType) : bool :=
  match a, b with
  | ac_none, ac_none | ac_simple, ac_simple | ac_complex, ac_complex => true
  | _, _ => false
  end.

Definition simple (a : AccessChecks) : option AccessCheck :=
  match a with AccessSimple c => Some c | _ => None end.
Definition complex (a : AccessChecks) : option (list AccessCheck) :=
  match a with AccessComplex cs => Some cs | _ => None end.

(** A command is a struct (its parameters are [fields (as_struct c)]) with a
    namespace, an optional namespace type (already passed through
    [get_field_type]), a reply struct (already looked up with [get_struct])
    and access checks. *)
Record Command : Type := mkCommand {
  command_name : string;
  as_struct : Struct;
  api_version : string;
  imported : bool;
  strict : bool;
  namespace : Namespace;
  command_type : option IdlType;
  reply_type : option Struct;
  access_check : option AccessChecks
}.

(** One parsed IDL file of a directory: its path and the commands of its
    symbol table, in order. *)
Record IDLFile : Type := mkIDLFile {
  idl_file_path : string;
  commands : list Command
}.

(** ** Error model

    One constructor per [IDLCompatibilityContext.add_*] method called by the
    checker (the method's name without the [add_] prefix). *)

Inductive ErrorKind : Type :=
| command_invalid_api_version_error
| duplicate_command_name_error
| command_removed_error
| command_strict_true_error
| reply_field_not_subset_error
| command_or_param_type_not_superset_error
| new_reply_field_type_enum_or_struct_error
| old_reply_field_bson_any_error
| new_reply_field_bson_any_error
| reply_field_bson_any_not_allowed_error
| reply_field_cpp_type_not_equal_error
| reply_field_serializer_not_equal_error
| reply_field_deserializer_not_equal_error
| new_reply_field_variant_type_not_subset_error
| new_reply_field_variant_type_error
| reply_field_type_invalid_error
| new_reply_field_type_not_enum_error
| new_reply_field_type_not_struct_error
| type_not_array_error
| new_reply_field_unstable_error
| new_reply_field_optional_error
| reply_field_validators_not_equal_error
| reply_field_contains_validator_error
| new_reply_field_missing_error
| new_command_or_param_type_enum_or_struct_error
| old_command_or_param_type_bson_any_error
| new_command_or_param_type_bson_any_error
| command_or_param_type_bson_any_not_allowed_error
| command_or_param_cpp_type_not_equal_error
| command_or_param_serializer_not_equal_error
| command_or_param_deserializer_not_equal_error
| new_command_or_param_type_not_variant_type_error
| new_command_or_param_variant_type_not_superset_error
| command_or_param_type_invalid_error
| new_command_or_param_type_not_enum_error
| new_command_or_param_type_not_struct_error
| command_or_param_type_validators_not_equal_error
| command_or_param_type_contains_validator_error
| new_param_or_command_type_field_missing_error
| new_param_or_command_type_field_added_required_error
| new_param_or_command_type_field_unstable_error
| new_param_or_command_type_field_stable_required_no_default_error
| new_param_or_command_type_field_required_error
| new_namespace_incompatible_error
| access_check_type_not_equal_error
| check_not_equal_error
| resource_pattern_not_equal_error
| new_action_types_not_subset_error
| new_additional_complex_access_check_error
| new_complex_checks_not_subset_error
| new_complex_privileges_not_subset_error
| removed_access_check_field_error
| added_access_check_field_error.

(** A recorded violation: its kind, the command, the remaining string
    arguments of the [add_*] call in call order, the file it is reported
    against and, for the parameter / command-type family, the
    [is_command_parameter] flag. *)
Record CompatError : Type := mkError {
  kind : ErrorKind;
  err_command : string;
  err_args : list string;
  err_file : string;
  err_is_command_parameter : option bool
}.

(** [IDLCompatibilityContext]: the append-only error collection, and what
    [errors.dump_errors()] has printed so far (one entry per call). *)
Record Ctxt : Type := mkCtxt {
  errors : list CompatError;
  dumped : list (list CompatError)
}.

Definition empty_ctxt : Ctxt := mkCtxt [] [].

Inductive Exn : Type := AttributeError.

(** How a call ends: it returns, the process exits through [sys.exit(code)],
    or an exception propagates.  The context is kept in every case. *)
Inductive Result (A : Type) : Type :=
| Ok (a : A) (c : Ctxt)
| SysExit (code : nat) (c : Ctxt)
| Raised (e : Exn) (c : Ctxt).
Arguments Ok {A} a c.
Arguments SysExit {A} code c.
Arguments Raised {A} e c.

Definition ctxt_of {A} (r : Result A) : Ctxt :=
  match r with Ok _ c | SysExit _ c | Raised _ c => c end.

Definition M (A : Type) : Type := Ctxt -> Result A.

Definition ret {A} (a : A) : M A := fun c => Ok a c.

Definition bind {A B} (m : M A) (k : A -> M B) : M B :=
  fun c =>
    match m c with
    | Ok a c' => k a c'
    | SysExit code c' => SysExit code c'
    | Raised e c' => Raised e c'
    end.

Declare Scope idl_scope.
Delimit Scope idl_scope with idl.
Notation "x <- m ;; k" := (bind m (fun x => k))
  (at level 61, m at next level, right associativity) : idl_scope.
Notation "m ;; k" := (bind m (fun _ => k))
  (at level 61, right associativity) : idl_scope.
Local Open Scope idl_scope.

Definition raise {A} (e : Exn) : M A := fun c => Raised e c.
Definition sys_exit {A} (code : nat) : M A := fun c => SysExit code c.

Definition record (e : CompatError) (c : Ctxt) : Ctxt :=
  mkCtxt (errors c ++ [e]) (dumped c).

Definition add_error (k : ErrorKind) (cmd : string) (args : list string)
  (file : string) (is_param : option bool) : M unit :=
  fun c => Ok tt (record (mkError k cmd args file is_param) c).

Definition dump_errors : M unit :=
  fun c => Ok tt (mkCtxt (errors c) (dumped c ++ [errors c])).

Definition when (b : bool) (m : M unit) : M unit :=
  if b then m else ret tt.

(** Python loops.  [for_each] is a [for] loop whose body does not [break];
    [for_first] is the search loop
    [for x in l: if p(x): body(x); break  else: orelse], also written in the
    source with a found flag tested after the loop. *)
Section Loops.
Context {A : Type}.
Variable body : A -> M unit.

Fixpoint for_each (l : list A) : M unit :=
  match l with
  | [] => ret tt
  | x :: rest => body x ;; for_each rest
  end.

Variable p : A -> bool.
Variable orelse : M unit.

Fixpoint for_first (l : list A) : M unit :=
  match l with
  | [] => orelse
  | x :: rest => if p x then body x else for_first rest
  end.
End Loops.

(** ** Sets of strings and of enum values *)

Definition EnumValue_eqb (a b : EnumValue) : bool :=
  String.eqb (ev_name a) (ev_name b) && String.eqb (ev_value a) (ev_value b).

Definition mem {A} (eqb : A -> A -> bool) (x : A) (l : list A) : bool :=
  existsb (eqb x) l.

(** [set(sub).issubset(super)] *)
Definition issubset {A} (eqb : A -> A -> bool) (sub super : list A) : bool :=
  forallb (fun x => mem eqb x super) sub.

Definition option_eqb {A} (eqb : A -> A -> bool) (a b : option A) : bool :=
  match a, b with
  | Some x, Some y => eqb x y
  | None, None => true
  | _, _ => false
  end.

Definition ALLOW_ANY_TYPE_LIST : list string := [
  "commandAllowedAnyTypes";
  "commandAllowedAnyTypes-param-anyTypeParam";
  "commandAllowedAnyTypes-reply-anyTypeField";
  "oldTypeBsonAnyAllowList";
  "newTypeBsonAnyAllowList";
  "oldReplyFieldTypeBsonAnyAllowList-reply-oldBsonSerializationTypeAnyReplyField";
  "newReplyFieldTypeBsonAnyAllowList-reply-newBsonSerializationTypeAnyReplyField";
  "oldParamTypeBsonAnyAllowList-param-bsonTypeAnyParam";
  "newParamTypeBsonAnyAllowList-param-bsonTypeAnyParam";
  "commandAllowedAnyTypesWithVariant-reply-anyTypeField";
  "replyFieldTypeBsonAnyWithVariant-reply-bsonSerializationTypeAnyStructField";
  "replyFieldTypeBsonAnyWithVariantWithArray-reply-bsonSerializationTypeAnyStructField";
  "parameterFieldTypeBsonAnyWithVariant-param-bsonSerializationTypeAnyStructField";
  "parameterFieldTypeBsonAnyWithVariantWithArray-param-bsonSerializationTypeAnyStructField";
  "commandTypeBsonAnyWithVariant";
  "commandTypeBsonAnyWithVariantWithArray";
  "replyFieldCppTypeNotEqual-reply-cppTypeNotEqualReplyField";
  "commandCppTypeNotEqual";
  "commandParameterCppTypeNotEqual-param-cppTypeNotEqualParam";
  "replyFieldSerializerNotEqual-reply-serializerNotEqualReplyField";
  "commandSerializerNotEqual";
  "commandParameterSerializerNotEqual-param-serializerNotEqualParam";
  "replyFieldDeserializerNotEqual-reply-deserializerNotEqualReplyField";
  "commandDeserializerNotEqual";
  "commandParameterDeserializerNotEqual-param-deserializerNotEqualParam";
  "newlyAddedReplyFieldTypeBsonAnyAllowed-reply-newlyAddedBsonSerializationTypeAnyReplyField";
  "replyFieldTypeBsonAnyWithVariantUnstable-reply-bsonSerializationTypeWithVariantAnyUnstableReplyField";
  "newlyAddedParamBsonAnyAllowList-param-newlyAddedBsonAnyAllowListParam";
  "newlyAddedTypeFieldBsonAnyAllowList";
  "parameterFieldTypeBsonAnyWithVariantUnstable-param-bsonSerializationTypeAnyStructField";
  "commandTypeBsonAnyWithVariantUnstable";
  "commandParameterCppTypeNotEqualUnstable-param-cppTypeNotEqualParam";
  "replyFieldCppTypeNotEqualUnstable-reply-cppTypeNotEqualReplyUnstableField";
  "commandCppTypeNotEqualUnstable";
  "commandParameterSerializerNotEqualUnstable-param-serializerNotEqualParam";
  "replyFieldSerializerNotEqualUnstable-reply-serializerNotEqualReplyUnstableField";
  "commandSerializerNotEqualUnstable";
  "commandParameterDeserializerNotEqualUnstable-param-deserializerNotEqualParam";
  "replyFieldDeserializerNotEqualUnstable-reply-deserializerNotEqualReplyUnstableField";
  "commandDeserializerNotEqualUnstable";
  "create-param-backwards";
  "saslStart-param-payload";
  "explain-param-use44SortKeys";
  "explain-param-useNewUpsert";
  "saslStart-param-payload";
  "saslStart-reply-payload";
  "saslContinue-param-payload";
  "saslContinue-reply-payload";
  "aggregate-param-pipeline";
  "aggregate-param-explain";
  "aggregate-param-allowDiskUse";
  "aggregate-param-cursor";
  "aggregate-param-hint";
  "aggregate-param-needsMerge";
  "aggregate-param-fromMongos";
  "aggregate-param-$_requestReshardingResumeToken";
  "aggregate-param-isMapReduceCommand";
  "find-param-filter";
  "find-param-projection";
  "find-param-sort";
  "find-param-hint";
  "find-param-collation";
  "find-param-singleBatch";
  "find-param-allowDiskUse";
  "find-param-min";
  "find-param-max";
  "find-param-returnKey";
  "find-param-showRecordId";
  "find-param-$queryOptions";
  "find-param-tailable";
  "find-param-oplogReplay";
  "find-param-noCursorTimeout";
  "find-param-awaitData";
  "find-param-allowPartialResults";
  "find-param-readOnce";
  "find-param-allowSpeculativeMajorityRead";
  "find-param-$_requestResumeToken";
  "find-param-$_resumeAfter";
  "find-param-maxTimeMS";
  "update-param-u";
  "update-param-hint";
  "update-param-upsertSupplied";
  "update-reply-_id";
  "delete-param-limit";
  "delete-param-hint";
  "findAndModify-param-hint";
  "findAndModify-param-update";
  "findAndModify-reply-upserted";
  "explain-param-collation";
  "explain-param-use44SortKeys";
  "explain-param-useNewUpsert"
].

(** ["any" in t.bson_serialization_type] *)
Definition any_in (a : TypeAttrs) : bool :=
  mem String.eqb "any" (bson_serialization_type a).

(** [allow_name in ALLOW_ANY_TYPE_LIST] *)
Definition allowed (allow_name : string) : bool :=
  mem String.eqb allow_name ALLOW_ANY_TYPE_LIST.

(** ** Leaf checks *)

Definition check_subset (cmd_name field_name type_name : string)
  {A} (eqb : A -> A -> bool) (sub_list super_list : list A)
  (file_path : string) : M unit :=
  when (negb (issubset eqb sub_list super_list))
    (add_error reply_field_not_subset_error cmd_name [field_name; type_name]
       file_path None).

(** [set(super_list).issuperset(sub_list)] is [sub_list] being a subset. *)
Definition check_superset (cmd_name type_name : string)
  {A} (eqb : A -> A -> bool) (super_list sub_list : list A)
  (file_path : string) (param_name : string) (is_command_parameter : bool)
  : M unit :=
  when (negb (issubset eqb sub_list super_list))
    (add_error command_or_param_type_not_superset_error cmd_name
       [type_name; param_name] file_path (Some is_command_parameter)).

Inductive ArrayTypeCheckResult : Type := INVALID | TRUE | FALSE.

(** [t.name] on an optional type: [None] has no attribute [name]. *)
Definition name_of (t : option IdlType) : M string :=
  match t with
  | Some t => ret (type_name t)
  | None => raise AttributeError
  end.

Definition check_array_type (symbol : string) (old_type new_type : option IdlType)
  (cmd_name symbol_name old_idl_file_path new_idl_file_path : string)
  (old_field_unstable : bool) : M ArrayTypeCheckResult :=
  let old_is_array := is_ArrayType old_type in
  let new_is_array := is_ArrayType new_type in
  if negb old_is_array && negb new_is_array then ret FALSE
  else if (negb old_is_array || negb new_is_array) && negb old_field_unstable then
    new_name <- name_of new_type ;;
    old_name <- name_of old_type ;;
    add_error type_not_array_error cmd_name
      [symbol; symbol_name; new_name; old_name]
      (if old_is_array then new_idl_file_path else old_idl_file_path) None ;;
    ret INVALID
  else ret TRUE.

(** The part of a [FieldCompatibilityPair] that is not a type: the two
    [field_type] components travel next to it, so that the recursion of the
    checker on the old type is structural.  ([idl_file] only serves
    [get_field_type], whose result the fields already carry.) *)
Record FieldCompatibilityPair : Type := mkPair {
  old_idl_file_path : string;
  old_unstable : bool;
  new_idl_file_path : string;
  new_unstable : bool;
  cmd_name : string;
  pair_field_name : string
}.

(** The allowlist keys: [cmd_name + "-reply-" + field_name], and
    [cmd_name + "-param-" + param_name if is_command_parameter else cmd_name]. *)
Definition reply_allow_name (cmd_name field_name : string) : string :=
  (cmd_name ++ "-reply-" ++ field_name)%string.

Definition param_allow_name (cmd_name param_name : string)
  (is_command_parameter : bool) : string :=
  if is_command_parameter then (cmd_name ++ "-param-" ++ param_name)%string
  else cmd_name.

Definition is_None {A} (o : option A) : bool :=
  match o with None => true | Some _ => false end.

(** ** Reply fields (output direction)

    The four mutually recursive functions of the source are written first
    with their recursive calls as section variables ([*_def]), then tied
    together by one structural recursion on the old type. *)

Section Reply.
Variable rec_type :
  IdlType -> option IdlType -> FieldCompatibilityPair -> M unit.
Variable rec_fields : Struct -> Struct -> string -> string -> string -> M unit.
Variable rec_field : Field -> Field -> string -> string -> string -> M unit.

(** [check_reply_field_type_recursive]: the old type is a [syntax.Type]. *)
Definition check_reply_field_type_recursive_def
  (old_field_type new_field_type : IdlType) (field_pair : FieldCompatibilityPair)
  : M unit :=
  let cmd_name := cmd_name field_pair in
  let field_name := pair_field_name field_pair in
  let old_path := old_idl_file_path field_pair in
  let new_path := new_idl_file_path field_pair in
  let old_field_unstable := old_unstable field_pair in
  match as_Type new_field_type with
  | None =>
      when (negb old_field_unstable)
        (add_error new_reply_field_type_enum_or_struct_error cmd_name
           [field_name; type_name new_field_type; type_name old_field_type]
           new_path None)
  | Some new_attrs =>
  match as_Type old_field_type with
  | None => raise AttributeError
  | Some old_attrs =>
    if any_in old_attrs && negb (any_in new_attrs) then
      add_error old_reply_field_bson_any_error cmd_name
        [field_name; name old_attrs] old_path None
    else if negb (any_in old_attrs) && any_in new_attrs then
      add_error new_reply_field_bson_any_error cmd_name
        [field_name; name old_attrs] new_path None
    else
      let allow_name := reply_allow_name cmd_name field_name in
      if any_in old_attrs && negb (allowed allow_name) then
        add_error reply_field_bson_any_not_allowed_error cmd_name
          [field_name; name old_attrs] old_path None
      else
        when (any_in old_attrs)
          (when (negb (option_eqb String.eqb (cpp_type old_attrs) (cpp_type new_attrs)))
             (add_error reply_field_cpp_type_not_equal_error cmd_name
                [field_name; name new_attrs] new_path None) ;;
           when (negb old_field_unstable &&
                 negb (option_eqb String.eqb (serializer old_attrs) (serializer new_attrs)))
             (add_error reply_field_serializer_not_equal_error cmd_name
                [field_name; name new_attrs] new_path None) ;;
           when (negb old_field_unstable &&
                 negb (option_eqb String.eqb (deserializer old_attrs) (deserializer new_attrs)))
             (add_error reply_field_deserializer_not_equal_error cmd_name
                [field_name; name new_attrs] new_path None)) ;;
        match old_field_type with
        | VariantType _ old_variant_types old_variant_struct_type =>
            let new_variant_types :=
              match new_field_type with
              | VariantType _ new_variant_types _ => new_variant_types
              | _ => [new_field_type]
              end in
            for_each (fun new_variant_type =>
              for_first
                (fun old_variant_type =>
                   rec_type old_variant_type (Some new_variant_type) field_pair)
                (fun old_variant_type =>
                   String.eqb (type_name old_variant_type) (type_name new_variant_type))
                (when (negb old_field_unstable)
                   (add_error new_reply_field_variant_type_not_subset_error cmd_name
                      [field_name; type_name new_variant_type] new_path None))
                old_variant_types)
              new_variant_types ;;
            match new_field_type with
            | VariantType _ _ (Some new_variant_struct_type) =>
                if is_None old_variant_struct_type && negb old_field_unstable then
                  add_error new_reply_field_variant_type_not_subset_error cmd_name
                    [field_name; struct_name new_variant_struct_type] new_path None
                else
                  match old_variant_struct_type with
                  | Some old_struct =>
                      rec_fields old_struct new_variant_struct_type cmd_name
                        old_path new_path
                  | None => raise AttributeError
                  end
            | _ => ret tt
            end
        | _ =>
            when (negb old_field_unstable)
              (if is_VariantType new_field_type then
                 add_error new_reply_field_variant_type_error cmd_name
                   [field_name; name old_attrs] new_path None
               else
                 check_subset cmd_name field_name (name new_attrs) String.eqb
                   (bson_serialization_type new_attrs)
                   (bson_serialization_type old_attrs) new_path)
        end
  end
  end.

(** [check_reply_field_type] after the array check and unwrapping, for a
    resolved old type: the two [None] tests and the dispatch on the kind of
    the old type. *)
Definition check_reply_field_type_unwrapped_def
  (old_field_type : IdlType) (new_field_type : option IdlType)
  (field_pair : FieldCompatibilityPair) : M unit :=
  let cmd_name := cmd_name field_pair in
  let field_name := pair_field_name field_pair in
  let old_path := old_idl_file_path field_pair in
  let new_path := new_idl_file_path field_pair in
  match new_field_type with
  | None =>
      add_error reply_field_type_invalid_error cmd_name [field_name] new_path None ;;
      dump_errors ;;
      sys_exit 1
  | Some new_field_type =>
      match old_field_type with
      | Type_ _ | ArrayType _ _ | VariantType _ _ _ =>
          check_reply_field_type_recursive_def old_field_type new_field_type field_pair
      | Enum old_name old_values =>
          if negb (old_unstable field_pair) then
            match new_field_type with
            | Enum new_name new_values =>
                check_subset cmd_name field_name new_name EnumValue_eqb
                  new_values old_values new_path
            | _ =>
                add_error new_reply_field_type_not_enum_error cmd_name
                  [field_name; type_name new_field_type; old_name] new_path None
            end
          else ret tt
      | StructType old_struct =>
          match new_field_type with
          | StructType new_struct =>
              rec_fields old_struct new_struct cmd_name old_path new_path
          | _ =>
              when (negb (old_unstable field_pair))
                (add_error new_reply_field_type_not_struct_error cmd_name
                   [field_name; type_name new_field_type; struct_name old_struct]
                   new_path None)
          end
      end
  end.

(** [check_reply_field_type] on a resolved old type. *)
Definition check_reply_field_type_def
  (old_field_type : IdlType) (new_field_type : option IdlType)
  (field_pair : FieldCompatibilityPair) : M unit :=
  array_check <- check_array_type "reply_field" (Some old_field_type) new_field_type
                   (cmd_name field_pair) "type" (old_idl_file_path field_pair)
                   (new_idl_file_path field_pair) (old_unstable field_pair) ;;
  match array_check with
  | INVALID => ret tt
  | TRUE =>
      match old_field_type, new_field_type with
      | ArrayType _ old_element_type, Some (ArrayType _ new_element_type) =>
          check_reply_field_type_unwrapped_def old_element_type
            (Some new_element_type) field_pair
      | _, _ => raise AttributeError
      end
  | FALSE =>
      check_reply_field_type_unwrapped_def old_field_type new_field_type field_pair
  end.

(** [check_reply_field_type] when the old type is [None]. *)
Definition check_reply_field_type_unresolved
  (new_field_type : option IdlType) (field_pair : FieldCompatibilityPair)
  : M unit :=
  array_check <- check_array_type "reply_field" None new_field_type
                   (cmd_name field_pair) "type" (old_idl_file_path field_pair)
                   (new_idl_file_path field_pair) (old_unstable field_pair) ;;
  match array_check with
  | INVALID => ret tt
  | TRUE => raise AttributeError
  | FALSE =>
      add_error reply_field_type_invalid_error (cmd_name field_pair)
        [pair_field_name field_pair] (old_idl_file_path field_pair) None ;;
      dump_errors ;;
      sys_exit 1
  end.

Definition check_reply_field_def (old_field new_field : Field)
  (cmd_name old_idl_file_path new_idl_file_path : string) : M unit :=
  when (negb (unstable old_field))
    (when (unstable new_field)
       (add_error new_reply_field_unstable_error cmd_name
          [field_name new_field] new_idl_file_path None) ;;
     when (optional new_field && negb (optional old_field))
       (add_error new_reply_field_optional_error cmd_name
          [field_name new_field] new_idl_file_path None) ;;
     match validator new_field with
     | Some new_validator =>
         match validator old_field with
         | Some old_validator =>
             when (negb (String.eqb new_validator old_validator))
               (add_error reply_field_validators_not_equal_error cmd_name
                  [field_name new_field] new_idl_file_path None)
         | None =>
             add_error reply_field_contains_validator_error cmd_name
               [field_name new_field] new_idl_file_path None
         end
     | None => ret tt
     end) ;;
  let field_pair :=
    mkPair old_idl_file_path (unstable old_field)
           new_idl_file_path (unstable new_field) cmd_name (field_name old_field) in
  match get_field_type old_field with
  | Some old_field_type =>
      rec_type old_field_type (get_field_type new_field) field_pair
  | None =>
      check_reply_field_type_unresolved (get_field_type new_field) field_pair
  end.

(** The second loop of [check_reply_fields]: newly added fields. *)
Definition check_reply_fields_newly_added (old_reply new_reply : Struct)
  (cmd_name new_idl_file_path : string) : M unit :=
  for_each (fun new_field =>
    let newly_added :=
      negb (existsb (fun old_field =>
                       String.eqb (field_name new_field) (field_name old_field))
                    (fields old_reply)) in
    when newly_added
      (let allow_name := reply_allow_name cmd_name (field_name new_field) in
       match get_field_type new_field with
       | Some new_field_type =>
           match as_Type new_field_type with
           | Some new_attrs =>
               when (any_in new_attrs && negb (allowed allow_name))
                 (add_error reply_field_bson_any_not_allowed_error cmd_name
                    [field_name new_field; name new_attrs] new_idl_file_path None)
           | None => ret tt
           end
       | None => ret tt
       end))
    (fields new_reply).

Definition check_reply_fields_def (old_reply new_reply : Struct)
  (cmd_name old_idl_file_path new_idl_file_path : string) : M unit :=
  for_each (fun old_field =>
    for_first
      (fun new_field =>
         rec_field old_field new_field cmd_name old_idl_file_path new_idl_file_path)
      (fun new_field => String.eqb (field_name new_field) (field_name old_field))
      (when (negb (unstable old_field))
         (add_error new_reply_field_missing_error cmd_name
            [field_name old_field] old_idl_file_path None))
      (fields new_reply))
    (fields old_reply) ;;
  check_reply_fields_newly_added old_reply new_reply cmd_name new_idl_file_path.
End Reply.

Fixpoint check_reply_field_type_resolved (old_field_type : IdlType)
  (new_field_type : option IdlType) (field_pair : FieldCompatibilityPair)
  {struct old_field_type} : M unit :=
  check_reply_field_type_def check_reply_field_type_resolved check_reply_fields
    old_field_type new_field_type field_pair
with check_reply_fields (old_reply new_reply : Struct)
  (cmd_name old_idl_file_path new_idl_file_path : string) {struct old_reply}
  : M unit :=
  check_reply_fields_def check_reply_field old_reply new_reply
    cmd_name old_idl_file_path new_idl_file_path
with check_reply_field (old_field new_field : Field)
  (cmd_name old_idl_file_path new_idl_file_path : string) {struct old_field}
  : M unit :=
  check_reply_field_def check_reply_field_type_resolved old_field new_field
    cmd_name old_idl_file_path new_idl_file_path.

(** [check_reply_field_type] on the two types of a pair. *)
Definition check_reply_field_type (old_field_type new_field_type : option IdlType)
  (field_pair : FieldCompatibilityPair) : M unit :=
  match old_field_type with
  | Some old_field_type =>
      check_reply_field_type_resolved old_field_type new_field_type field_pair
  | None => check_reply_field_type_unresolved new_field_type field_pair
  end.

Definition check_reply_field_type_recursive :=
  check_reply_field_type_recursive_def check_reply_field_type_resolved
    check_reply_fields.

(** ** Command parameters and command types (input direction) *)

Definition check_param_or_type_validator (old_field new_field : Field)
  (cmd_name new_idl_file_path type_name : string) (is_command_parameter : bool)
  : M unit :=
  match validator new_field with
  | Some new_validator =>
      match validator old_field with
      | Some old_validator =>
          when (negb (String.eqb new_validator old_validator))
            (add_error command_or_param_type_validators_not_equal_error cmd_name
               [field_name new_field; type_name] new_idl_file_path
               (Some is_command_parameter))
      | None =>
          add_error command_or_param_type_contains_validator_error cmd_name
            [field_name new_field; type_name] new_idl_file_path
            (Some is_command_parameter)
      end
  | None => ret tt
  end.

Section Param.
Variable rec_type :
  IdlType -> option IdlType -> FieldCompatibilityPair -> bool -> M unit.
Variable rec_fields :
  Struct -> Struct -> string -> string -> string -> bool -> M unit.
Variable rec_field :
  Field -> Field -> string -> string -> string -> string -> bool -> M unit.

(** [check_param_or_command_type_recursive]: the old type is a
    [syntax.Type].  ([bson_serialization_type] is a list here, so the
    diagnostic [print] for an absent one has no counterpart.) *)
Definition check_param_or_command_type_recursive_def
  (old_type new_type : IdlType) (field_pair : FieldCompatibilityPair)
  (is_command_parameter : bool) : M unit :=
  let cmd_name := cmd_name field_pair in
  let param_name := pair_field_name field_pair in
  let old_path := old_idl_file_path field_pair in
  let new_path := new_idl_file_path field_pair in
  let old_field_unstable := old_unstable field_pair in
  let icp := Some is_command_parameter in
  match as_Type new_type with
  | None =>
      when (negb old_field_unstable)
        (add_error new_command_or_param_type_enum_or_struct_error cmd_name
           [type_name new_type; type_name old_type; param_name] new_path icp)
  | Some new_attrs =>
  match as_Type old_type with
  | None => raise AttributeError
  | Some old_attrs =>
    if any_in old_attrs && negb (any_in new_attrs) then
      add_error old_command_or_param_type_bson_any_error cmd_name
        [name old_attrs; param_name] old_path icp
    else if negb (any_in old_attrs) && any_in new_attrs then
      add_error new_command_or_param_type_bson_any_error cmd_name
        [name new_attrs; param_name] new_path icp
    else
      let allow_name := param_allow_name cmd_name param_name is_command_parameter in
      if any_in old_attrs && negb (allowed allow_name) then
        add_error command_or_param_type_bson_any_not_allowed_error cmd_name
          [name old_attrs; param_name] old_path icp
      else
        when (any_in old_attrs)
          (when (negb (option_eqb String.eqb (cpp_type old_attrs) (cpp_type new_attrs)))
             (add_error command_or_param_cpp_type_not_equal_error cmd_name
                [name new_attrs; param_name] new_path icp) ;;
           when (negb old_field_unstable &&
                 negb (option_eqb String.eqb (serializer old_attrs) (serializer new_attrs)))
             (add_error command_or_param_serializer_not_equal_error cmd_name
                [name new_attrs; param_name] new_path icp) ;;
           when (negb old_field_unstable &&
                 negb (option_eqb String.eqb (deserializer old_attrs) (deserializer new_attrs)))
             (add_error command_or_param_deserializer_not_equal_error cmd_name
                [name new_attrs; param_name] new_path icp)) ;;
        match old_type with
        | VariantType _ old_variant_types old_variant_struct_type =>
            match new_type with
            | VariantType _ new_variant_types new_variant_struct_type =>
                for_each (fun old_variant_type =>
                  for_first
                    (fun new_variant_type =>
                       rec_type old_variant_type (Some new_variant_type) field_pair
                         is_command_parameter)
                    (fun new_variant_type =>
                       String.eqb (type_name old_variant_type)
                                  (type_name new_variant_type))
                    (when (negb old_field_unstable)
                       (add_error new_command_or_param_variant_type_not_superset_error
                          cmd_name [type_name old_variant_type; param_name]
                          new_path icp))
                    new_variant_types)
                  old_variant_types ;;
                match old_variant_struct_type with
                | Some old_struct =>
                    match new_variant_struct_type with
                    | Some new_struct =>
                        rec_fields old_struct new_struct cmd_name old_path new_path
                          is_command_parameter
                    | None =>
                        when (negb old_field_unstable)
                          (add_error
                             new_command_or_param_variant_type_not_superset_error
                             cmd_name [struct_name old_struct; param_name]
                             new_path icp)
                    end
                | None => ret tt
                end
            | _ =>
                when (negb old_field_unstable)
                  (add_error new_command_or_param_type_not_variant_type_error
                     cmd_name [name new_attrs; param_name] new_path icp)
            end
        | _ =>
            when (negb old_field_unstable)
              (check_superset cmd_name (name new_attrs) String.eqb
                 (bson_serialization_type new_attrs)
                 (bson_serialization_type old_attrs) new_path param_name
                 is_command_parameter)
        end
  end
  end.

(** [check_param_or_command_type] after the array check and unwrapping, for
    a resolved old type. *)
Definition check_param_or_command_type_unwrapped_def
  (old_type : IdlType) (new_type : option IdlType)
  (field_pair : FieldCompatibilityPair) (is_command_parameter : bool) : M unit :=
  let cmd_name := cmd_name field_pair in
  let field_name := pair_field_name field_pair in
  let old_path := old_idl_file_path field_pair in
  let new_path := new_idl_file_path field_pair in
  let icp := Some is_command_parameter in
  match new_type with
  | None =>
      add_error command_or_param_type_invalid_error cmd_name [field_name]
        new_path icp ;;
      dump_errors ;;
      sys_exit 1
  | Some new_type =>
      match old_type with
      | Type_ _ | ArrayType _ _ | VariantType _ _ _ =>
          check_param_or_command_type_recursive_def old_type new_type field_pair
            is_command_parameter
      | Enum old_name old_values =>
          if negb (old_unstable field_pair) then
            match new_type with
            | Enum new_name new_values =>
                check_superset cmd_name new_name EnumValue_eqb new_values
                  old_values new_path field_name is_command_parameter
            | _ =>
                add_error new_command_or_param_type_not_enum_error cmd_name
                  [type_name new_type; old_name; field_name] new_path icp
            end
          else ret tt
      | StructType old_struct =>
          match new_type with
          | StructType new_struct =>
              rec_fields old_struct new_struct cmd_name old_path new_path
                is_command_parameter
          | _ =>
              when (negb (old_unstable field_pair))
                (add_error new_command_or_param_type_not_struct_error cmd_name
                   [type_name new_type; struct_name old_struct; field_name]
                   new_path icp)
          end
      end
  end.

Definition array_symbol (is_command_parameter : bool) : string :=
  if is_command_parameter then "command_parameter" else "command_namespace".

Definition array_symbol_name (field_pair : FieldCompatibilityPair)
  (is_command_parameter : bool) : string :=
  if is_command_parameter then pair_field_name field_pair else "type".

(** [check_param_or_command_type] on a resolved old type. *)
Definition check_param_or_command_type_def
  (old_type : IdlType) (new_type : option IdlType)
  (field_pair : FieldCompatibilityPair) (is_command_parameter : bool) : M unit :=
  array_check <- check_array_type (array_symbol is_command_parameter)
                   (Some old_type) new_type (cmd_name field_pair)
                   (array_symbol_name field_pair is_command_parameter)
                   (old_idl_file_path field_pair) (new_idl_file_path field_pair)
                   (old_unstable field_pair) ;;
  match array_check with
  | INVALID => ret tt
  | TRUE =>
      match old_type, new_type with
      | ArrayType _ old_element_type, Some (ArrayType _ new_element_type) =>
          check_param_or_command_type_unwrapped_def old_element_type
            (Some new_element_type) field_pair is_command_parameter
      | _, _ => raise AttributeError
      end
  | FALSE =>
      check_param_or_command_type_unwrapped_def old_type new_type field_pair
        is_command_parameter
  end.

(** [check_param_or_command_type] when the old type is [None]. *)
Definition check_param_or_command_type_unresolved
  (new_type : option IdlType) (field_pair : FieldCompatibilityPair)
  (is_command_parameter : bool) : M unit :=
  array_check <- check_array_type (array_symbol is_command_parameter)
                   None new_type (cmd_name field_pair)
                   (array_symbol_name field_pair is_command_parameter)
                   (old_idl_file_path field_pair) (new_idl_file_path field_pair)
                   (old_unstable field_pair) ;;
  match array_check with
  | INVALID => ret tt
  | TRUE => raise AttributeError
  | FALSE =>
      add_error command_or_param_type_invalid_error (cmd_name field_pair)
        [pair_field_name field_pair] (old_idl_file_path field_pair)
        (Some is_command_parameter) ;;
      dump_errors ;;
      sys_exit 1
  end.

Definition check_command_param_or_type_struct_field_def
  (old_field new_field : Field)
  (cmd_name old_idl_file_path new_idl_file_path type_name : string)
  (is_command_parameter : bool) : M unit :=
  let icp := Some is_command_parameter in
  when (negb (unstable old_field) && unstable new_field)
    (add_error new_param_or_command_type_field_unstable_error cmd_name
       [field_name old_field; type_name] old_idl_file_path icp) ;;
  when (unstable old_field && negb (unstable new_field) &&
        negb (optional new_field) && is_None (default new_field))
    (add_error new_param_or_command_type_field_stable_required_no_default_error
       cmd_name [field_name old_field; type_name] old_idl_file_path icp) ;;
  when (optional old_field && negb (optional new_field))
    (add_error new_param_or_command_type_field_required_error cmd_name
       [field_name old_field; type_name] old_idl_file_path icp) ;;
  when (negb (unstable old_field))
    (check_param_or_type_validator old_field new_field cmd_name
       new_idl_file_path type_name is_command_parameter) ;;
  let field_pair :=
    mkPair old_idl_file_path (unstable old_field)
           new_idl_file_path (unstable new_field) cmd_name (field_name old_field) in
  match get_field_type old_field with
  | Some old_field_type =>
      rec_type old_field_type (get_field_type new_field) field_pair
        is_command_parameter
  | None =>
      check_param_or_command_type_unresolved (get_field_type new_field)
        field_pair is_command_parameter
  end.

(** The second loop of [check_command_params_or_type_struct_fields]: newly
    added fields. *)
Definition check_command_params_or_type_struct_fields_newly_added
  (old_struct new_struct : Struct)
  (cmd_name old_idl_file_path new_idl_file_path : string)
  (is_command_parameter : bool) : M unit :=
  for_each (fun new_field =>
    let newly_added :=
      negb (existsb (fun old_field =>
                       String.eqb (field_name new_field) (field_name old_field))
                    (fields old_struct)) in
    when (newly_added && negb (optional new_field) && negb (unstable new_field))
      (add_error new_param_or_command_type_field_added_required_error cmd_name
         [field_name new_field; struct_name new_struct] new_idl_file_path
         (Some is_command_parameter)) ;;
    when newly_added
      (let allow_name :=
         param_allow_name cmd_name (field_name new_field) is_command_parameter in
       match get_field_type new_field with
       | Some new_field_type =>
           match as_Type new_field_type with
           | Some new_attrs =>
               when (any_in new_attrs && negb (allowed allow_name))
                 (add_error command_or_param_type_bson_any_not_allowed_error
                    cmd_name [name new_attrs; field_name new_field]
                    old_idl_file_path (Some is_command_parameter))
           | None => ret tt
           end
       | None => ret tt
       end))
    (fields new_struct).

Definition check_command_params_or_type_struct_fields_def
  (old_struct new_struct : Struct)
  (cmd_name old_idl_file_path new_idl_file_path : string)
  (is_command_parameter : bool) : M unit :=
  for_each (fun old_field =>
    for_first
      (fun new_field =>
         rec_field old_field new_field cmd_name old_idl_file_path
           new_idl_file_path (struct_name old_struct) is_command_parameter)
      (fun new_field => String.eqb (field_name new_field) (field_name old_field))
      (when (negb (unstable old_field))
         (add_error new_param_or_command_type_field_missing_error cmd_name
            [field_name old_field; struct_name old_struct] old_idl_file_path
            (Some is_command_parameter)))
      (fields new_struct))
    (fields old_struct) ;;
  check_command_params_or_type_struct_fields_newly_added old_struct new_struct
    cmd_name old_idl_file_path new_idl_file_path is_command_parameter.
End Param.

Fixpoint check_param_or_command_type_resolved (old_type : IdlType)
  (new_type : option IdlType) (field_pair : FieldCompatibilityPair)
  (is_command_parameter : bool) {struct old_type} : M unit :=
  check_param_or_command_type_def check_param_or_command_type_resolved
    check_command_params_or_type_struct_fields
    old_type new_type field_pair is_command_parameter
with check_command_params_or_type_struct_fields (old_struct new_struct : Struct)
  (cmd_name old_idl_file_path new_idl_file_path : string)
  (is_command_parameter : bool) {struct old_struct} : M unit :=
  check_command_params_or_type_struct_fields_def
    check_command_param_or_type_struct_field old_struct new_struct
    cmd_name old_idl_file_path new_idl_file_path is_command_parameter
with check_command_param_or_type_struct_field (old_field new_field : Field)
  (cmd_name old_idl_file_path new_idl_file_path type_name : string)
  (is_command_parameter : bool) {struct old_field} : M unit :=
  check_command_param_or_type_struct_field_def
    check_param_or_command_type_resolved old_field new_field
    cmd_name old_idl_file_path new_idl_file_path type_name is_command_parameter.

(** [check_param_or_command_type] on the two types of a pair. *)
Definition check_param_or_command_type (old_type new_type : option IdlType)
  (field_pair : FieldCompatibilityPair) (is_command_parameter : bool) : M unit :=
  match old_type with
  | Some old_type =>
      check_param_or_command_type_resolved old_type new_type field_pair
        is_command_parameter
  | None =>
      check_param_or_command_type_unresolved new_type field_pair
        is_command_parameter
  end.

Definition check_param_or_command_type_recursive :=
  check_param_or_command_type_recursive_def check_param_or_command_type_resolved
    check_command_params_or_type_struct_fields.

(** ** Namespace *)

Definition check_namespace (old_cmd new_cmd : Command)
  (old_idl_file_path new_idl_file_path : string) : M unit :=
  let old_namespace := namespace old_cmd in
  let new_namespace := namespace new_cmd in
  let incompatible :=
    add_error new_namespace_incompatible_error (command_name old_cmd)
      [namespace_str old_namespace; namespace_str new_namespace]
      new_idl_file_path None in
  match old_namespace with
  | COMMAND_NAMESPACE_IGNORED =>
      when (negb (Namespace_eqb new_namespace COMMAND_NAMESPACE_IGNORED))
        incompatible
  | COMMAND_NAMESPACE_CONCATENATE_WITH_DB_OR_UUID =>
      when (negb (Namespace_eqb new_namespace COMMAND_NAMESPACE_IGNORED ||
                  Namespace_eqb new_namespace
                    COMMAND_NAMESPACE_CONCATENATE_WITH_DB_OR_UUID))
        incompatible
  | COMMAND_NAMESPACE_CONCATENATE_WITH_DB =>
      when (Namespace_eqb new_namespace COMMAND_NAMESPACE_TYPE) incompatible
  | COMMAND_NAMESPACE_TYPE =>
      let old_type := command_type old_cmd in
      if Namespace_eqb new_namespace COMMAND_NAMESPACE_TYPE then
        let new_type := command_type new_cmd in
        check_param_or_command_type old_type new_type
          (mkPair old_idl_file_path false new_idl_file_path false
                  (command_name old_cmd) "")
          false
      else
        old_type_name <- name_of old_type ;;
        when (negb (String.eqb old_type_name "namespacestring"))
          (when (negb (Namespace_eqb new_namespace COMMAND_NAMESPACE_IGNORED))
             incompatible)
  end.

(** ** Access checks *)

Definition len_action_type (p : Privilege) : nat := List.length (action_type p).

(** Stable insertion by decreasing [len(x.action_type)]: the order of
    [sorted(privileges, key=..., reverse=True)]. *)
Fixpoint insert_by_len (x : Privilege) (l : list Privilege) : list Privilege :=
  match l with
  | [] => [x]
  | y :: rest =>
      if Nat.ltb (len_action_type x) (len_action_type y) then y :: insert_by_len x rest
      else x :: y :: rest
  end.

Definition sorted_by_len_desc (l : list Privilege) : list Privilege :=
  fold_right insert_by_len [] l.

Fixpoint somes {A} (l : list (option A)) : list A :=
  match l with
  | [] => []
  | Some x :: rest => x :: somes rest
  | None :: rest => somes rest
  end.

Definition split_complex_checks (complex_checks : list AccessCheck)
  : list string * list Privilege :=
  let checks := somes (map check complex_checks) in
  let privileges := somes (map privilege complex_checks) in
  (checks, sorted_by_len_desc privileges).

(** [new.resource_pattern == old.resource_pattern and
     set(new.action_type).issubset(old.action_type)] *)
Definition privilege_matches (new_privilege old_privilege : Privilege) : bool :=
  String.eqb (resource_pattern new_privilege) (resource_pattern old_privilege) &&
  issubset String.eqb (action_type new_privilege) (action_type old_privilege).

(** The inner loop over [old_privileges]: the list without the first old
    privilege that matches ([old_privileges.remove(old_privilege); break]),
    or [None] when the loop runs to its [else]. *)
Fixpoint remove_first_match (new_privilege : Privilege)
  (old_privileges : list Privilege) : option (list Privilege) :=
  match old_privileges with
  | [] => None
  | old_privilege :: rest =>
      if privilege_matches new_privilege old_privilege then Some rest
      else option_map (cons old_privilege) (remove_first_match new_privilege rest)
  end.

(** The loop over [new_privileges], with the mutated [old_privileges] as
    loop state. *)
Fixpoint match_privileges (new_privileges old_privileges : list Privilege)
  (cmd_name new_idl_file_path : string) : M unit :=
  match new_privileges with
  | [] => ret tt
  | new_privilege :: rest =>
      match remove_first_match new_privilege old_privileges with
      | Some old_privileges' =>
          match_privileges rest old_privileges' cmd_name new_idl_file_path
      | None =>
          add_error new_complex_privileges_not_subset_error cmd_name []
            new_idl_file_path None ;;
          match_privileges rest old_privileges cmd_name new_idl_file_path
      end
  end.

Definition str_of_option (o : option string) : string :=
  match o with Some s => s | None => "None" end.

Definition check_security_access_checks
  (old_access_checks new_access_checks : option AccessChecks) (cmd : Command)
  (new_idl_file_path : string) : M unit :=
  let cmd_name := command_name cmd in
  match old_access_checks, new_access_checks with
  | Some old_access_checks, Some new_access_checks =>
      let old_access_check_type := get_access_check_type old_access_checks in
      let new_access_check_type := get_access_check_type new_access_checks in
      if negb (AccessCheckType_eqb old_access_check_type new_access_check_type) then
        add_error access_check_type_not_equal_error cmd_name
          [access_check_type_str old_access_check_type;
           access_check_type_str new_access_check_type] new_idl_file_path None
      else
        match simple old_access_checks, simple new_access_checks with
        | Some old_simple_check, Some new_simple_check =>
            if negb (option_eqb String.eqb (check old_simple_check)
                                           (check new_simple_check)) then
              add_error check_not_equal_error cmd_name
                [str_of_option (check old_simple_check);
                 str_of_option (check new_simple_check)] new_idl_file_path None
            else
              match privilege old_simple_check, privilege new_simple_check with
              | Some old_privilege, Some new_privilege =>
                  when (negb (String.eqb (resource_pattern old_privilege)
                                         (resource_pattern new_privilege)))
                    (add_error resource_pattern_not_equal_error cmd_name
                       [resource_pattern old_privilege;
                        resource_pattern new_privilege] new_idl_file_path None) ;;
                  when (negb (issubset String.eqb (action_type new_privilege)
                                                  (action_type old_privilege)))
                    (add_error new_action_types_not_subset_error cmd_name []
                       new_idl_file_path None)
              | _, _ => ret tt
              end
        | _, _ => ret tt
        end ;;
        match complex old_access_checks, complex new_access_checks with
        | Some old_complex_checks, Some new_complex_checks =>
            if Nat.ltb (List.length old_complex_checks) (List.length new_complex_checks) then
              add_error new_additional_complex_access_check_error cmd_name []
                new_idl_file_path None
            else
              let '(old_checks, old_privileges) :=
                split_complex_checks old_complex_checks in
              let '(new_checks, new_privileges) :=
                split_complex_checks new_complex_checks in
              when (negb (issubset String.eqb new_checks old_checks))
                (add_error new_complex_checks_not_subset_error cmd_name []
                   new_idl_file_path None) ;;
              if Nat.ltb (List.length old_privileges) (List.length new_privileges) then
                add_error new_complex_privileges_not_subset_error cmd_name []
                  new_idl_file_path None
              else
                match_privileges new_privileges old_privileges cmd_name
                  new_idl_file_path
        | _, _ => ret tt
        end
  | Some _, None =>
      add_error removed_access_check_field_error cmd_name [] new_idl_file_path None
  | None, Some _ =>
      when (String.eqb (api_version cmd) "1")
        (add_error added_access_check_field_error cmd_name [] new_idl_file_path None)
  | None, None => ret tt
  end.

(** ** The driver

    The two directories are given as the lists of their parsed IDL files, in
    the order [os.walk] yields them. *)

Section FoldM.
Context {A S : Type}.
Variable f : S -> A -> M S.

Fixpoint fold_m (l : list A) (s : S) : M S :=
  match l with
  | [] => ret s
  | x :: rest => s' <- f s x ;; fold_m rest s'
  end.
End FoldM.

(** The dictionaries [new_commands] and [new_command_file_path], keyed by
    command name. *)
Definition NewCommands : Type := list (string * (Command * string)).

Fixpoint lookup_command (name : string) (d : NewCommands)
  : option (Command * string) :=
  match d with
  | [] => None
  | (k, v) :: rest => if String.eqb k name then Some v else lookup_command name rest
  end.

Definition get_new_commands_step (new_idl_dir new_idl_file_path : string)
  (new_commands : NewCommands) (new_cmd : Command) : M NewCommands :=
  if String.eqb (api_version new_cmd) "" || imported new_cmd then ret new_commands
  else if negb (String.eqb (api_version new_cmd) "1") then
    add_error command_invalid_api_version_error (command_name new_cmd)
      [api_version new_cmd] new_idl_file_path None ;;
    ret new_commands
  else if negb (is_None (lookup_command (command_name new_cmd) new_commands)) then
    add_error duplicate_command_name_error (command_name new_cmd)
      [new_idl_dir] new_idl_file_path None ;;
    ret new_commands
  else
    ret (new_commands ++ [(command_name new_cmd, (new_cmd, new_idl_file_path))]).

Definition get_new_commands (new_idl_dir : string) (new_files : list IDLFile)
  : M NewCommands :=
  fold_m (fun new_commands new_idl_file =>
            fold_m (get_new_commands_step new_idl_dir (idl_file_path new_idl_file))
                   (commands new_idl_file) new_commands)
         new_files [].

(** [check_reply_fields] on the results of [get_struct]: [None] has no
    attribute [fields]. *)
Definition check_reply_fields_opt (old_reply new_reply : option Struct)
  (cmd_name old_idl_file_path new_idl_file_path : string) : M unit :=
  match old_reply, new_reply with
  | Some old_reply, Some new_reply =>
      check_reply_fields old_reply new_reply cmd_name old_idl_file_path
        new_idl_file_path
  | _, _ => raise AttributeError
  end.

(** The body of the loop over the commands of one old file; the loop state
    is the key set of [old_commands]. *)
Definition check_compatibility_step (old_idl_dir old_idl_file_path : string)
  (new_commands : NewCommands) (old_commands : list string) (old_cmd : Command)
  : M (list string) :=
  if String.eqb (api_version old_cmd) "" || imported old_cmd then ret old_commands
  else if negb (String.eqb (api_version old_cmd) "1") then
    add_error command_invalid_api_version_error (command_name old_cmd)
      [api_version old_cmd] old_idl_file_path None ;;
    ret old_commands
  else if mem String.eqb (command_name old_cmd) old_commands then
    add_error duplicate_command_name_error (command_name old_cmd)
      [old_idl_dir] old_idl_file_path None ;;
    ret old_commands
  else
    let old_commands := old_commands ++ [command_name old_cmd] in
    match lookup_command (command_name old_cmd) new_commands with
    | None =>
        add_error command_removed_error (command_name old_cmd) []
          old_idl_file_path None ;;
        ret old_commands
    | Some (new_cmd, new_idl_file_path) =>
        when (negb (strict old_cmd) && strict new_cmd)
          (add_error command_strict_true_error (command_name new_cmd) []
             new_idl_file_path None) ;;
        check_command_params_or_type_struct_fields (as_struct old_cmd)
          (as_struct new_cmd) (command_name old_cmd) old_idl_file_path
          new_idl_file_path true ;;
        check_namespace old_cmd new_cmd old_idl_file_path new_idl_file_path ;;
        check_reply_fields_opt (reply_type old_cmd) (reply_type new_cmd)
          (command_name old_cmd) old_idl_file_path new_idl_file_path ;;
        check_security_access_checks (access_check old_cmd) (access_check new_cmd)
          old_cmd new_idl_file_path ;;
        ret old_commands
    end.

Definition check_compatibility (old_idl_dir new_idl_dir : string)
  (old_files new_files : list IDLFile) : M unit :=
  new_commands <- get_new_commands new_idl_dir new_files ;;
  fold_m (fun old_commands old_idl_file =>
            fold_m (check_compatibility_step old_idl_dir
                      (idl_file_path old_idl_file) new_commands)
                   (commands old_idl_file) old_commands)
         old_files [] ;;
  dump_errors.

(** ** Vocabulary of the statements *)

(** The context [c] with [added] appended to its errors. *)
Definition extend (c : Ctxt) (added : list CompatError) : Ctxt :=
  mkCtxt (errors c ++ added) (dumped c).

(** [m] only appends errors, and every error it appends satisfies [Q],
    however the call ends. *)
Definition adds_only {A} (Q : CompatError -> Prop) (m : M A) : Prop :=
  forall c, exists added,
    errors (ctxt_of (m c)) = errors c ++ added /\ Forall Q added.

(** [m] returns normally and leaves the context as it found it. *)
Definition silent (m : M unit) : Prop :=
  forall c, m c = Ok tt c.

(** *** Concrete inputs *)

Definition string_type : IdlType :=
  Type_ (mkTypeAttrs "string" ["string"] (Some "std::string") None None).

Definition namespacestring_type : IdlType :=
  Type_ (mkTypeAttrs "namespacestring" ["string"] (Some "NamespaceString")
           (Some "NamespaceString::toString") (Some "NamespaceString")).

Definition empty_struct (n : string) : Struct := mkStruct n [].

Definition ns_type_cmd : Command :=
  mkCommand "find" (empty_struct "find") "1" false true COMMAND_NAMESPACE_TYPE
    (Some namespacestring_type) (Some (empty_struct "reply")) None.

Definition ns_with_db_cmd : Command :=
  mkCommand "find" (empty_struct "find") "1" false true
    COMMAND_NAMESPACE_CONCATENATE_WITH_DB None (Some (empty_struct "reply")) None.

Definition namespace_error (old_cmd new_cmd : Command) (new_idl_file_path : string)
  : CompatError :=
  mkError new_namespace_incompatible_error (command_name old_cmd)
    [namespace_str (namespace old_cmd); namespace_str (namespace new_cmd)]
    new_idl_file_path None.

Definition reply_not_subset_error (field_pair : FieldCompatibilityPair)
  (type_name : string) : CompatError :=
  mkError reply_field_not_subset_error (cmd_name field_pair)
    [pair_field_name field_pair; type_name] (new_idl_file_path field_pair) None.

Definition param_not_superset_error (field_pair : FieldCompatibilityPair)
  (type_name : string) (is_command_parameter : bool) : CompatError :=
  mkError command_or_param_type_not_superset_error (cmd_name field_pair)
    [type_name; pair_field_name field_pair] (new_idl_file_path field_pair)
    (Some is_command_parameter).

Definition array_of_string : IdlType :=
  ArrayType (mkTypeAttrs "array<string>" ["array"] (Some "std::string") None None)
    string_type.

Definition any_type : IdlType :=
  Type_ (mkTypeAttrs "any_t" ["any"] (Some "IDLAnyType") None None).

Definition color_enum : IdlType :=
  Enum "Color" [mkEnumValue "red" "0"; mkEnumValue "blue" "1"].

Definition stable_pair : FieldCompatibilityPair :=
  mkPair "old.idl" false "new.idl" false "cmd" "f".

Definition unstable_pair : FieldCompatibilityPair :=
  mkPair "old.idl" true "new.idl" false "cmd" "f".

(** The context after [ctxt.add_..._type_invalid_error(...)],
    [ctxt.errors.dump_errors()]: the error is recorded and the whole
    sequence printed. *)
Definition recorded_and_dumped (e : CompatError) (c : Ctxt) : Ctxt :=
  mkCtxt (errors c ++ [e]) (dumped c ++ [errors c ++ [e]]).

Definition reply_invalid_error (field_pair : FieldCompatibilityPair)
  (file : string) : CompatError :=
  mkError reply_field_type_invalid_error (cmd_name field_pair)
    [pair_field_name field_pair] file None.

Definition param_invalid_error (field_pair : FieldCompatibilityPair)
  (file : string) (is_command_parameter : bool) : CompatError :=
  mkError command_or_param_type_invalid_error (cmd_name field_pair)
    [pair_field_name field_pair] file (Some is_command_parameter).

(** The file an unresolved type is reported against: the old one when the
    old type is [None], otherwise the new one. *)
Definition unresolved_file (old_type : option IdlType)
  (field_pair : FieldCompatibilityPair) : string :=
  if is_None old_type then old_idl_file_path field_pair
  else new_idl_file_path field_pair.

Definition any_error (e : CompatError) : Prop := True.

(** The arms of a variant type, and the structs a type refers to without
    passing through a field: the struct itself and the struct arm of a
    variant. *)
Definition arms_of (t : IdlType) : list IdlType :=
  match t with VariantType _ l _ => l | _ => [] end.

Definition struct_component (t : IdlType) (s : Struct) : Prop :=
  match t with
  | StructType s' => s' = s
  | VariantType _ _ (Some s') => s' = s
  | _ => False
  end.

(** The kinds of error that the comparison of one pair of types can record
    when the old field is unstable. *)
Definition reply_unstable_kind (k : ErrorKind) : bool :=
  match k with
  | reply_field_type_invalid_error
  | old_reply_field_bson_any_error
  | new_reply_field_bson_any_error
  | reply_field_bson_any_not_allowed_error
  | reply_field_cpp_type_not_equal_error => true
  | _ => false
  end.

Definition param_unstable_kind (k : ErrorKind) : bool :=
  match k with
  | command_or_param_type_invalid_error
  | old_command_or_param_type_bson_any_error
  | new_command_or_param_type_bson_any_error
  | command_or_param_type_bson_any_not_allowed_error
  | command_or_param_cpp_type_not_equal_error => true
  | _ => false
  end.

Definition optional_string_field : Field :=
  mkField "f" (Some string_type) true false None None.

Definition required_string_field : Field :=
  mkField "f" (Some string_type) false false None None.

Definition param_field_required_error (old_field : Field)
  (cmd_name old_idl_file_path type_name : string) (is_command_parameter : bool)
  : CompatError :=
  mkError new_param_or_command_type_field_required_error cmd_name
    [field_name old_field; type_name] old_idl_file_path
    (Some is_command_parameter).

Definition reply_field_optional_error (new_field : Field)
  (cmd_name new_idl_file_path : string) : CompatError :=
  mkError new_reply_field_optional_error cmd_name [field_name new_field]
    new_idl_file_path None.

(** [new_field] has no field of the same name in [old_struct]. *)
Definition newly_added (old_struct : Struct) (new_field : Field) : Prop :=
  forall old_field, In old_field (fields old_struct) ->
    field_name old_field <> field_name new_field.



Definition any_field : Field :=
  mkField "payload" (Some any_type) false false None None.

(** *** Access checks: the matching of privileges in words *)

(** A new privilege is covered by an old one: equal resource pattern and
    action types all among the old action types. *)
Definition covers (old_privilege new_privilege : Privilege) : Prop :=
  resource_pattern new_privilege = resource_pattern old_privilege /\
  incl (action_type new_privilege) (action_type old_privilege).

(** Greedy one-to-one matching of the new privileges, in order, against the
    old ones still available: each new privilege takes the first available
    old privilege that covers it, which is then no longer available;
    [greedy_match news olds k] leaves [k] new privileges unmatched. *)
Inductive greedy_match : list Privilege -> list Privilege -> nat -> Prop :=
| greedy_done (olds : list Privilege) : greedy_match [] olds 0
| greedy_take (new_privilege : Privilege) (news before : list Privilege)
    (old_privilege : Privilege) (after : list Privilege) (k : nat) :
    Forall (fun o => ~ covers o new_privilege) before ->
    covers old_privilege new_privilege ->
    greedy_match news (before ++ after) k ->
    greedy_match (new_privilege :: news) (before ++ old_privilege :: after) k
| greedy_skip (new_privilege : Privilege) (news olds : list Privilege) (k : nat) :
    Forall (fun o => ~ covers o new_privilege) olds ->
    greedy_match news olds k ->
    greedy_match (new_privilege :: news) olds (S k).

Definition complex_error (k : ErrorKind) (cmd : Command) (new_idl_file_path : string)
  : CompatError :=
  mkError k (command_name cmd) [] new_idl_file_path None.

Definition find_privilege : Privilege := mkPrivilege "exact_namespace" ["find"].

Definition find_and_kill_privilege : Privilege :=
  mkPrivilege "exact_namespace" ["find"; "killCursors"].

Definition kill_privilege : Privilege :=
  mkPrivilege "exact_namespace" ["killCursors"].

Definition plain_cmd : Command :=
  mkCommand "find" (empty_struct "find") "1" false true COMMAND_NAMESPACE_IGNORED
    None (Some (empty_struct "reply")) None.

(** *** Unstable fields *)

(** The structs a type contains without passing through a field. *)
Inductive sub_struct : IdlType -> Struct -> Prop :=
| sub_struct_here (s : Struct) : sub_struct (StructType s) s
| sub_struct_element (a : TypeAttrs) (e : IdlType) (s : Struct) :
    sub_struct e s -> sub_struct (ArrayType a e) s
| sub_struct_arm (a : TypeAttrs) (l : list IdlType) (so : option Struct)
    (t : IdlType) (s : Struct) :
    In t l -> sub_struct t s -> sub_struct (VariantType a l so) s
| sub_struct_struct_arm (a : TypeAttrs) (l : list IdlType) (s : Struct) :
    sub_struct (VariantType a l (Some s)) s.

(** [e] is one of the errors that the call [m] appends, from some context. *)
Definition recorded_by (m : M unit) (e : CompatError) : Prop :=
  exists c added,
    errors (ctxt_of (m c)) = errors c ++ added /\ In e added.

(** An error of the comparison of an unstable pair: either one of the kinds
    of [reply_unstable_kind] / [param_unstable_kind], or an error recorded by
    the field reconciliation of a struct contained in the old type (whose
    fields carry their own flags). *)
Definition reply_own_or_nested (old_type : IdlType)
  (field_pair : FieldCompatibilityPair) (e : CompatError) : Prop :=
  reply_unstable_kind (kind e) = true \/
  exists old_struct new_struct,
    sub_struct old_type old_struct /\
    recorded_by (check_reply_fields old_struct new_struct (cmd_name field_pair)
                   (old_idl_file_path field_pair) (new_idl_file_path field_pair))
      e.

Definition param_own_or_nested (old_type : IdlType)
  (field_pair : FieldCompatibilityPair) (is_command_parameter : bool)
  (e : CompatError) : Prop :=
  param_unstable_kind (kind e) = true \/
  exists old_struct new_struct,
    sub_struct old_type old_struct /\
    recorded_by (check_command_params_or_type_struct_fields old_struct
                   new_struct (cmd_name field_pair)
                   (old_idl_file_path field_pair) (new_idl_file_path field_pair)
                   is_command_parameter)
      e.

Definition any_with_cpp_type (cpp : string) : IdlType :=
  Type_ (mkTypeAttrs "any_t" ["any"] (Some cpp) None None).

Definition unstable_filter_pair : FieldCompatibilityPair :=
  mkPair "old.idl" true "new.idl" false "find" "filter".

(** *** Well-formed generations *)

Fixpoint nodupb (l : list string) : bool :=
  match l with
  | [] => true
  | x :: rest => negb (mem String.eqb x rest) && nodupb rest
  end.

(** A type carrying ["any"] is reached under a registered key. *)
Definition any_registered (key : string) (a : TypeAttrs) : bool :=
  negb (any_in a) || allowed key.

(** Well-formed types, structs and fields: every field type resolves, field
    names are unique within a struct, arm names are unique within a variant,
    and every type that carries ["any"] sits in a field whose allowlist key
    ([key] applied to the field name) is registered. *)
Fixpoint wf_type (key : string -> string) (fname : string) (t : IdlType)
  {struct t} : bool :=
  match t with
  | Type_ a => any_registered (key fname) a
  | ArrayType a e => any_registered (key fname) a && wf_type key fname e
  | VariantType a l s =>
      any_registered (key fname) a && nodupb (map type_name l) &&
      forallb (wf_type key fname) l &&
      match s with Some st => wf_struct key st | None => true end
  | Enum _ _ => true
  | StructType s => wf_struct key s
  end
with wf_struct (key : string -> string) (s : Struct) {struct s} : bool :=
  match s with
  | mkStruct _ fs => nodupb (map field_name fs) && forallb (wf_field key) fs
  end
with wf_field (key : string -> string) (f : Field) {struct f} : bool :=
  match f with
  | mkField n ty _ _ _ _ =>
      match ty with
      | Some t => wf_type key n t
      | None => false
      end
  end.

(** A command the checker looks at: it belongs to an API version and is not
    imported. *)
Definition in_api (cmd : Command) : bool :=
  negb (String.eqb (api_version cmd) "" || imported cmd).

Definition wf_command (cmd : Command) : bool :=
  String.eqb (api_version cmd) "1" &&
  wf_struct (fun f => param_allow_name (command_name cmd) f true) (as_struct cmd) &&
  match namespace cmd with
  | COMMAND_NAMESPACE_TYPE =>
      match command_type cmd with
      | Some t =>
          wf_type (fun f => param_allow_name (command_name cmd) f false) "" t
      | None => false
      end
  | _ => true
  end &&
  match reply_type cmd with
  | Some r => wf_struct (reply_allow_name (command_name cmd)) r
  | None => false
  end.

(** The commands of a directory with the path of their file, in order. *)
Definition all_commands (files : list IDLFile) : list (string * Command) :=
  flat_map (fun f => map (fun cmd => (idl_file_path f, cmd)) (commands f)) files.

Definition api_commands (files : list IDLFile) : list (string * Command) :=
  filter (fun pc => in_api (snd pc)) (all_commands files).

Definition wf_generation (files : list IDLFile) : bool :=
  nodupb (map (fun pc => command_name (snd pc)) (api_commands files)) &&
  forallb (fun pc => wf_command (snd pc)) (api_commands files).

Definition ping_payload_cmd : Command :=
  mkCommand "ping" (mkStruct "ping" [any_field]) "1" false true
    COMMAND_NAMESPACE_IGNORED None (Some (empty_struct "reply")) None.

Definition ping_generation : list IDLFile := [mkIDLFile "ping.idl" [ping_payload_cmd]].

Definition find_filter_cmd : Command :=
  mkCommand "find"
    (mkStruct "find" [mkField "filter" (Some any_type) true false None None;
                      mkField "limit" (Some string_type) true false None None])
    "1" false true COMMAND_NAMESPACE_TYPE (Some namespacestring_type)
    (Some (mkStruct "reply" [mkField "ok" (Some color_enum) false false None None]))
    (Some (AccessComplex [mkAccessCheck None (Some find_privilege);
                          mkAccessCheck (Some "is_authenticated")
                            (Some find_and_kill_privilege)])).

Definition find_generation : list IDLFile := [mkIDLFile "find.idl" [find_filter_cmd]].

(** The dictionary that [get_new_commands] builds from the commands it keeps. *)
Definition command_table (l : list (string * Command)) : NewCommands :=
  map (fun pc => (command_name (snd pc), (snd pc, fst pc))) l.

(** The context after the final [dump_errors] of a run that recorded
    nothing. *)
Definition dumped_once (c : Ctxt) : Ctxt :=
  mkCtxt (errors c) (dumped c ++ [errors c]).

(** *** Inputs of the sample runs *)

Definition bare_cmd (n : string) : Command :=
  mkCommand n (empty_struct n) "1" false true COMMAND_NAMESPACE_IGNORED None
    (Some (empty_struct "reply")) None.

Definition unstable_required_field : Field :=
  mkField "f" (Some string_type) false true None None.

Definition stable_required_field (d : option string) : Field :=
  mkField "f" (Some string_type) false false d None.

Definition simple_access (actions : list string) : option AccessChecks :=
  Some (AccessSimple (mkAccessCheck None (Some (mkPrivilege "R" actions)))).

(** ** Vocabulary of the further properties *)

(** *** How a check ends, apart from the context it is given *)

Inductive Ending (A : Type) : Type :=
| Returns (a : A)
| Exits (code : nat)
| Raises (e : Exn).
Arguments Returns {A} a.
Arguments Exits {A} code.
Arguments Raises {A} e.

(** The result of a check that appends [added] and ends as [k], when run
    from [c]; an exit dumps the whole sequence first. *)
Definition realize {A} (added : list CompatError) (k : Ending A) (c : Ctxt)
  : Result A :=
  match k with
  | Returns a => Ok a (extend c added)
  | Exits code =>
      SysExit code (mkCtxt (errors c ++ added) (dumped c ++ [errors c ++ added]))
  | Raises e => Raised e (extend c added)
  end.

Definition is_invalid_type_error (e : CompatError) : bool :=
  match kind e with
  | reply_field_type_invalid_error | command_or_param_type_invalid_error => true
  | _ => false
  end.

(** An exit has status 1 and follows the recording of an invalid-type
    error. *)
Definition fatal_only {A} (added : list CompatError) (k : Ending A) : Prop :=
  match k with
  | Exits code =>
      code = 1 /\
      exists front e, added = front ++ [e] /\ is_invalid_type_error e = true
  | _ => True
  end.

(** [m] appends the same errors and ends the same way from every context. *)
Definition steady {A} (m : M A) : Prop :=
  exists added k, fatal_only added k /\ forall c, m c = realize added k c.

(** The context [c0], reached from the empty context, as reached from [c]. *)
Definition rebase_ctxt (c c0 : Ctxt) : Ctxt :=
  mkCtxt (errors c ++ errors c0)
         (dumped c ++ map (fun d => errors c ++ d) (dumped c0)).

Definition rebase {A} (c : Ctxt) (r : Result A) : Result A :=
  match r with
  | Ok a c0 => Ok a (rebase_ctxt c c0)
  | SysExit code c0 => SysExit code (rebase_ctxt c c0)
  | Raised e c0 => Raised e (rebase_ctxt c c0)
  end.

(** Running [m] from any context is running it from the empty context and
    putting the incoming errors in front. *)
Definition context_free {A} (m : M A) : Prop :=
  forall c, m c = rebase c (m empty_ctxt).

(** [m] reaches [sys.exit] only with status 1, with an invalid-type error as
    the last recorded error and the whole sequence dumped last. *)
Definition exits_only_fatally {A} (m : M A) : Prop :=
  forall c code c', m c = SysExit code c' ->
    code = 1 /\
    (exists front e, errors c' = front ++ [e] /\ is_invalid_type_error e = true) /\
    dumped c' = dumped c ++ [errors c'].

(** [m] does not dump the compatibility errors unless it exits: when it
    returns or raises, the dumps are as it found them. *)
Definition dumps_nothing {A} (m : M A) : Prop :=
  forall c,
    match m c with
    | Ok _ c' | Raised _ c' => dumped c' = dumped c
    | SysExit _ _ => True
    end.

Definition unresolved_field : Field :=
  mkField "f" None false false None None.

Definition unresolved_reply_cmd : Command :=
  mkCommand "ping" (empty_struct "ping") "1" false true COMMAND_NAMESPACE_IGNORED
    None (Some (mkStruct "reply" [unresolved_field])) None.

(** Checks that always return. *)
Definition always_returns {A} (m : M A) : Prop :=
  forall c, exists a c', m c = Ok a c'.


Definition not_array_error (symbol symbol_name : string)
  (old_type new_type : IdlType) (field_pair : FieldCompatibilityPair)
  : CompatError :=
  mkError type_not_array_error (cmd_name field_pair)
    [symbol; symbol_name; type_name new_type; type_name old_type]
    (if is_ArrayType (Some old_type) then new_idl_file_path field_pair
     else old_idl_file_path field_pair) None.

Definition reply_any_error (k : ErrorKind) (field_pair : FieldCompatibilityPair)
  (type_name file : string) : CompatError :=
  mkError k (cmd_name field_pair) [pair_field_name field_pair; type_name] file None.

Definition param_any_error (k : ErrorKind) (field_pair : FieldCompatibilityPair)
  (type_name file : string) (is_command_parameter : bool) : CompatError :=
  mkError k (cmd_name field_pair) [type_name; pair_field_name field_pair] file
    (Some is_command_parameter).

Definition int_or_string_type : IdlType :=
  Type_ (mkTypeAttrs "intOrString" ["int"; "string"] (Some "IntOrString") None None).

Definition allowed_any_pair : FieldCompatibilityPair :=
  mkPair "old.idl" false "new.idl" false "commandAllowedAnyTypes" "anyTypeField".

Definition flag (b : bool) (e : CompatError) : list CompatError :=
  if b then [e] else [].

(** The three kinds of resolved types the comparisons dispatch on:
    [syntax.Type] (with its subclasses), [syntax.Enum], [syntax.Struct]. *)
Inductive TypeKind : Type := ScalarKind | EnumKind | StructKind.

Definition kind_of (t : IdlType) : TypeKind :=
  match t with
  | Type_ _ | ArrayType _ _ | VariantType _ _ _ => ScalarKind
  | Enum _ _ => EnumKind
  | StructType _ => StructKind
  end.

Definition reply_kind_change_error (old_type new_type : IdlType)
  (field_pair : FieldCompatibilityPair) : CompatError :=
  mkError
    match kind_of old_type with
    | ScalarKind => new_reply_field_type_enum_or_struct_error
    | EnumKind => new_reply_field_type_not_enum_error
    | StructKind => new_reply_field_type_not_struct_error
    end
    (cmd_name field_pair)
    [pair_field_name field_pair; type_name new_type; type_name old_type]
    (new_idl_file_path field_pair) None.

Definition param_kind_change_error (old_type new_type : IdlType)
  (field_pair : FieldCompatibilityPair) (is_command_parameter : bool)
  : CompatError :=
  mkError
    match kind_of old_type with
    | ScalarKind => new_command_or_param_type_enum_or_struct_error
    | EnumKind => new_command_or_param_type_not_enum_error
    | StructKind => new_command_or_param_type_not_struct_error
    end
    (cmd_name field_pair)
    [type_name new_type; type_name old_type; pair_field_name field_pair]
    (new_idl_file_path field_pair) (Some is_command_parameter).

Definition int_or_string_variant : IdlType :=
  VariantType (mkTypeAttrs "variant<int, string>" ["int"; "string"] None None None)
    [Type_ (mkTypeAttrs "int" ["int"] (Some "std::int32_t") None None);
     string_type]
    None.

Definition never_returns {A} (m : M A) : Prop :=
  forall c, match m c with Ok _ _ => False | _ => True end.

(** Every normal return of [m] leaves [e] as the last recorded error. *)
Definition returns_after {A} (e : CompatError) (m : M A) : Prop :=
  forall c a c', m c = Ok a c' -> exists front, errors c' = (front ++ [e])%list.

Definition string_or_struct_variant (s : option Struct) : IdlType :=
  VariantType (mkTypeAttrs "variant<string, struct>" ["string"; "object"] None
                 None None)
    [string_type] s.

(** The pair under which [check_namespace] compares two command types. *)
Definition namespace_pair (old_cmd : Command)
  (old_idl_file_path new_idl_file_path : string) : FieldCompatibilityPair :=
  mkPair old_idl_file_path false new_idl_file_path false (command_name old_cmd) "".

Definition unresolved_ns_type_cmd : Command :=
  mkCommand "find" (empty_struct "find") "1" false true COMMAND_NAMESPACE_TYPE
    None (Some (empty_struct "reply")) None.

Definition reply_missing_error (cmd old_idl_file_path : string) (f : Field)
  : CompatError :=
  mkError new_reply_field_missing_error cmd [field_name f] old_idl_file_path None.

Definition param_missing_error (cmd old_idl_file_path type_name : string)
  (is_command_parameter : bool) (f : Field) : CompatError :=
  mkError new_param_or_command_type_field_missing_error cmd
    [field_name f; type_name] old_idl_file_path (Some is_command_parameter).

Definition stable_fields (s : Struct) : list Field :=
  filter (fun f => negb (unstable f)) (fields s).

(** The new field has no validator, or the validator of the old field. *)
Definition validator_kept (old_field new_field : Field) : Prop :=
  validator new_field = None \/ validator new_field = validator old_field.

(** A command of API version 1 that is not imported: the ones the two
    loops over commands keep. *)
Definition is_v1 (cmd : Command) : bool :=
  in_api cmd && String.eqb (api_version cmd) "1".

Definition registration_error (e : CompatError) : Prop :=
  kind e = command_invalid_api_version_error
  \/ kind e = duplicate_command_name_error.

(** A file without its unversioned and imported commands. *)
Definition keep_api (f : IDLFile) : IDLFile :=
  mkIDLFile (idl_file_path f) (filter in_api (commands f)).

Definition removed_error (path : string) (cmd : Command) : CompatError :=
  mkError command_removed_error (command_name cmd) [] path None.

Definition strict_error (new_cmd : Command) (new_idl_file_path : string)
  : CompatError :=
  mkError command_strict_true_error (command_name new_cmd) [] new_idl_file_path
    None.

Definition lenient_cmd : Command :=
  mkCommand "find" (empty_struct "find") "1" false false
    COMMAND_NAMESPACE_IGNORED None (Some (empty_struct "reply")) None.

Definition access_kind_error (old_checks new_checks : AccessChecks)
  (cmd : Command) (new_idl_file_path : string) : CompatError :=
  mkError access_check_type_not_equal_error (command_name cmd)
    [access_check_type_str (get_access_check_type old_checks);
     access_check_type_str (get_access_check_type new_checks)]
    new_idl_file_path None.

Definition int_type : IdlType :=
  Type_ (mkTypeAttrs "int" ["int"] (Some "std::int32_t") None None).

Definition plain_variant (arms : list IdlType) : IdlType :=
  VariantType (mkTypeAttrs "variant" ["int"; "string"] None None None) arms None.

(** *** Newly added fields *)







(** *** Complex access checks in words *)

(** [x is not None] *)
Definition present {A} (o : option A) : bool := negb (is_None o).

(** [xs] is [[x for x in l if x is not None]]. *)
Definition kept_of {A} (l : list (option A)) (xs : list A) : Prop :=
  map Some xs = filter present l.

Definition by_len_desc (a b : Privilege) : Prop :=
  len_action_type b <= len_action_type a.

(** [privileges] is the list of the privileges of the entries (those that
    are not [None]) in non-increasing order of their number of action types,
    privileges with equally many action types in the order of the entries:
    [sorted(..., key=lambda x: len(x.action_type), reverse=True)]. *)
Definition sorted_privileges_of (entries : list AccessCheck)
  (privileges : list Privilege) : Prop :=
  exists in_order,
    kept_of (map privilege entries) in_order
    /\ Permutation privileges in_order
    /\ StronglySorted by_len_desc privileges
    /\ forall n,
         filter (fun p => Nat.eqb (len_action_type p) n) privileges
         = filter (fun p => Nat.eqb (len_action_type p) n) in_order.

(** Every check string of a new entry is the check string of an old entry. *)
Definition check_strings_included (new_complex old_complex : list AccessCheck)
  : Prop :=
  forall e s, In e new_complex -> check e = Some s ->
    exists e', In e' old_complex /\ check e' = Some s.

Definition old_complex_sample : list AccessCheck :=
  [mkAccessCheck (Some "is_authenticated") None;
   mkAccessCheck None (Some find_privilege)].

Definition new_complex_sample : list AccessCheck :=
  [mkAccessCheck (Some "is_admin") None;
   mkAccessCheck None (Some kill_privilege)].

Definition mixed_complex_sample : list AccessCheck :=
  [mkAccessCheck (Some "is_authenticated") (Some find_privilege);
   mkAccessCheck None (Some find_and_kill_privilege);
   mkAccessCheck (Some "is_admin") None;
   mkAccessCheck None (Some kill_privilege)].

(** *** Resolved inputs *)

Definition never_exits {A} (m : M A) : Prop :=
  forall c, match m c with SysExit _ _ => False | _ => True end.

(** Every field type reachable from the type, struct or field resolves. *)
Fixpoint resolved_type (t : IdlType) {struct t} : bool :=
  match t with
  | Type_ _ => true
  | ArrayType _ e => resolved_type e
  | VariantType _ l s =>
      forallb resolved_type l &&
      match s with Some st => resolved_struct st | None => true end
  | Enum _ _ => true
  | StructType s => resolved_struct s
  end
with resolved_struct (s : Struct) {struct s} : bool :=
  match s with
  | mkStruct _ fs => forallb resolved_field fs
  end
with resolved_field (f : Field) {struct f} : bool :=
  match f with
  | mkField _ ty _ _ _ _ =>
      match ty with
      | Some t => resolved_type t
      | None => false
      end
  end.

(** The command's parameters resolve, its namespace type resolves when the
    namespace is taken from a type, and so do the fields of its reply. *)
Definition resolved_command (cmd : Command) : bool :=
  resolved_struct (as_struct cmd) &&
  match namespace cmd with
  | COMMAND_NAMESPACE_TYPE =>
      match command_type cmd with
      | Some t => resolved_type t
      | None => false
      end
  | _ => true
  end &&
  match reply_type cmd with
  | Some r => resolved_struct r
  | None => true
  end.

(** [m] never exits, and leaves the dumps of the compatibility errors as it
    found them. *)
Definition quiet {A} (m : M A) : Prop :=
  forall c,
    match m c with
    | Ok _ c' | Raised _ c' => dumped c' = dumped c
    | SysExit _ _ => False
    end.

(** * Properties *)

Arguments allowed : simpl never.
Arguments any_in : simpl never.
Arguments issubset : simpl never.
Arguments reply_allow_name : simpl never.
Arguments param_allow_name : simpl never.

(** ** Sets *)

Lemma EnumValue_eqb_eq (a b : EnumValue) : EnumValue_eqb a b = true <-> a = b.
Proof.
  unfold EnumValue_eqb. rewrite andb_true_iff, !String.eqb_eq.
  destruct a, b; simpl. split.
  - intros [-> ->]. reflexivity.
  - intros H. inversion H. auto.
Qed.

Section Subsets.
Context {A : Type} (eqb : A -> A -> bool).
Hypothesis eqb_eq : forall a b, eqb a b = true <-> a = b.

Lemma mem_In (x : A) (l : list A) : mem eqb x l = true <-> In x l.
Proof.
  unfold mem. rewrite existsb_exists. split.
  - intros (y & Hy & E). apply eqb_eq in E. subst. exact Hy.
  - intros H. exists x. split; [exact H | apply eqb_eq; reflexivity].
Qed.

Lemma issubset_incl (sub super : list A) :
  issubset eqb sub super = true <-> incl sub super.
Proof.
  unfold issubset, incl. rewrite forallb_forall.
  split; intros H x Hx; apply mem_In; auto.
Qed.

Lemma issubset_not_incl (sub super : list A) :
  issubset eqb sub super = false <-> ~ incl sub super.
Proof.
  rewrite <- issubset_incl. destruct (issubset eqb sub super); split; intros;
    congruence.
Qed.

Lemma issubset_refl (l : list A) : issubset eqb l l = true.
Proof. apply issubset_incl, incl_refl. Qed.
End Subsets.

(** ** C8: namespace transitions *)

(** C8, as stated, fails: with an old namespace type named
    ["namespacestring"] the change from [type] to [concatenate_with_db] is
    accepted, although the name is the generic one and the new kind is not
    [ignored]. *)
Lemma namespace_type_accept_generic_name :
  check_namespace ns_type_cmd ns_with_db_cmd "old.idl" "new.idl" empty_ctxt
    = Ok tt empty_ctxt
  /\ namespace ns_type_cmd = COMMAND_NAMESPACE_TYPE
  /\ namespace ns_with_db_cmd <> COMMAND_NAMESPACE_TYPE
  /\ option_map type_name (command_type ns_type_cmd) = Some "namespacestring"
  /\ namespace ns_with_db_cmd <> COMMAND_NAMESPACE_IGNORED.
Proof. repeat split; try reflexivity; discriminate. Qed.

(** C8 (amended): from [concatenate_with_db_or_uuid], going to [type] records
    the namespace error, going to [ignored] or staying records nothing; from
    [type] with a resolved namespace type to any other kind, nothing is
    recorded exactly when the old type is named ["namespacestring"] or the
    new kind is [ignored], and the namespace error is recorded otherwise. *)
Theorem namespace_transition_table (old_cmd new_cmd : Command)
  (old_path new_path : string) (c : Ctxt) :
  (namespace old_cmd = COMMAND_NAMESPACE_CONCATENATE_WITH_DB_OR_UUID ->
     (namespace new_cmd = COMMAND_NAMESPACE_TYPE ->
        check_namespace old_cmd new_cmd old_path new_path c
          = Ok tt (record (namespace_error old_cmd new_cmd new_path) c))
     /\ (namespace new_cmd = COMMAND_NAMESPACE_IGNORED \/
         namespace new_cmd = COMMAND_NAMESPACE_CONCATENATE_WITH_DB_OR_UUID ->
        check_namespace old_cmd new_cmd old_path new_path c = Ok tt c))
  /\ (namespace old_cmd = COMMAND_NAMESPACE_TYPE ->
      namespace new_cmd <> COMMAND_NAMESPACE_TYPE ->
      forall t, command_type old_cmd = Some t ->
        (type_name t = "namespacestring" \/
         namespace new_cmd = COMMAND_NAMESPACE_IGNORED ->
           check_namespace old_cmd new_cmd old_path new_path c = Ok tt c)
        /\ (type_name t <> "namespacestring" ->
            namespace new_cmd <> COMMAND_NAMESPACE_IGNORED ->
            check_namespace old_cmd new_cmd old_path new_path c
              = Ok tt (record (namespace_error old_cmd new_cmd new_path) c))).
Proof.
  unfold check_namespace, namespace_error. split.
  - intros Ho. rewrite Ho. split.
    + intros Hn. rewrite Hn. reflexivity.
    + intros [Hn | Hn]; rewrite Hn; reflexivity.
  - intros Ho Hn t Ht. rewrite Ho, Ht.
    assert (Hb : Namespace_eqb (namespace new_cmd) COMMAND_NAMESPACE_TYPE = false)
      by (destruct (namespace new_cmd) eqn:E; simpl; congruence).
    rewrite Hb. unfold bind, name_of, ret. split.
    + intros [Hname | Hi].
      * rewrite Hname. reflexivity.
      * rewrite Hi. simpl. destruct (type_name t =? "namespacestring")%string;
          reflexivity.
    + intros Hname Hi.
      apply String.eqb_neq in Hname. rewrite Hname. simpl.
      destruct (namespace new_cmd) eqn:E; simpl; try reflexivity; congruence.
Qed.

Lemma namespace_transition_table_witness :
  check_namespace ns_type_cmd ns_with_db_cmd "old.idl" "new.idl" empty_ctxt
    = Ok tt empty_ctxt.
Proof.
  refine (proj1 (proj2 (namespace_transition_table ns_type_cmd ns_with_db_cmd
                          "old.idl" "new.idl" empty_ctxt)
                   eq_refl _ namespacestring_type eq_refl) _).
  - discriminate.
  - left. reflexivity.
Defined.

(** ** C1: enum value sets *)

(** C1: for a stable old field whose old and new types are enums, the reply
    (output) comparison records the not-subset error exactly when the new
    values are not all among the old ones, and the parameter / command-type
    (input) comparison records the not-superset error exactly when the old
    values are not all among the new ones; in particular equal value sets
    record nothing in either direction. *)
Theorem enum_values_direction (old_name new_name : string)
  (old_values new_values : list EnumValue) (field_pair : FieldCompatibilityPair)
  (is_command_parameter : bool) (c : Ctxt) :
  old_unstable field_pair = false ->
  let out := check_reply_field_type (Some (Enum old_name old_values))
               (Some (Enum new_name new_values)) field_pair c in
  let inp := check_param_or_command_type (Some (Enum old_name old_values))
               (Some (Enum new_name new_values)) field_pair
               is_command_parameter c in
  (incl new_values old_values -> out = Ok tt c)
  /\ (~ incl new_values old_values ->
      out = Ok tt (record (reply_not_subset_error field_pair new_name) c))
  /\ (incl old_values new_values -> inp = Ok tt c)
  /\ (~ incl old_values new_values ->
      inp = Ok tt (record (param_not_superset_error field_pair new_name
                             is_command_parameter) c)).
Proof.
  intros Hst. simpl.
  unfold check_reply_field_type_def, check_param_or_command_type_def,
    check_array_type, bind, ret. simpl.
  unfold check_reply_field_type_unwrapped_def,
    check_param_or_command_type_unwrapped_def, check_subset, check_superset.
  rewrite Hst. simpl.
  repeat split; intros H.
  - apply (issubset_incl _ EnumValue_eqb_eq) in H. rewrite H. reflexivity.
  - apply (issubset_not_incl _ EnumValue_eqb_eq) in H. rewrite H. reflexivity.
  - apply (issubset_incl _ EnumValue_eqb_eq) in H. rewrite H. reflexivity.
  - apply (issubset_not_incl _ EnumValue_eqb_eq) in H. rewrite H. reflexivity.
Qed.

Lemma enum_values_direction_witness :
  check_reply_field_type (Some color_enum)
    (Some (Enum "Color" [mkEnumValue "red" "0"])) stable_pair empty_ctxt
    = Ok tt empty_ctxt
  /\ check_param_or_command_type (Some color_enum)
       (Some (Enum "Color" [mkEnumValue "red" "0"])) stable_pair true empty_ctxt
     = Ok tt (record (param_not_superset_error stable_pair "Color" true)
                empty_ctxt).
Proof.
  pose proof (enum_values_direction "Color" "Color"
                [mkEnumValue "red" "0"; mkEnumValue "blue" "1"]
                [mkEnumValue "red" "0"] stable_pair true empty_ctxt eq_refl)
    as (Hsub & _ & _ & Hsup).
  split.
  - apply Hsub. intros x [<- | []]. left. reflexivity.
  - apply Hsup. intros H.
    destruct (H (mkEnumValue "blue" "1")) as [E | []].
    + right. left. reflexivity.
    + discriminate E.
Defined.

(** ** C10: array-ness change on an unstable field *)

(** C10: when exactly one of the two types is an array and the old field is
    unstable, [check_array_type] answers [TRUE] without recording anything,
    and both field-type comparisons then end in the [AttributeError] of
    reading [element_type] on the side that is not an array. *)
Theorem array_mismatch_unstable_raises (old_type new_type : option IdlType)
  (field_pair : FieldCompatibilityPair) (is_command_parameter : bool) (c : Ctxt) :
  old_unstable field_pair = true ->
  is_ArrayType old_type = negb (is_ArrayType new_type) ->
  (forall symbol cmd symbol_name old_path new_path,
      check_array_type symbol old_type new_type cmd symbol_name old_path
        new_path true c = Ok TRUE c)
  /\ check_reply_field_type old_type new_type field_pair c
     = Raised AttributeError c
  /\ check_param_or_command_type old_type new_type field_pair
       is_command_parameter c = Raised AttributeError c.
Proof.
  intros Hu Hx.
  unfold check_reply_field_type, check_param_or_command_type,
    check_reply_field_type_unresolved, check_param_or_command_type_unresolved.
  destruct old_type as [[] | ], new_type as [[] | ]; simpl in Hx;
    try discriminate Hx;
    (split; [intros; reflexivity | ]);
    simpl;
    unfold check_reply_field_type_def, check_param_or_command_type_def,
      check_array_type, bind; simpl; rewrite Hu; simpl; split; reflexivity.
Qed.

Lemma array_mismatch_unstable_raises_witness :
  check_reply_field_type (Some array_of_string) (Some string_type)
    unstable_pair empty_ctxt = Raised AttributeError empty_ctxt.
Proof.
  exact (proj1 (proj2 (array_mismatch_unstable_raises (Some array_of_string)
                         (Some string_type) unstable_pair true empty_ctxt
                         eq_refl eq_refl))).
Defined.

(** ** C6: unresolved types *)

(** When one of the two types is [None] and neither is an array, the
    invalid-type error is recorded, the errors are dumped and the run exits
    with status 1. *)
Lemma unresolved_type_exits (old_type new_type : option IdlType)
  (field_pair : FieldCompatibilityPair) (is_command_parameter : bool) (c : Ctxt) :
  old_type = None \/ new_type = None ->
  is_ArrayType old_type = false -> is_ArrayType new_type = false ->
  check_reply_field_type old_type new_type field_pair c
    = SysExit 1 (recorded_and_dumped
                   (reply_invalid_error field_pair
                      (unresolved_file old_type field_pair)) c)
  /\ check_param_or_command_type old_type new_type field_pair
       is_command_parameter c
     = SysExit 1 (recorded_and_dumped
                    (param_invalid_error field_pair
                       (unresolved_file old_type field_pair)
                       is_command_parameter) c).
Proof.
  intros Hnone Ho Hn.
  unfold check_reply_field_type, check_param_or_command_type,
    check_reply_field_type_unresolved, check_param_or_command_type_unresolved.
  destruct old_type as [old_type | ].
  - destruct Hnone as [Hnone | ->]; [discriminate Hnone | ].
    destruct old_type; simpl in Ho; try discriminate Ho; split; reflexivity.
  - unfold check_array_type. simpl. rewrite Hn. split; reflexivity.
Qed.

(** C6 fails on the code: an unresolved type next to an array type on a
    stable field never reaches the [None] tests.  [check_array_type] reads
    [.name] of both types to report the array-ness change, which raises
    [AttributeError] on [None]; no invalid-type error is recorded and
    nothing is dumped. *)
Theorem unresolved_type_beside_array_raises :
  check_reply_field_type None (Some array_of_string) stable_pair empty_ctxt
    = Raised AttributeError empty_ctxt
  /\ check_reply_field_type (Some array_of_string) None stable_pair empty_ctxt
     = Raised AttributeError empty_ctxt
  /\ check_param_or_command_type None (Some array_of_string) stable_pair true
       empty_ctxt = Raised AttributeError empty_ctxt
  /\ check_param_or_command_type (Some array_of_string) None stable_pair true
       empty_ctxt = Raised AttributeError empty_ctxt.
Proof. repeat split; reflexivity. Qed.

(** ** C5: the allowlist gate *)

(** C5, as stated, fails: an unstable old field of an ["any"] type whose key
    is not registered, changed to an enum, records nothing. *)
Lemma any_gate_skipped_for_unstable_kind_change :
  check_reply_field_type (Some any_type) (Some color_enum) unstable_pair
    empty_ctxt = Ok tt empty_ctxt
  /\ check_param_or_command_type (Some any_type) (Some color_enum) unstable_pair
       true empty_ctxt = Ok tt empty_ctxt
  /\ option_map any_in (as_Type any_type) = Some true
  /\ allowed (reply_allow_name "cmd" "f") = false
  /\ allowed (param_allow_name "cmd" "f" true) = false.
Proof. repeat split; reflexivity. Qed.

Ltac one_error :=
  simpl; eexists; eexists; simpl; reflexivity.

Lemma reply_recursive_any_gate rec_type rec_fields (old_type new_type : IdlType)
  (old_attrs new_attrs : TypeAttrs) (field_pair : FieldCompatibilityPair)
  (c : Ctxt) :
  as_Type old_type = Some old_attrs -> as_Type new_type = Some new_attrs ->
  any_in old_attrs = true ->
  allowed (reply_allow_name (cmd_name field_pair) (pair_field_name field_pair)) = false ->
  exists e,
    check_reply_field_type_recursive_def rec_type rec_fields old_type new_type
      field_pair c = Ok tt (record e c).
Proof.
  intros Ho Hn Hany Hkey. unfold check_reply_field_type_recursive_def.
  rewrite Ho, Hn, Hany. simpl.
  destruct (any_in new_attrs); simpl.
  - rewrite Hkey. simpl. eexists. reflexivity.
  - eexists. reflexivity.
Qed.

Lemma param_recursive_any_gate rec_type rec_fields (old_type new_type : IdlType)
  (old_attrs new_attrs : TypeAttrs) (field_pair : FieldCompatibilityPair)
  (is_command_parameter : bool) (c : Ctxt) :
  as_Type old_type = Some old_attrs -> as_Type new_type = Some new_attrs ->
  any_in old_attrs = true ->
  allowed (param_allow_name (cmd_name field_pair) (pair_field_name field_pair)
                      is_command_parameter) = false ->
  exists e,
    check_param_or_command_type_recursive_def rec_type rec_fields old_type
      new_type field_pair is_command_parameter c = Ok tt (record e c).
Proof.
  intros Ho Hn Hany Hkey. unfold check_param_or_command_type_recursive_def.
  rewrite Ho, Hn, Hany. simpl.
  destruct (any_in new_attrs); simpl.
  - rewrite Hkey. simpl. eexists. reflexivity.
  - eexists. reflexivity.
Qed.

(** C5 (amended): an old scalar or variant type that carries ["any"] and
    whose key is not registered makes each comparison record at least one
    error, whether or not the new type carries ["any"], as soon as the old
    field is stable, or the new type is unresolved, or the new type is itself
    a scalar or variant type. *)
Theorem any_not_allowlisted_errors (old_type : IdlType) (old_attrs : TypeAttrs)
  (new_type : option IdlType) (field_pair : FieldCompatibilityPair)
  (is_command_parameter : bool) (c : Ctxt) :
  as_Type old_type = Some old_attrs ->
  is_ArrayType (Some old_type) = false ->
  any_in old_attrs = true ->
  (old_unstable field_pair = false \/ new_type = None \/
   exists t new_attrs,
     new_type = Some t /\ as_Type t = Some new_attrs /\
     is_ArrayType new_type = false) ->
  (allowed (reply_allow_name (cmd_name field_pair) (pair_field_name field_pair)) = false ->
   exists e added,
     errors (ctxt_of (check_reply_field_type (Some old_type) new_type
                        field_pair c)) = errors c ++ e :: added)
  /\ (allowed (param_allow_name (cmd_name field_pair) (pair_field_name field_pair)
                      is_command_parameter) = false ->
      exists e added,
        errors (ctxt_of (check_param_or_command_type (Some old_type) new_type
                           field_pair is_command_parameter c))
          = errors c ++ e :: added).
Proof.
  intros Hattrs Harr Hany Hcase.
  assert (Hscalar : forall t new_attrs,
    new_type = Some t -> as_Type t = Some new_attrs ->
    is_ArrayType new_type = false ->
    (allowed (reply_allow_name (cmd_name field_pair) (pair_field_name field_pair)) = false ->
     exists e added,
       errors (ctxt_of (check_reply_field_type (Some old_type) new_type
                          field_pair c)) = errors c ++ e :: added)
    /\ (allowed (param_allow_name (cmd_name field_pair) (pair_field_name field_pair)
                      is_command_parameter) = false ->
        exists e added,
          errors (ctxt_of (check_param_or_command_type (Some old_type) new_type
                             field_pair is_command_parameter c))
            = errors c ++ e :: added)).
  { intros t new_attrs -> Ht Hnarr. split; intros Hkey.
    - destruct (reply_recursive_any_gate check_reply_field_type_resolved
                  check_reply_fields old_type t old_attrs new_attrs field_pair c
                  Hattrs Ht Hany Hkey) as [e He].
      exists e, [].
      destruct old_type; simpl in Hattrs, Harr; try discriminate;
        (destruct t; simpl in Ht, Hnarr; try discriminate;
         simpl; unfold check_reply_field_type_def, check_array_type, bind;
         simpl; unfold check_reply_field_type_unwrapped_def;
         rewrite He; reflexivity).
    - destruct (param_recursive_any_gate check_param_or_command_type_resolved
                  check_command_params_or_type_struct_fields old_type t
                  old_attrs new_attrs field_pair is_command_parameter c
                  Hattrs Ht Hany Hkey) as [e He].
      exists e, [].
      destruct old_type; simpl in Hattrs, Harr; try discriminate;
        (destruct t; simpl in Ht, Hnarr; try discriminate;
         simpl; unfold check_param_or_command_type_def, check_array_type, bind;
         simpl; unfold check_param_or_command_type_unwrapped_def;
         rewrite He; reflexivity). }
  destruct Hcase as [Hst | [-> | (t & new_attrs & Hn & Ht & Hnarr)]].
  - destruct new_type as [t | ].
    + destruct (as_Type t) as [new_attrs | ] eqn:Ht.
      * destruct (is_ArrayType (Some t)) eqn:Hnarr.
        -- split; intros _;
             destruct old_type; simpl in Hattrs, Harr; try discriminate;
               (destruct t; simpl in Ht, Hnarr; try discriminate;
                simpl;
                unfold check_reply_field_type_def,
                  check_param_or_command_type_def, check_array_type, bind;
                simpl; rewrite Hst; one_error).
        -- exact (Hscalar t new_attrs eq_refl Ht eq_refl).
      * split; intros _;
          destruct old_type; simpl in Hattrs, Harr; try discriminate;
            (destruct t; simpl in Ht; try discriminate;
             simpl;
             unfold check_reply_field_type_def,
               check_param_or_command_type_def, check_array_type, bind;
             simpl;
             unfold check_reply_field_type_unwrapped_def,
               check_param_or_command_type_unwrapped_def,
               check_reply_field_type_recursive_def,
               check_param_or_command_type_recursive_def;
             simpl; rewrite Hst; one_error).
    + split; intros _;
        destruct old_type; simpl in Hattrs, Harr; try discriminate; one_error.
  - split; intros _;
      destruct old_type; simpl in Hattrs, Harr; try discriminate; one_error.
  - exact (Hscalar t new_attrs Hn Ht Hnarr).
Qed.

Lemma any_not_allowlisted_errors_witness :
  exists e added,
    errors (ctxt_of (check_reply_field_type (Some any_type) (Some any_type)
                       unstable_pair empty_ctxt))
      = errors empty_ctxt ++ e :: added.
Proof.
  refine (proj1 (any_not_allowlisted_errors any_type _ (Some any_type)
                   unstable_pair true empty_ctxt eq_refl eq_refl eq_refl _)
            eq_refl).
  right. right. exists any_type. eexists. repeat split.
Defined.

(** ** The checker only appends errors *)

Lemma list_all_In {A} (P : A -> Prop) (l : list A) :
  list_all A P l -> forall x, In x l -> P x.
Proof.
  induction 1 as [ | a Ha l Hl IH]; intros x Hx.
  - destruct Hx.
  - destruct Hx as [<- | Hx]; auto.
Qed.

Section AddsOnly.
Variable Q : CompatError -> Prop.

Lemma adds_only_ret {A} (a : A) : adds_only Q (ret a).
Proof. intros c. exists []. split; [symmetry; apply app_nil_r | constructor]. Qed.

Lemma adds_only_raise {A} (e : Exn) : adds_only Q (@raise A e).
Proof. intros c. exists []. split; [symmetry; apply app_nil_r | constructor]. Qed.

Lemma adds_only_sys_exit {A} (n : nat) : adds_only Q (@sys_exit A n).
Proof. intros c. exists []. split; [symmetry; apply app_nil_r | constructor]. Qed.

Lemma adds_only_dump_errors : adds_only Q dump_errors.
Proof. intros c. exists []. split; [symmetry; apply app_nil_r | constructor]. Qed.

Lemma adds_only_add_error k cmd args file icp :
  Q (mkError k cmd args file icp) -> adds_only Q (add_error k cmd args file icp).
Proof. intros H c. eexists. split; [reflexivity | repeat constructor; exact H]. Qed.

Lemma adds_only_bind {A B} (m : M A) (k : A -> M B) :
  adds_only Q m -> (forall a, adds_only Q (k a)) -> adds_only Q (bind m k).
Proof.
  intros Hm Hk c. unfold bind.
  destruct (Hm c) as (l1 & E1 & F1).
  destruct (m c) as [a c' | code c' | e c']; simpl in E1.
  - destruct (Hk a c') as (l2 & E2 & F2).
    exists (l1 ++ l2). split.
    + rewrite E2, E1. symmetry. apply app_assoc.
    + apply Forall_app. split; assumption.
  - exists l1. split; assumption.
  - exists l1. split; assumption.
Qed.

Lemma adds_only_when (b : bool) (m : M unit) :
  (b = true -> adds_only Q m) -> adds_only Q (when b m).
Proof. destruct b; simpl; intros H; [apply H; reflexivity | apply adds_only_ret]. Qed.

Lemma adds_only_for_each {A} (body : A -> M unit) (l : list A) :
  (forall x, In x l -> adds_only Q (body x)) -> adds_only Q (for_each body l).
Proof.
  induction l as [ | x l IH]; intros H; simpl.
  - apply adds_only_ret.
  - apply adds_only_bind.
    + apply H. left. reflexivity.
    + intros _. apply IH. intros y Hy. apply H. right. exact Hy.
Qed.

Lemma adds_only_for_first {A} (body : A -> M unit) (p : A -> bool)
  (orelse : M unit) (l : list A) :
  (forall x, In x l -> p x = true -> adds_only Q (body x)) ->
  adds_only Q orelse -> adds_only Q (for_first body p orelse l).
Proof.
  intros H Helse. induction l as [ | x l IH]; simpl.
  - exact Helse.
  - destruct (p x) eqn:E.
    + apply H; [left; reflexivity | exact E].
    + apply IH. intros y Hy. apply H. right. exact Hy.
Qed.

Lemma adds_only_fold_m {A S} (f : S -> A -> M S) (l : list A) (s : S) :
  (forall s x, In x l -> adds_only Q (f s x)) -> adds_only Q (fold_m f l s).
Proof.
  revert s. induction l as [ | x l IH]; intros s H; simpl.
  - apply adds_only_ret.
  - apply adds_only_bind.
    + apply H. left. reflexivity.
    + intros s'. apply IH. intros s0 y Hy. apply H. right. exact Hy.
Qed.
End AddsOnly.

Lemma adds_only_weaken {A} (Q Q' : CompatError -> Prop) (m : M A) :
  (forall e, Q e -> Q' e) -> adds_only Q m -> adds_only Q' m.
Proof.
  intros HQ Hm c. destruct (Hm c) as (l & E & F).
  exists l. split; [exact E | ].
  eapply Forall_impl; [exact HQ | exact F].
Qed.

Lemma adds_only_keeps {A} (Q : CompatError -> Prop) (m : M A) (e : CompatError)
  (c : Ctxt) :
  adds_only Q m -> In e (errors c) -> In e (errors (ctxt_of (m c))).
Proof.
  intros Hm Hin. destruct (Hm c) as (l & E & _).
  rewrite E. apply in_or_app. left. exact Hin.
Qed.

Ltac adds_step :=
  match goal with
  | |- adds_only _ (ret _) => apply adds_only_ret
  | |- adds_only _ (raise _) => apply adds_only_raise
  | |- adds_only _ (sys_exit _) => apply adds_only_sys_exit
  | |- adds_only _ dump_errors => apply adds_only_dump_errors
  | |- adds_only _ (bind _ _) => apply adds_only_bind; [ | intros ? ]
  | |- adds_only _ (when _ _) => apply adds_only_when; intros ?
  | |- adds_only _ (check_subset _ _ _ _ _ _ _) => unfold check_subset
  | |- adds_only _ (check_superset _ _ _ _ _ _ _ _) => unfold check_superset
  | |- adds_only _ (name_of ?t) => destruct t; simpl
  | |- adds_only _ (if ?b then _ else _) => destruct b eqn:?
  | |- adds_only _ (match ?x with _ => _ end) => destruct x eqn:?
  end.

Lemma check_array_type_adds (Q : CompatError -> Prop) symbol old_type new_type
  cmd symbol_name old_path new_path u :
  (forall e, kind e = type_not_array_error -> u = false -> Q e) ->
  adds_only Q (check_array_type symbol old_type new_type cmd symbol_name
                 old_path new_path u).
Proof.
  intros HQ. unfold check_array_type.
  destruct (negb (is_ArrayType old_type) && negb (is_ArrayType new_type)).
  - apply adds_only_ret.
  - destruct ((negb (is_ArrayType old_type) || negb (is_ArrayType new_type))
              && negb u) eqn:E.
    + apply andb_true_iff in E. destruct E as [_ E].
      apply negb_true_iff in E.
      repeat adds_step.
      apply adds_only_add_error. apply HQ; [reflexivity | exact E].
    + apply adds_only_ret.
Qed.

(** One unfolding of each recursive function. *)
Lemma check_reply_field_type_resolved_eq t n p :
  check_reply_field_type_resolved t n p
  = check_reply_field_type_def check_reply_field_type_resolved check_reply_fields
      t n p.
Proof. destruct t; reflexivity. Qed.

Lemma check_reply_fields_eq s ns cmd op np :
  check_reply_fields s ns cmd op np
  = check_reply_fields_def check_reply_field s ns cmd op np.
Proof. destruct s; reflexivity. Qed.

Lemma check_reply_field_eq f nf cmd op np :
  check_reply_field f nf cmd op np
  = check_reply_field_def check_reply_field_type_resolved f nf cmd op np.
Proof. destruct f; reflexivity. Qed.

Lemma check_param_or_command_type_resolved_eq t n p icp :
  check_param_or_command_type_resolved t n p icp
  = check_param_or_command_type_def check_param_or_command_type_resolved
      check_command_params_or_type_struct_fields t n p icp.
Proof. destruct t; reflexivity. Qed.

Lemma check_command_params_or_type_struct_fields_eq s ns cmd op np icp :
  check_command_params_or_type_struct_fields s ns cmd op np icp
  = check_command_params_or_type_struct_fields_def
      check_command_param_or_type_struct_field s ns cmd op np icp.
Proof. destruct s; reflexivity. Qed.

Lemma check_command_param_or_type_struct_field_eq f nf cmd op np tn icp :
  check_command_param_or_type_struct_field f nf cmd op np tn icp
  = check_command_param_or_type_struct_field_def
      check_param_or_command_type_resolved f nf cmd op np tn icp.
Proof. destruct f; reflexivity. Qed.

Ltac stable_leaf HQ :=
  apply adds_only_add_error; apply HQ;
  let Hu := fresh "Hu" in
  intros Hu; simpl;
  first [ reflexivity
        | exfalso;
          repeat match goal with
                 | H : context [negb (old_unstable _)] |- _ =>
                     rewrite Hu in H; simpl in H
                 end;
          discriminate ].

Section ReplyTypeLevel.
Variable Q : CompatError -> Prop.
Variable rec_type :
  IdlType -> option IdlType -> FieldCompatibilityPair -> M unit.
Variable rec_fields : Struct -> Struct -> string -> string -> string -> M unit.
Variable field_pair : FieldCompatibilityPair.
Hypothesis HQ :
  forall e, (old_unstable field_pair = true -> reply_unstable_kind (kind e) = true)
            -> Q e.

Lemma reply_recursive_def_adds (t n : IdlType) :
  (forall ov, In ov (arms_of t) -> forall nv, adds_only Q (rec_type ov nv field_pair)) ->
  (forall os ns, struct_component t os ->
     adds_only Q (rec_fields os ns (cmd_name field_pair)
                    (old_idl_file_path field_pair) (new_idl_file_path field_pair))) ->
  adds_only Q (check_reply_field_type_recursive_def rec_type rec_fields t n
                 field_pair).
Proof.
  intros Harms Hstruct. unfold check_reply_field_type_recursive_def.
  cbv zeta.
  destruct (as_Type n) as [new_attrs | ].
  2: { adds_step. stable_leaf HQ. }
  destruct (as_Type t) as [old_attrs | ]; [ | apply adds_only_raise].
  repeat match goal with
         | |- adds_only _ (if ?b then _ else _) => destruct b eqn:?
         end; try stable_leaf HQ.
  apply adds_only_bind.
  - repeat adds_step; stable_leaf HQ.
  - intros _. destruct t; simpl in Harms, Hstruct;
      try (repeat adds_step; stable_leaf HQ).
    apply adds_only_bind.
    + apply adds_only_for_each. intros nv _.
      apply adds_only_for_first.
      * intros ov Hov _. apply Harms. exact Hov.
      * adds_step. stable_leaf HQ.
    + intros _.
      destruct n; try apply adds_only_ret.
      destruct variant_struct_type0 as [ns | ]; [ | apply adds_only_ret].
      destruct variant_struct_type as [os | ]; simpl.
      * apply Hstruct. reflexivity.
      * repeat adds_step. stable_leaf HQ.
Qed.

Lemma reply_unwrapped_def_adds (t : IdlType) (n : option IdlType) :
  (forall ov, In ov (arms_of t) -> forall nv, adds_only Q (rec_type ov nv field_pair)) ->
  (forall os ns, struct_component t os ->
     adds_only Q (rec_fields os ns (cmd_name field_pair)
                    (old_idl_file_path field_pair) (new_idl_file_path field_pair))) ->
  adds_only Q (check_reply_field_type_unwrapped_def rec_type rec_fields t n
                 field_pair).
Proof.
  intros Harms Hstruct. unfold check_reply_field_type_unwrapped_def. cbv zeta.
  destruct n as [n | ].
  - destruct t; try (apply reply_recursive_def_adds; assumption).
    + repeat adds_step; stable_leaf HQ.
    + destruct n; try (adds_step; stable_leaf HQ).
      apply Hstruct. reflexivity.
  - repeat adds_step. stable_leaf HQ.
Qed.

Lemma reply_type_def_adds (t : IdlType) (n : option IdlType) :
  (forall t', t' = t \/ (exists a, t = ArrayType a t') ->
     forall n', adds_only Q (check_reply_field_type_unwrapped_def rec_type
                               rec_fields t' n' field_pair)) ->
  adds_only Q (check_reply_field_type_def rec_type rec_fields t n field_pair).
Proof.
  intros H. unfold check_reply_field_type_def.
  apply adds_only_bind.
  - apply check_array_type_adds. intros e He Hu. apply HQ. congruence.
  - intros [ | | ].
    + apply adds_only_ret.
    + destruct t; try apply adds_only_raise.
      destruct n as [[] | ]; try apply adds_only_raise.
      apply H. right. eexists. reflexivity.
    + apply H. left. reflexivity.
Qed.
End ReplyTypeLevel.

Lemma option_all_Some {A} (P : A -> Prop) (o : option A) (x : A) :
  option_all A P o -> o = Some x -> P x.
Proof. intros H E. destruct H as [a Ha | ]; congruence. Qed.

Ltac any_leaf := apply adds_only_add_error; exact I.

Lemma reply_newly_added_adds old_reply new_reply cmd np :
  adds_only any_error (check_reply_fields_newly_added old_reply new_reply cmd np).
Proof.
  unfold check_reply_fields_newly_added.
  apply adds_only_for_each. intros nf _. cbv zeta.
  repeat adds_step; any_leaf.
Qed.

Lemma reply_unresolved_adds n p :
  adds_only any_error (check_reply_field_type_unresolved n p).
Proof.
  unfold check_reply_field_type_unresolved.
  apply adds_only_bind.
  - apply check_array_type_adds. intros; exact I.
  - intros [ | | ]; repeat adds_step; any_leaf.
Qed.

(** Every reply-side function only appends to the recorded errors. *)
Lemma reply_checks_append :
  (forall t,
      (forall n p, adds_only any_error
                     (check_reply_field_type_unwrapped_def
                        check_reply_field_type_resolved check_reply_fields t n p))
      /\ (forall n p, adds_only any_error (check_reply_field_type_resolved t n p)))
  /\ (forall s ns cmd op np, adds_only any_error (check_reply_fields s ns cmd op np))
  /\ (forall f nf cmd op np, adds_only any_error (check_reply_field f nf cmd op np)).
Proof.
  assert (HQ : forall (p : FieldCompatibilityPair) (e : CompatError),
             (old_unstable p = true -> reply_unstable_kind (kind e) = true) ->
             any_error e) by (intros; exact I).
  assert (Hres : forall t,
    (forall n p, adds_only any_error
                   (check_reply_field_type_unwrapped_def
                      check_reply_field_type_resolved check_reply_fields t n p)) ->
    (forall a e, t = ArrayType a e ->
       forall n p, adds_only any_error
                     (check_reply_field_type_unwrapped_def
                        check_reply_field_type_resolved check_reply_fields e n p)) ->
    forall n p, adds_only any_error (check_reply_field_type_resolved t n p)).
  { intros t Ht He n p. rewrite check_reply_field_type_resolved_eq.
    apply reply_type_def_adds; [apply HQ | ].
    intros t' [-> | (a & ->)] n'; [apply Ht | eapply He; reflexivity]. }
  apply IdlType_mutind.
  - (* Type_ *)
    intros a.
    assert (U : forall n p, adds_only any_error
                (check_reply_field_type_unwrapped_def
                   check_reply_field_type_resolved check_reply_fields (Type_ a) n p)).
    { intros n p. apply reply_unwrapped_def_adds; [apply HQ | | ]; simpl;
        intros; contradiction. }
    split; [exact U | ]. apply Hres; [exact U | discriminate].
  - (* ArrayType *)
    intros a e [IHu IHr].
    assert (U : forall n p, adds_only any_error
                (check_reply_field_type_unwrapped_def
                   check_reply_field_type_resolved check_reply_fields
                   (ArrayType a e) n p)).
    { intros n p. apply reply_unwrapped_def_adds; [apply HQ | | ]; simpl;
        intros; contradiction. }
    split; [exact U | ]. apply Hres; [exact U | ].
    intros a' e' E. injection E as _ <-. exact IHu.
  - (* VariantType *)
    intros a l IHl s IHs.
    assert (U : forall n p, adds_only any_error
                (check_reply_field_type_unwrapped_def
                   check_reply_field_type_resolved check_reply_fields
                   (VariantType a l s) n p)).
    { intros n p. apply reply_unwrapped_def_adds; [apply HQ | | ]; simpl.
      - intros ov Hov nv. apply (list_all_In _ _ IHl ov Hov).
      - intros os ns Hs. destruct s as [s | ]; [ | contradiction]. subst.
        apply (option_all_Some _ _ _ IHs eq_refl). }
    split; [exact U | ]. apply Hres; [exact U | discriminate].
  - (* Enum *)
    intros en vs.
    assert (U : forall n p, adds_only any_error
                (check_reply_field_type_unwrapped_def
                   check_reply_field_type_resolved check_reply_fields
                   (Enum en vs) n p)).
    { intros n p. apply reply_unwrapped_def_adds; [apply HQ | | ]; simpl;
        intros; contradiction. }
    split; [exact U | ]. apply Hres; [exact U | discriminate].
  - (* StructType *)
    intros s IHs.
    assert (U : forall n p, adds_only any_error
                (check_reply_field_type_unwrapped_def
                   check_reply_field_type_resolved check_reply_fields
                   (StructType s) n p)).
    { intros n p. apply reply_unwrapped_def_adds; [apply HQ | | ]; simpl.
      - intros; contradiction.
      - intros os ns ->. apply IHs. }
    split; [exact U | ]. apply Hres; [exact U | discriminate].
  - (* mkStruct *)
    intros sn fs IHfs ns cmd op np. rewrite check_reply_fields_eq.
    unfold check_reply_fields_def. apply adds_only_bind.
    + apply adds_only_for_each. intros f Hf. simpl in Hf.
      apply adds_only_for_first.
      * intros nf _ _. apply (list_all_In _ _ IHfs f Hf).
      * repeat adds_step. any_leaf.
    + intros _. apply reply_newly_added_adds.
  - (* mkField *)
    intros fn ty IHty o u d v nf cmd op np. rewrite check_reply_field_eq.
    unfold check_reply_field_def. apply adds_only_bind.
    + repeat adds_step; any_leaf.
    + intros _. cbv zeta. simpl get_field_type at 1.
      destruct ty as [t | ].
      * apply (option_all_Some _ _ _ IHty eq_refl).
      * apply reply_unresolved_adds.
Qed.

Section ParamTypeLevel.
Variable Q : CompatError -> Prop.
Variable rec_type :
  IdlType -> option IdlType -> FieldCompatibilityPair -> bool -> M unit.
Variable rec_fields :
  Struct -> Struct -> string -> string -> string -> bool -> M unit.
Variable field_pair : FieldCompatibilityPair.
Variable icp : bool.
Hypothesis HQ :
  forall e, (old_unstable field_pair = true -> param_unstable_kind (kind e) = true)
            -> Q e.

Lemma param_recursive_def_adds (t n : IdlType) :
  (forall ov, In ov (arms_of t) ->
     forall nv, adds_only Q (rec_type ov nv field_pair icp)) ->
  (forall os ns, struct_component t os ->
     adds_only Q (rec_fields os ns (cmd_name field_pair)
                    (old_idl_file_path field_pair) (new_idl_file_path field_pair)
                    icp)) ->
  adds_only Q (check_param_or_command_type_recursive_def rec_type rec_fields t n
                 field_pair icp).
Proof.
  intros Harms Hstruct. unfold check_param_or_command_type_recursive_def.
  cbv zeta.
  destruct (as_Type n) as [new_attrs | ]; [ | adds_step; stable_leaf HQ].
  destruct (as_Type t) as [old_attrs | ]; [ | apply adds_only_raise].
  repeat match goal with
         | |- adds_only _ (if ?b then _ else _) => destruct b eqn:?
         end; try stable_leaf HQ.
  apply adds_only_bind.
  - repeat adds_step; stable_leaf HQ.
  - intros _. destruct t; simpl in Harms, Hstruct;
      try (repeat adds_step; stable_leaf HQ).
    destruct n; try (adds_step; stable_leaf HQ).
    apply adds_only_bind.
    + apply adds_only_for_each. intros ov Hov.
      apply adds_only_for_first.
      * intros nv _ _. apply Harms. exact Hov.
      * adds_step. stable_leaf HQ.
    + intros _.
      destruct variant_struct_type as [os | ]; [ | apply adds_only_ret].
      destruct variant_struct_type0 as [ns | ].
      * apply Hstruct. reflexivity.
      * adds_step. stable_leaf HQ.
Qed.

Lemma param_unwrapped_def_adds (t : IdlType) (n : option IdlType) :
  (forall ov, In ov (arms_of t) ->
     forall nv, adds_only Q (rec_type ov nv field_pair icp)) ->
  (forall os ns, struct_component t os ->
     adds_only Q (rec_fields os ns (cmd_name field_pair)
                    (old_idl_file_path field_pair) (new_idl_file_path field_pair)
                    icp)) ->
  adds_only Q (check_param_or_command_type_unwrapped_def rec_type rec_fields t n
                 field_pair icp).
Proof.
  intros Harms Hstruct. unfold check_param_or_command_type_unwrapped_def.
  cbv zeta.
  destruct n as [n | ].
  - destruct t; try (apply param_recursive_def_adds; assumption).
    + repeat adds_step; stable_leaf HQ.
    + destruct n; try (adds_step; stable_leaf HQ).
      apply Hstruct. reflexivity.
  - repeat adds_step. stable_leaf HQ.
Qed.

Lemma param_type_def_adds (t : IdlType) (n : option IdlType) :
  (forall t', t' = t \/ (exists a, t = ArrayType a t') ->
     forall n', adds_only Q (check_param_or_command_type_unwrapped_def rec_type
                               rec_fields t' n' field_pair icp)) ->
  adds_only Q (check_param_or_command_type_def rec_type rec_fields t n
                 field_pair icp).
Proof.
  intros H. unfold check_param_or_command_type_def.
  apply adds_only_bind.
  - apply check_array_type_adds. intros e He Hu. apply HQ. congruence.
  - intros [ | | ].
    + apply adds_only_ret.
    + destruct t; try apply adds_only_raise.
      destruct n as [[] | ]; try apply adds_only_raise.
      apply H. right. eexists. reflexivity.
    + apply H. left. reflexivity.
Qed.
End ParamTypeLevel.

Lemma param_newly_added_adds old_struct new_struct cmd op np icp :
  adds_only any_error
    (check_command_params_or_type_struct_fields_newly_added old_struct new_struct
       cmd op np icp).
Proof.
  unfold check_command_params_or_type_struct_fields_newly_added.
  apply adds_only_for_each. intros nf _. cbv zeta.
  repeat adds_step; any_leaf.
Qed.

Lemma param_unresolved_adds n p icp :
  adds_only any_error (check_param_or_command_type_unresolved n p icp).
Proof.
  unfold check_param_or_command_type_unresolved.
  apply adds_only_bind.
  - apply check_array_type_adds. intros; exact I.
  - intros [ | | ]; repeat adds_step; any_leaf.
Qed.

Lemma param_validator_adds old_field new_field cmd np tn icp :
  adds_only any_error
    (check_param_or_type_validator old_field new_field cmd np tn icp).
Proof. unfold check_param_or_type_validator. repeat adds_step; any_leaf. Qed.

(** Every parameter-side function only appends to the recorded errors. *)
Lemma param_checks_append :
  (forall t,
      (forall n p icp, adds_only any_error
                     (check_param_or_command_type_unwrapped_def
                        check_param_or_command_type_resolved
                        check_command_params_or_type_struct_fields t n p icp))
      /\ (forall n p icp,
             adds_only any_error (check_param_or_command_type_resolved t n p icp)))
  /\ (forall s ns cmd op np icp,
         adds_only any_error
           (check_command_params_or_type_struct_fields s ns cmd op np icp))
  /\ (forall f nf cmd op np tn icp,
         adds_only any_error
           (check_command_param_or_type_struct_field f nf cmd op np tn icp)).
Proof.
  assert (HQ : forall (p : FieldCompatibilityPair) (e : CompatError),
             (old_unstable p = true -> param_unstable_kind (kind e) = true) ->
             any_error e) by (intros; exact I).
  assert (Hres : forall t,
    (forall n p icp, adds_only any_error
                   (check_param_or_command_type_unwrapped_def
                      check_param_or_command_type_resolved
                      check_command_params_or_type_struct_fields t n p icp)) ->
    (forall a e, t = ArrayType a e ->
       forall n p icp, adds_only any_error
                     (check_param_or_command_type_unwrapped_def
                        check_param_or_command_type_resolved
                        check_command_params_or_type_struct_fields e n p icp)) ->
    forall n p icp,
      adds_only any_error (check_param_or_command_type_resolved t n p icp)).
  { intros t Ht He n p icp. rewrite check_param_or_command_type_resolved_eq.
    apply param_type_def_adds; [apply HQ | ].
    intros t' [-> | (a & ->)] n'; [apply Ht | eapply He; reflexivity]. }
  apply IdlType_mutind.
  - intros a.
    assert (U : forall n p icp, adds_only any_error
                (check_param_or_command_type_unwrapped_def
                   check_param_or_command_type_resolved
                   check_command_params_or_type_struct_fields (Type_ a) n p icp)).
    { intros n p icp. apply param_unwrapped_def_adds; [apply HQ | | ]; simpl;
        intros; contradiction. }
    split; [exact U | ]. apply Hres; [exact U | discriminate].
  - intros a e [IHu IHr].
    assert (U : forall n p icp, adds_only any_error
                (check_param_or_command_type_unwrapped_def
                   check_param_or_command_type_resolved
                   check_command_params_or_type_struct_fields
                   (ArrayType a e) n p icp)).
    { intros n p icp. apply param_unwrapped_def_adds; [apply HQ | | ]; simpl;
        intros; contradiction. }
    split; [exact U | ]. apply Hres; [exact U | ].
    intros a' e' E. injection E as _ <-. exact IHu.
  - intros a l IHl s IHs.
    assert (U : forall n p icp, adds_only any_error
                (check_param_or_command_type_unwrapped_def
                   check_param_or_command_type_resolved
                   check_command_params_or_type_struct_fields
                   (VariantType a l s) n p icp)).
    { intros n p icp. apply param_unwrapped_def_adds; [apply HQ | | ]; simpl.
      - intros ov Hov nv. apply (list_all_In _ _ IHl ov Hov).
      - intros os ns Hs. destruct s as [s | ]; [ | contradiction]. subst.
        apply (option_all_Some _ _ _ IHs eq_refl). }
    split; [exact U | ]. apply Hres; [exact U | discriminate].
  - intros en vs.
    assert (U : forall n p icp, adds_only any_error
                (check_param_or_command_type_unwrapped_def
                   check_param_or_command_type_resolved
                   check_command_params_or_type_struct_fields
                   (Enum en vs) n p icp)).
    { intros n p icp. apply param_unwrapped_def_adds; [apply HQ | | ]; simpl;
        intros; contradiction. }
    split; [exact U | ]. apply Hres; [exact U | discriminate].
  - intros s IHs.
    assert (U : forall n p icp, adds_only any_error
                (check_param_or_command_type_unwrapped_def
                   check_param_or_command_type_resolved
                   check_command_params_or_type_struct_fields
                   (StructType s) n p icp)).
    { intros n p icp. apply param_unwrapped_def_adds; [apply HQ | | ]; simpl.
      - intros; contradiction.
      - intros os ns ->. apply IHs. }
    split; [exact U | ]. apply Hres; [exact U | discriminate].
  - intros sn fs IHfs ns cmd op np icp.
    rewrite check_command_params_or_type_struct_fields_eq.
    unfold check_command_params_or_type_struct_fields_def. apply adds_only_bind.
    + apply adds_only_for_each. intros f Hf. simpl in Hf.
      apply adds_only_for_first.
      * intros nf _ _. apply (list_all_In _ _ IHfs f Hf).
      * repeat adds_step. any_leaf.
    + intros _. apply param_newly_added_adds.
  - intros fn ty IHty o u d v nf cmd op np tn icp.
    rewrite check_command_param_or_type_struct_field_eq.
    unfold check_command_param_or_type_struct_field_def. cbv zeta.
    repeat (apply adds_only_bind;
            [ first [ apply adds_only_when; intros _;
                      first [any_leaf | apply param_validator_adds] ]
            | intros _ ]).
    simpl get_field_type at 1.
    destruct ty as [t | ].
    + apply (option_all_Some _ _ _ IHty eq_refl).
    + apply param_unresolved_adds.
Qed.

(** ** C4: optionality *)

Lemma keeps_bind {A B} (m : M A) (k : A -> M B) (e : CompatError) (c : Ctxt) :
  In e (errors (ctxt_of (m c))) ->
  (forall a, adds_only any_error (k a)) ->
  In e (errors (ctxt_of (bind m k c))).
Proof.
  intros Hin Hk. unfold bind.
  destruct (m c) as [a c' | code c' | ex c']; simpl in *; try exact Hin.
  apply (adds_only_keeps any_error); [apply Hk | exact Hin].
Qed.

Lemma reach_bind {A B} (m : M A) (k : A -> M B) (e : CompatError) (c c' : Ctxt)
  (a : A) :
  m c = Ok a c' ->
  In e (errors (ctxt_of (k a c'))) ->
  In e (errors (ctxt_of (bind m k c))).
Proof. intros Hm Hin. unfold bind. rewrite Hm. exact Hin. Qed.

Lemma when_add_error_ok (b : bool) k cmd args file icp (c : Ctxt) :
  exists c', when b (add_error k cmd args file icp) c = Ok tt c'.
Proof. destruct b; eexists; reflexivity. Qed.

(** C4, as stated, fails for reply fields: an optional reply field that
    becomes required, with nothing else changed, records no error. *)
Lemma reply_field_made_required_is_accepted :
  check_reply_field optional_string_field required_string_field
    "cmd" "old.idl" "new.idl" empty_ctxt = Ok tt empty_ctxt
  /\ check_reply_fields (mkStruct "reply" [optional_string_field])
       (mkStruct "reply" [required_string_field])
       "cmd" "old.idl" "new.idl" empty_ctxt = Ok tt empty_ctxt
  /\ field_name optional_string_field = field_name required_string_field
  /\ optional optional_string_field = true
  /\ optional required_string_field = false.
Proof. repeat split; reflexivity. Qed.

(** C4 (amended): for an old field matched with a new field, the parameter /
    command-type side records the field-required error when the old field is
    optional and the new one is not; the reply side records its optionality
    error for the opposite change of a stable field, from required to
    optional. *)
Theorem optional_transition_errors (old_field new_field : Field)
  (cmd old_path new_path type_name : string) (is_command_parameter : bool)
  (c : Ctxt) :
  (optional old_field = true -> optional new_field = false ->
   In (param_field_required_error old_field cmd old_path type_name
         is_command_parameter)
      (errors (ctxt_of (check_command_param_or_type_struct_field old_field
                          new_field cmd old_path new_path type_name
                          is_command_parameter c))))
  /\ (unstable old_field = false -> optional old_field = false ->
      optional new_field = true ->
      In (reply_field_optional_error new_field cmd new_path)
         (errors (ctxt_of (check_reply_field old_field new_field cmd old_path
                             new_path c)))).
Proof.
  split.
  - intros Ho Hn. rewrite check_command_param_or_type_struct_field_eq.
    unfold check_command_param_or_type_struct_field_def. cbv zeta.
    match goal with
    | |- context [bind (when ?b (add_error ?k ?cm ?ar ?fi ?ic)) _ c] =>
        destruct (when_add_error_ok b k cm ar fi ic c) as [c1 E1]
    end.
    eapply reach_bind; [exact E1 | ].
    match goal with
    | |- context [bind (when ?b (add_error ?k ?cm ?ar ?fi ?ic)) _ c1] =>
        destruct (when_add_error_ok b k cm ar fi ic c1) as [c2 E2]
    end.
    eapply reach_bind; [exact E2 | ].
    apply keeps_bind.
    + rewrite Ho, Hn. simpl. apply in_or_app. right. left. reflexivity.
    + intros _. apply adds_only_bind.
      * apply adds_only_when. intros _. apply param_validator_adds.
      * intros _. destruct (get_field_type old_field).
        -- apply param_checks_append.
        -- apply param_unresolved_adds.
  - intros Hu Ho Hn. rewrite check_reply_field_eq.
    unfold check_reply_field_def. cbv zeta.
    apply keeps_bind.
    + rewrite Hu. simpl.
      match goal with
      | |- context [bind (when ?b (add_error ?k ?cm ?ar ?fi ?ic)) _ c] =>
          destruct (when_add_error_ok b k cm ar fi ic c) as [c1 E1]
      end.
      eapply reach_bind; [exact E1 | ].
      apply keeps_bind.
      * rewrite Ho, Hn. simpl. apply in_or_app. right. left. reflexivity.
      * intros _. repeat adds_step; any_leaf.
    + intros _. destruct (get_field_type old_field).
      * apply reply_checks_append.
      * apply reply_unresolved_adds.
Qed.

Lemma optional_transition_errors_witness :
  In (param_field_required_error optional_string_field "cmd" "old.idl" "cmd" true)
     (errors (ctxt_of (check_command_param_or_type_struct_field
                         optional_string_field required_string_field
                         "cmd" "old.idl" "new.idl" "cmd" true empty_ctxt)))
  /\ In (reply_field_optional_error optional_string_field "cmd" "new.idl")
        (errors (ctxt_of (check_reply_field required_string_field
                            optional_string_field "cmd" "old.idl" "new.idl"
                            empty_ctxt))).
Proof.
  split.
  - exact (proj1 (optional_transition_errors optional_string_field
                    required_string_field "cmd" "old.idl" "new.idl" "cmd" true
                    empty_ctxt) eq_refl eq_refl).
  - exact (proj2 (optional_transition_errors required_string_field
                    optional_string_field "cmd" "old.idl" "new.idl" "cmd" true
                    empty_ctxt) eq_refl eq_refl eq_refl).
Defined.

(** ** C3: newly added fields *)

Ltac ctxt_eq :=
  unfold add_error, ret, record, extend; simpl;
  rewrite <- ?app_assoc; simpl; rewrite ?app_nil_r;
  first [ reflexivity
        | match goal with
          | |- Ok tt ?c = Ok tt _ => is_var c; destruct c; reflexivity
          | |- Ok tt _ = Ok tt ?c => is_var c; destruct c; reflexivity
          end ].

Lemma extend_nil (c : Ctxt) : extend c [] = c.
Proof. destruct c. unfold extend. simpl. rewrite app_nil_r. reflexivity. Qed.

Lemma extend_extend (c : Ctxt) (a b : list CompatError) :
  extend (extend c a) b = extend c (a ++ b).
Proof. unfold extend. simpl. rewrite app_assoc. reflexivity. Qed.

Lemma for_each_extend {A} (body : A -> M unit) (g : A -> list CompatError)
  (l : list A) :
  (forall x c, In x l -> body x c = Ok tt (extend c (g x))) ->
  forall c, for_each body l c = Ok tt (extend c (flat_map g l)).
Proof.
  induction l as [ | x l IH]; intros H c; simpl.
  - rewrite extend_nil. reflexivity.
  - unfold bind. rewrite (H x c) by (left; reflexivity).
    rewrite IH by (intros y c' Hy; apply H; right; exact Hy).
    rewrite extend_extend. reflexivity.
Qed.


(** Both reconciliation functions are their loop over the old fields
    followed by their loop over newly added fields. *)
Lemma check_reply_fields_loops (old_reply new_reply : Struct)
  (cmd old_path new_path : string) (c : Ctxt) :
  check_reply_fields old_reply new_reply cmd old_path new_path c
  = bind
      (for_each (fun old_field =>
         for_first
           (fun new_field =>
              check_reply_field old_field new_field cmd old_path new_path)
           (fun new_field =>
              String.eqb (field_name new_field) (field_name old_field))
           (when (negb (unstable old_field))
              (add_error new_reply_field_missing_error cmd
                 [field_name old_field] old_path None))
           (fields new_reply))
         (fields old_reply))
      (fun _ => check_reply_fields_newly_added old_reply new_reply cmd new_path)
      c.
Proof. rewrite check_reply_fields_eq. reflexivity. Qed.

Lemma check_command_params_or_type_struct_fields_loops
  (old_struct new_struct : Struct) (cmd old_path new_path : string)
  (is_command_parameter : bool) (c : Ctxt) :
  check_command_params_or_type_struct_fields old_struct new_struct cmd old_path
    new_path is_command_parameter c
  = bind
      (for_each (fun old_field =>
         for_first
           (fun new_field =>
              check_command_param_or_type_struct_field old_field new_field cmd
                old_path new_path (struct_name old_struct) is_command_parameter)
           (fun new_field =>
              String.eqb (field_name new_field) (field_name old_field))
           (when (negb (unstable old_field))
              (add_error new_param_or_command_type_field_missing_error cmd
                 [field_name old_field; struct_name old_struct] old_path
                 (Some is_command_parameter)))
           (fields new_struct))
         (fields old_struct))
      (fun _ =>
         check_command_params_or_type_struct_fields_newly_added old_struct
           new_struct cmd old_path new_path is_command_parameter)
      c.
Proof. rewrite check_command_params_or_type_struct_fields_eq. reflexivity. Qed.


Lemma bind_ret_tt (m : M unit) (c : Ctxt) : bind m (fun _ => ret tt) c = m c.
Proof. unfold bind, ret. destruct (m c) as [[] c' | | ]; reflexivity. Qed.

Lemma for_each_ext {A} (f g : A -> M unit) (l : list A) (c : Ctxt) :
  (forall x c', In x l -> f x c' = g x c') -> for_each f l c = for_each g l c.
Proof.
  revert c. induction l as [ | x l IH]; intros c H; simpl; [reflexivity | ].
  unfold bind. rewrite (H x c) by (left; reflexivity).
  destruct (g x c) as [u c' | | ]; try reflexivity.
  apply IH. intros y c'' Hy. apply H. right. exact Hy.
Qed.

Lemma flat_map_nil_fun {A B} (l : list A) :
  flat_map (fun _ => @nil B) l = [].
Proof. induction l as [ | x l IH]; simpl; [reflexivity | exact IH]. Qed.








(** ** C7: complex access checks *)

Lemma privilege_matches_covers (new_privilege old_privilege : Privilege) :
  privilege_matches new_privilege old_privilege = true
  <-> covers old_privilege new_privilege.
Proof.
  unfold privilege_matches, covers.
  rewrite andb_true_iff, String.eqb_eq, (issubset_incl _ String.eqb_eq).
  reflexivity.
Qed.

Lemma privilege_matches_not_covers (new_privilege old_privilege : Privilege) :
  privilege_matches new_privilege old_privilege = false
  <-> ~ covers old_privilege new_privilege.
Proof.
  rewrite <- privilege_matches_covers.
  destruct (privilege_matches new_privilege old_privilege); split; intros;
    congruence.
Qed.

Lemma remove_first_match_Some (new_privilege : Privilege)
  (olds olds' : list Privilege) :
  remove_first_match new_privilege olds = Some olds' ->
  exists before o after,
    olds = before ++ o :: after /\ olds' = before ++ after /\
    Forall (fun o' => ~ covers o' new_privilege) before /\
    covers o new_privilege.
Proof.
  revert olds'. induction olds as [ | o olds IH]; intros olds' H; simpl in H.
  - discriminate H.
  - destruct (privilege_matches new_privilege o) eqn:E.
    + injection H as <-. exists [], o, olds. repeat split.
      * constructor.
      * apply privilege_matches_covers in E. apply E.
      * apply privilege_matches_covers in E. apply E.
    + destruct (remove_first_match new_privilege olds) as [r | ] eqn:R;
        [ | discriminate H].
      injection H as <-.
      destruct (IH r eq_refl) as (before & o' & after & -> & -> & F & C).
      exists (o :: before), o', after. repeat split; try apply C.
      constructor; [ | exact F].
      apply privilege_matches_not_covers. exact E.
Qed.

Lemma remove_first_match_None (new_privilege : Privilege)
  (olds : list Privilege) :
  remove_first_match new_privilege olds = None ->
  Forall (fun o => ~ covers o new_privilege) olds.
Proof.
  induction olds as [ | o olds IH]; intros H; simpl in H.
  - constructor.
  - destruct (privilege_matches new_privilege o) eqn:E; [discriminate H | ].
    destruct (remove_first_match new_privilege olds); [discriminate H | ].
    constructor; [ | apply IH; reflexivity].
    apply privilege_matches_not_covers. exact E.
Qed.

Lemma match_privileges_greedy (news olds : list Privilege) (cmd np : string)
  (c : Ctxt) :
  exists k,
    greedy_match news olds k /\
    match_privileges news olds cmd np c
    = Ok tt (extend c (repeat (mkError new_complex_privileges_not_subset_error
                                 cmd [] np None) k)).
Proof.
  revert olds c. induction news as [ | n news IH]; intros olds c; simpl.
  - exists 0. split; [constructor | ]. simpl. rewrite extend_nil. reflexivity.
  - destruct (remove_first_match n olds) as [olds' | ] eqn:R.
    + apply remove_first_match_Some in R.
      destruct R as (before & o & after & -> & -> & F & C).
      destruct (IH (before ++ after) c) as (k & G & E).
      exists k. split; [ | exact E].
      apply greedy_take; assumption.
    + apply remove_first_match_None in R.
      destruct (IH olds (record (mkError new_complex_privileges_not_subset_error
                                   cmd [] np None) c)) as (k & G & E).
      exists (S k). split; [apply greedy_skip; assumption | ].
      unfold bind. simpl. rewrite E.
      unfold record, extend. simpl. rewrite <- app_assoc. reflexivity.
Qed.

(** The outcome for two complex access checks in terms of the two lists
    returned by [split_complex_checks]. *)
Lemma complex_checks_outcome (old_complex new_complex : list AccessCheck)
  (cmd : Command) (new_path : string) (c : Ctxt) :
  let r := check_security_access_checks (Some (AccessComplex old_complex))
             (Some (AccessComplex new_complex)) cmd new_path c in
  let old_checks := fst (split_complex_checks old_complex) in
  let old_privileges := snd (split_complex_checks old_complex) in
  let new_checks := fst (split_complex_checks new_complex) in
  let new_privileges := snd (split_complex_checks new_complex) in
  (List.length old_complex < List.length new_complex ->
   r = Ok tt (record (complex_error new_additional_complex_access_check_error
                        cmd new_path) c))
  /\ (List.length new_complex <= List.length old_complex ->
      exists for_checks for_privileges,
        r = Ok tt (extend c (for_checks ++ for_privileges))
        /\ (incl new_checks old_checks -> for_checks = [])
        /\ (~ incl new_checks old_checks ->
            for_checks = [complex_error new_complex_checks_not_subset_error
                            cmd new_path])
        /\ (List.length old_privileges < List.length new_privileges ->
            for_privileges
            = [complex_error new_complex_privileges_not_subset_error
                 cmd new_path])
        /\ (List.length new_privileges <= List.length old_privileges ->
            exists k,
              greedy_match new_privileges old_privileges k /\
              for_privileges
              = repeat (complex_error new_complex_privileges_not_subset_error
                          cmd new_path) k)).
Proof.
  cbv zeta. unfold check_security_access_checks, split_complex_checks. simpl.
  unfold bind at 1. simpl.
  set (old_checks := somes (map check old_complex)).
  set (new_checks := somes (map check new_complex)).
  set (old_privileges := sorted_by_len_desc (somes (map privilege old_complex))).
  set (new_privileges := sorted_by_len_desc (somes (map privilege new_complex))).
  split.
  - intros Hlen. apply Nat.ltb_lt in Hlen. rewrite Hlen. reflexivity.
  - intros Hlen. apply Nat.ltb_ge in Hlen. rewrite Hlen.
    destruct (match_privileges_greedy new_privileges old_privileges
                (command_name cmd) new_path
                (if issubset String.eqb new_checks old_checks then c
                 else record (complex_error new_complex_checks_not_subset_error
                                cmd new_path) c))
      as (k & G & E).
    exists (if issubset String.eqb new_checks old_checks then []
            else [complex_error new_complex_checks_not_subset_error cmd new_path]).
    exists (if Nat.ltb (List.length old_privileges) (List.length new_privileges)
            then [complex_error new_complex_privileges_not_subset_error
                    cmd new_path]
            else repeat (complex_error new_complex_privileges_not_subset_error
                           cmd new_path) k).
    split; [ | split; [ | split; [ | split]]].
    + unfold bind.
      destruct (issubset String.eqb new_checks old_checks); simpl;
        (destruct (Nat.ltb (List.length old_privileges) (List.length new_privileges));
         [unfold complex_error; ctxt_eq
         | unfold complex_error in *; unfold add_error; simpl; rewrite E;
           ctxt_eq]).

    + intros H. apply (issubset_incl _ String.eqb_eq) in H. rewrite H.
      reflexivity.
    + intros H. apply (issubset_not_incl _ String.eqb_eq) in H. rewrite H.
      reflexivity.
    + intros H. apply Nat.ltb_lt in H. rewrite H. reflexivity.
    + intros H. apply Nat.ltb_ge in H. rewrite H. exists k. split;
        [exact G | reflexivity].
Qed.

Lemma insert_by_len_perm (x : Privilege) (l : list Privilege) :
  Permutation (insert_by_len x l) (x :: l).
Proof.
  induction l as [ | y l IH]; simpl.
  - apply Permutation_refl.
  - destruct (Nat.ltb (len_action_type x) (len_action_type y)).
    + eapply Permutation_trans; [apply perm_skip; exact IH | apply perm_swap].
    + apply Permutation_refl.
Qed.

Lemma sorted_by_len_desc_perm (l : list Privilege) :
  Permutation (sorted_by_len_desc l) l.
Proof.
  induction l as [ | x l IH]; simpl.
  - apply Permutation_refl.
  - eapply Permutation_trans; [apply insert_by_len_perm | ].
    apply perm_skip. exact IH.
Qed.

Lemma insert_by_len_sorted (x : Privilege) (l : list Privilege) :
  StronglySorted (fun a b => len_action_type b <= len_action_type a) l ->
  StronglySorted (fun a b => len_action_type b <= len_action_type a)
    (insert_by_len x l).
Proof.
  induction 1 as [ | y l Hs IH Hy]; simpl.
  - constructor; constructor.
  - destruct (Nat.ltb (len_action_type x) (len_action_type y)) eqn:E.
    + apply Nat.ltb_lt in E. constructor; [exact IH | ].
      apply Forall_forall. intros z Hz.
      apply (Permutation_in _ (insert_by_len_perm x l)) in Hz.
      destruct Hz as [<- | Hz]; [lia | ].
      rewrite Forall_forall in Hy. apply Hy. exact Hz.
    + apply Nat.ltb_ge in E. constructor.
      * constructor; assumption.
      * constructor; [exact E | ].
        rewrite Forall_forall in Hy |- *. intros z Hz.
        specialize (Hy z Hz). lia.
Qed.

Lemma insert_by_len_filter (n : nat) (x : Privilege) (l : list Privilege) :
  filter (fun p => Nat.eqb (len_action_type p) n) (insert_by_len x l)
  = filter (fun p => Nat.eqb (len_action_type p) n) (x :: l).
Proof.
  induction l as [ | y l IH]; simpl.
  - reflexivity.
  - destruct (Nat.ltb (len_action_type x) (len_action_type y)) eqn:E.
    + apply Nat.ltb_lt in E. simpl. rewrite IH. simpl.
      destruct (Nat.eqb (len_action_type x) n) eqn:Ex;
        destruct (Nat.eqb (len_action_type y) n) eqn:Ey; try reflexivity.
      apply Nat.eqb_eq in Ex. apply Nat.eqb_eq in Ey. lia.
    + reflexivity.
Qed.

Lemma somes_length {A} (l : list (option A)) : List.length (somes l) <= List.length l.
Proof.
  induction l as [ | [x | ] l IH]; simpl; lia.
Qed.

Lemma somes_kept {A} (l : list (option A)) : kept_of l (somes l).
Proof.
  unfold kept_of. induction l as [ | [x | ] l IH]; simpl; congruence.
Qed.

Lemma In_somes_map {A B} (f : A -> option B) (l : list A) (x : B) :
  In x (somes (map f l)) <-> exists e, In e l /\ f e = Some x.
Proof.
  induction l as [ | a l IH]; simpl.
  - split; [intros [] | intros (e & [] & _)].
  - destruct (f a) as [y | ] eqn:E; simpl; rewrite IH; split.
    + intros [<- | (e & He & Hf)]; [exists a; auto | exists e; auto].
    + intros (e & [<- | He] & Hf); [left; congruence | right; exists e; auto].
    + intros (e & He & Hf). exists e; auto.
    + intros (e & [<- | He] & Hf); [congruence | exists e; auto].
Qed.

Lemma check_strings_incl (new_complex old_complex : list AccessCheck) :
  incl (somes (map check new_complex)) (somes (map check old_complex))
  <-> check_strings_included new_complex old_complex.
Proof.
  unfold incl, check_strings_included. split.
  - intros H e s He Hs. apply In_somes_map. apply H. apply In_somes_map.
    exists e. split; assumption.
  - intros H s Hs. apply In_somes_map in Hs. destruct Hs as (e & He & Hc).
    apply In_somes_map. exact (H e s He Hc).
Qed.

Lemma split_sorted_privileges (entries : list AccessCheck) :
  sorted_privileges_of entries (snd (split_complex_checks entries)).
Proof.
  unfold split_complex_checks. cbn [snd].
  exists (somes (map privilege entries)). split; [apply somes_kept | ].
  generalize (somes (map privilege entries)). intros ps.
  split; [apply sorted_by_len_desc_perm | ]. split.
  - induction ps as [ | x ps IH]; simpl; [constructor | ].
    apply insert_by_len_sorted. exact IH.
  - intros n. induction ps as [ | x ps IH]; simpl; [reflexivity | ].
    rewrite insert_by_len_filter. simpl. rewrite IH. reflexivity.
Qed.

(** C7: for two complex access checks, more new entries than old ones
    records the additional-check error and nothing else.  Otherwise the
    checker records the checks-not-subset error exactly when some check
    string of a new entry is the check string of no old entry, followed by
    the privileges-not-subset error once when the new entries carry more
    privileges than the old ones, or else once for every new privilege left
    unmatched by the greedy one-to-one matching of the new privileges against
    the old ones, both taken in non-increasing order of their number of
    action types. *)
Theorem complex_access_checks (old_complex new_complex : list AccessCheck)
  (cmd : Command) (new_path : string) (c : Ctxt) :
  let r := check_security_access_checks (Some (AccessComplex old_complex))
             (Some (AccessComplex new_complex)) cmd new_path c in
  (List.length old_complex < List.length new_complex ->
   r = Ok tt (record (complex_error new_additional_complex_access_check_error
                        cmd new_path) c))
  /\ (List.length new_complex <= List.length old_complex ->
      exists old_privileges new_privileges for_checks for_privileges,
        sorted_privileges_of old_complex old_privileges
        /\ sorted_privileges_of new_complex new_privileges
        /\ r = Ok tt (extend c (for_checks ++ for_privileges))
        /\ (check_strings_included new_complex old_complex -> for_checks = [])
        /\ (~ check_strings_included new_complex old_complex ->
            for_checks = [complex_error new_complex_checks_not_subset_error
                            cmd new_path])
        /\ (List.length old_privileges < List.length new_privileges ->
            for_privileges
            = [complex_error new_complex_privileges_not_subset_error
                 cmd new_path])
        /\ (List.length new_privileges <= List.length old_privileges ->
            exists k,
              greedy_match new_privileges old_privileges k /\
              for_privileges
              = repeat (complex_error new_complex_privileges_not_subset_error
                          cmd new_path) k)).
Proof.
  cbv zeta.
  destruct (complex_checks_outcome old_complex new_complex cmd new_path c)
    as [Hmore Hrest].
  split; [exact Hmore | ].
  intros Hlen.
  destruct (Hrest Hlen) as (for_checks & for_privileges & E & H1 & H2 & H3 & H4).
  exists (snd (split_complex_checks old_complex)),
    (snd (split_complex_checks new_complex)), for_checks, for_privileges.
  split; [apply split_sorted_privileges | ].
  split; [apply split_sorted_privileges | ].
  split; [exact E | ].
  split; [intros H; apply H1; apply check_strings_incl; exact H | ].
  split; [intros H; apply H2; intros Hi; apply H;
          apply check_strings_incl; exact Hi | ].
  split; assumption.
Qed.

Lemma sorted_privileges_length (entries : list AccessCheck)
  (privileges : list Privilege) :
  sorted_privileges_of entries privileges ->
  List.length privileges
  = List.length (filter present (map privilege entries)).
Proof.
  intros (ps & K & P & _). rewrite (Permutation_length P).
  unfold kept_of in K. rewrite <- K, length_map. reflexivity.
Qed.

Lemma complex_access_checks_witness :
  exists old_privileges new_privileges for_privileges k,
    sorted_privileges_of old_complex_sample old_privileges
    /\ sorted_privileges_of new_complex_sample new_privileges
    /\ check_security_access_checks (Some (AccessComplex old_complex_sample))
         (Some (AccessComplex new_complex_sample)) plain_cmd "new.idl"
         empty_ctxt
       = Ok tt (extend empty_ctxt
                  ([complex_error new_complex_checks_not_subset_error plain_cmd
                      "new.idl"] ++ for_privileges))
    /\ greedy_match new_privileges old_privileges k
    /\ for_privileges
       = repeat (complex_error new_complex_privileges_not_subset_error
                   plain_cmd "new.idl") k.
Proof.
  destruct (proj2 (complex_access_checks old_complex_sample new_complex_sample
                     plain_cmd "new.idl" empty_ctxt) (le_n 2))
    as (olds & news & fc & fp & So & Sn & E & _ & Hc & _ & Hp).
  assert (Ec : fc = [complex_error new_complex_checks_not_subset_error
                       plain_cmd "new.idl"]).
  { apply Hc. intros H.
    destruct (H (mkAccessCheck (Some "is_admin") None) "is_admin"
                (or_introl eq_refl) eq_refl) as (e' & [<- | [<- | []]] & He');
      discriminate He'. }
  destruct Hp as (k & G & Ep).
  { rewrite (sorted_privileges_length _ _ So),
      (sorted_privileges_length _ _ Sn). apply le_n. }
  exists olds, news, fp, k. rewrite <- Ec.
  split; [exact So | ]. split; [exact Sn | ]. split; [exact E | ].
  split; assumption.
Defined.


(** ** C2: unstable old fields *)

(** C2, as stated, fails: for an unstable old field whose ["any"] type is on
    the allowlist, a changed [cpp_type] is recorded, and this error is
    neither an any-type introduction or removal nor the allowlist error. *)
Lemma unstable_any_cpp_type_change_recorded :
  check_param_or_command_type (Some (any_with_cpp_type "A"))
    (Some (any_with_cpp_type "B")) unstable_filter_pair true empty_ctxt
  = Ok tt (record (mkError command_or_param_cpp_type_not_equal_error "find"
                     ["any_t"; "filter"] "new.idl" (Some true)) empty_ctxt)
  /\ old_unstable unstable_filter_pair = true
  /\ command_or_param_cpp_type_not_equal_error
       <> old_command_or_param_type_bson_any_error
  /\ command_or_param_cpp_type_not_equal_error
       <> new_command_or_param_type_bson_any_error
  /\ command_or_param_cpp_type_not_equal_error
       <> command_or_param_type_bson_any_not_allowed_error.
Proof. repeat split; try reflexivity; discriminate. Qed.

Lemma adds_only_recorded_by (m : M unit) :
  adds_only any_error m -> adds_only (recorded_by m) m.
Proof.
  intros H c. destruct (H c) as (added & E & _).
  exists added. split; [exact E | ].
  apply Forall_forall. intros e He. exists c, added. split; assumption.
Qed.

Lemma reply_unstable_type_level (t : IdlType) :
  forall p, old_unstable p = true ->
    (forall n, adds_only (reply_own_or_nested t p)
                 (check_reply_field_type_unwrapped_def
                    check_reply_field_type_resolved check_reply_fields t n p))
    /\ (forall n, adds_only (reply_own_or_nested t p)
                    (check_reply_field_type_resolved t n p)).
Proof.
  assert (HQ : forall t p e,
             (old_unstable p = true -> reply_unstable_kind (kind e) = true) ->
             old_unstable p = true -> reply_own_or_nested t p e).
  { intros t0 p e H Hu. left. apply H. exact Hu. }
  assert (Hstruct : forall t p os ns, sub_struct t os ->
             adds_only (reply_own_or_nested t p)
               (check_reply_fields os ns (cmd_name p) (old_idl_file_path p)
                  (new_idl_file_path p))).
  { intros t0 p os ns Hsub.
    eapply adds_only_weaken; [ | apply adds_only_recorded_by;
                                 apply reply_checks_append].
    intros e He. right. exists os, ns. split; assumption. }
  assert (Hres : forall t p, old_unstable p = true ->
    (forall n, adds_only (reply_own_or_nested t p)
                 (check_reply_field_type_unwrapped_def
                    check_reply_field_type_resolved check_reply_fields t n p)) ->
    (forall a e, t = ArrayType a e ->
       forall n, adds_only (reply_own_or_nested t p)
                   (check_reply_field_type_unwrapped_def
                      check_reply_field_type_resolved check_reply_fields e n p)) ->
    forall n, adds_only (reply_own_or_nested t p)
                (check_reply_field_type_resolved t n p)).
  { intros t0 p Hu Ht He n. rewrite check_reply_field_type_resolved_eq.
    apply reply_type_def_adds.
    - intros e H. apply HQ; assumption.
    - intros t' [-> | (a & ->)] n'; [apply Ht | eapply He; reflexivity]. }
  induction t as [a | a e IHe | a l IHl s | en vs | s]; intros p Hu.
  - assert (U : forall n, adds_only (reply_own_or_nested (Type_ a) p)
                (check_reply_field_type_unwrapped_def
                   check_reply_field_type_resolved check_reply_fields
                   (Type_ a) n p)).
    { intros n. apply reply_unwrapped_def_adds; simpl.
      - intros e H. apply HQ; assumption.
      - intros; contradiction.
      - intros; contradiction. }
    split; [exact U | ]. apply Hres; [exact Hu | exact U | discriminate].
  - assert (U : forall n, adds_only (reply_own_or_nested (ArrayType a e) p)
                (check_reply_field_type_unwrapped_def
                   check_reply_field_type_resolved check_reply_fields
                   (ArrayType a e) n p)).
    { intros n. apply reply_unwrapped_def_adds; simpl.
      - intros e0 H. apply HQ; assumption.
      - intros; contradiction.
      - intros; contradiction. }
    split; [exact U | ]. apply Hres; [exact Hu | exact U | ].
    intros a' e' E n. injection E as _ <-.
    eapply adds_only_weaken; [ | apply (proj1 (IHe p Hu))].
    intros x [Hx | (os & ns & Hsub & Hrec)]; [left; exact Hx | right].
    exists os, ns. split; [apply sub_struct_element; exact Hsub | exact Hrec].
  - assert (U : forall n, adds_only (reply_own_or_nested (VariantType a l s) p)
                (check_reply_field_type_unwrapped_def
                   check_reply_field_type_resolved check_reply_fields
                   (VariantType a l s) n p)).
    { intros n. apply reply_unwrapped_def_adds; simpl.
      - intros e0 H. apply HQ; assumption.
      - intros ov Hov nv.
        eapply adds_only_weaken;
          [ | apply (proj2 (list_all_In _ _ IHl ov Hov p Hu))].
        intros x [Hx | (os & ns & Hsub & Hrec)]; [left; exact Hx | right].
        exists os, ns. split; [ | exact Hrec].
        eapply sub_struct_arm; eassumption.
      - intros os ns Hs. destruct s as [s | ]; [ | contradiction]. subst.
        apply Hstruct. apply sub_struct_struct_arm. }
    split; [exact U | ]. apply Hres; [exact Hu | exact U | discriminate].
  - assert (U : forall n, adds_only (reply_own_or_nested (Enum en vs) p)
                (check_reply_field_type_unwrapped_def
                   check_reply_field_type_resolved check_reply_fields
                   (Enum en vs) n p)).
    { intros n. apply reply_unwrapped_def_adds; simpl.
      - intros e0 H. apply HQ; assumption.
      - intros; contradiction.
      - intros; contradiction. }
    split; [exact U | ]. apply Hres; [exact Hu | exact U | discriminate].
  - assert (U : forall n, adds_only (reply_own_or_nested (StructType s) p)
                (check_reply_field_type_unwrapped_def
                   check_reply_field_type_resolved check_reply_fields
                   (StructType s) n p)).
    { intros n. apply reply_unwrapped_def_adds; simpl.
      - intros e0 H. apply HQ; assumption.
      - intros; contradiction.
      - intros os ns ->. apply Hstruct. apply sub_struct_here. }
    split; [exact U | ]. apply Hres; [exact Hu | exact U | discriminate].
Qed.

Lemma param_unstable_type_level (t : IdlType) :
  forall p icp, old_unstable p = true ->
    (forall n, adds_only (param_own_or_nested t p icp)
                 (check_param_or_command_type_unwrapped_def
                    check_param_or_command_type_resolved
                    check_command_params_or_type_struct_fields t n p icp))
    /\ (forall n, adds_only (param_own_or_nested t p icp)
                    (check_param_or_command_type_resolved t n p icp)).
Proof.
  assert (HQ : forall t p icp e,
             (old_unstable p = true -> param_unstable_kind (kind e) = true) ->
             old_unstable p = true -> param_own_or_nested t p icp e).
  { intros t0 p icp e H Hu. left. apply H. exact Hu. }
  assert (Hstruct : forall t p icp os ns, sub_struct t os ->
             adds_only (param_own_or_nested t p icp)
               (check_command_params_or_type_struct_fields os ns (cmd_name p)
                  (old_idl_file_path p) (new_idl_file_path p) icp)).
  { intros t0 p icp os ns Hsub.
    eapply adds_only_weaken; [ | apply adds_only_recorded_by;
                                 apply param_checks_append].
    intros e He. right. exists os, ns. split; assumption. }
  assert (Hres : forall t p icp, old_unstable p = true ->
    (forall n, adds_only (param_own_or_nested t p icp)
                 (check_param_or_command_type_unwrapped_def
                    check_param_or_command_type_resolved
                    check_command_params_or_type_struct_fields t n p icp)) ->
    (forall a e, t = ArrayType a e ->
       forall n, adds_only (param_own_or_nested t p icp)
                   (check_param_or_command_type_unwrapped_def
                      check_param_or_command_type_resolved
                      check_command_params_or_type_struct_fields e n p icp)) ->
    forall n, adds_only (param_own_or_nested t p icp)
                (check_param_or_command_type_resolved t n p icp)).
  { intros t0 p icp Hu Ht He n.
    rewrite check_param_or_command_type_resolved_eq.
    apply param_type_def_adds.
    - intros e H. apply HQ; assumption.
    - intros t' [-> | (a & ->)] n'; [apply Ht | eapply He; reflexivity]. }
  induction t as [a | a e IHe | a l IHl s | en vs | s]; intros p icp Hu.
  - assert (U : forall n, adds_only (param_own_or_nested (Type_ a) p icp)
                (check_param_or_command_type_unwrapped_def
                   check_param_or_command_type_resolved
                   check_command_params_or_type_struct_fields
                   (Type_ a) n p icp)).
    { intros n. apply param_unwrapped_def_adds; simpl.
      - intros e H. apply HQ; assumption.
      - intros; contradiction.
      - intros; contradiction. }
    split; [exact U | ]. apply Hres; [exact Hu | exact U | discriminate].
  - assert (U : forall n, adds_only (param_own_or_nested (ArrayType a e) p icp)
                (check_param_or_command_type_unwrapped_def
                   check_param_or_command_type_resolved
                   check_command_params_or_type_struct_fields
                   (ArrayType a e) n p icp)).
    { intros n. apply param_unwrapped_def_adds; simpl.
      - intros e0 H. apply HQ; assumption.
      - intros; contradiction.
      - intros; contradiction. }
    split; [exact U | ]. apply Hres; [exact Hu | exact U | ].
    intros a' e' E n. injection E as _ <-.
    eapply adds_only_weaken; [ | apply (proj1 (IHe p icp Hu))].
    intros x [Hx | (os & ns & Hsub & Hrec)]; [left; exact Hx | right].
    exists os, ns. split; [apply sub_struct_element; exact Hsub | exact Hrec].
  - assert (U : forall n,
                adds_only (param_own_or_nested (VariantType a l s) p icp)
                (check_param_or_command_type_unwrapped_def
                   check_param_or_command_type_resolved
                   check_command_params_or_type_struct_fields
                   (VariantType a l s) n p icp)).
    { intros n. apply param_unwrapped_def_adds; simpl.
      - intros e0 H. apply HQ; assumption.
      - intros ov Hov nv.
        eapply adds_only_weaken;
          [ | apply (proj2 (list_all_In _ _ IHl ov Hov p icp Hu))].
        intros x [Hx | (os & ns & Hsub & Hrec)]; [left; exact Hx | right].
        exists os, ns. split; [ | exact Hrec].
        eapply sub_struct_arm; eassumption.
      - intros os ns Hs. destruct s as [s | ]; [ | contradiction]. subst.
        apply Hstruct. apply sub_struct_struct_arm. }
    split; [exact U | ]. apply Hres; [exact Hu | exact U | discriminate].
  - assert (U : forall n, adds_only (param_own_or_nested (Enum en vs) p icp)
                (check_param_or_command_type_unwrapped_def
                   check_param_or_command_type_resolved
                   check_command_params_or_type_struct_fields
                   (Enum en vs) n p icp)).
    { intros n. apply param_unwrapped_def_adds; simpl.
      - intros e0 H. apply HQ; assumption.
      - intros; contradiction.
      - intros; contradiction. }
    split; [exact U | ]. apply Hres; [exact Hu | exact U | discriminate].
  - assert (U : forall n, adds_only (param_own_or_nested (StructType s) p icp)
                (check_param_or_command_type_unwrapped_def
                   check_param_or_command_type_resolved
                   check_command_params_or_type_struct_fields
                   (StructType s) n p icp)).
    { intros n. apply param_unwrapped_def_adds; simpl.
      - intros e0 H. apply HQ; assumption.
      - intros; contradiction.
      - intros os ns ->. apply Hstruct. apply sub_struct_here. }
    split; [exact U | ]. apply Hres; [exact Hu | exact U | discriminate].
Qed.

(** C2 (amended): when the old field is unstable, whatever the two types are
    and however the comparison ends, every error it records either has one of
    the kinds unresolved type, ["any"] removed, ["any"] introduced, ["any"]
    not on the allowlist, or [cpp_type] changed on an allowlisted ["any"]
    type, or is recorded by the field reconciliation of a struct contained in
    the old type.  So no kind change, array-ness change or unmatched variant
    arm is recorded for the pair itself. *)
Theorem unstable_field_type_errors (old_type : IdlType)
  (new_type : option IdlType) (field_pair : FieldCompatibilityPair)
  (is_command_parameter : bool) :
  old_unstable field_pair = true ->
  adds_only (reply_own_or_nested old_type field_pair)
    (check_reply_field_type (Some old_type) new_type field_pair)
  /\ adds_only (param_own_or_nested old_type field_pair is_command_parameter)
       (check_param_or_command_type (Some old_type) new_type field_pair
          is_command_parameter)
  /\ adds_only (fun e => reply_unstable_kind (kind e) = true)
       (check_reply_field_type None new_type field_pair)
  /\ adds_only (fun e => param_unstable_kind (kind e) = true)
       (check_param_or_command_type None new_type field_pair
          is_command_parameter).
Proof.
  intros Hu. repeat split.
  - apply reply_unstable_type_level. exact Hu.
  - apply param_unstable_type_level. exact Hu.
  - simpl. unfold check_reply_field_type_unresolved.
    apply adds_only_bind.
    + apply check_array_type_adds. intros e _ H. congruence.
    + intros [ | | ]; repeat adds_step.
      apply adds_only_add_error. reflexivity.
  - simpl. unfold check_param_or_command_type_unresolved.
    apply adds_only_bind.
    + apply check_array_type_adds. intros e _ H. congruence.
    + intros [ | | ]; repeat adds_step.
      apply adds_only_add_error. reflexivity.
Qed.

Lemma unstable_field_type_errors_witness :
  adds_only (reply_own_or_nested string_type unstable_pair)
    (check_reply_field_type (Some string_type) (Some color_enum) unstable_pair).
Proof.
  exact (proj1 (unstable_field_type_errors string_type (Some color_enum)
                  unstable_pair true eq_refl)).
Defined.

(** ** C9: comparing a generation with itself *)

(** C9, as stated, fails: a generation that satisfies the invariants (one
    command, resolved types, unique field names) but has a parameter of an
    ["any"] type without allowlist entry records an error when compared with
    itself. *)
Lemma self_comparison_any_not_registered :
  errors (ctxt_of (check_compatibility "old" "new" ping_generation
                     ping_generation empty_ctxt))
  = [mkError command_or_param_type_bson_any_not_allowed_error "ping"
       ["any_t"; "payload"] "ping.idl" (Some true)].
Proof. reflexivity. Qed.

Lemma silent_ret : silent (ret tt).
Proof. intros c. reflexivity. Qed.

Lemma silent_bind (m : M unit) (k : unit -> M unit) :
  silent m -> silent (k tt) -> silent (bind m k).
Proof. intros Hm Hk c. unfold bind. rewrite Hm. apply Hk. Qed.

Lemma silent_when (b : bool) (m : M unit) :
  (b = true -> silent m) -> silent (when b m).
Proof. destruct b; simpl; intros H; [apply H; reflexivity | apply silent_ret]. Qed.

Lemma silent_for_each {A} (body : A -> M unit) (l : list A) :
  (forall x, In x l -> silent (body x)) -> silent (for_each body l).
Proof.
  induction l as [ | x l IH]; intros H; simpl.
  - apply silent_ret.
  - apply silent_bind.
    + apply H. left. reflexivity.
    + apply IH. intros y Hy. apply H. right. exact Hy.
Qed.

Lemma for_first_self {A} (nm : A -> string) (body : A -> M unit)
  (p : A -> bool) (orelse : M unit) (l : list A) (x : A) :
  NoDup (map nm l) -> In x l -> p x = true ->
  (forall y, In y l -> p y = true -> nm y = nm x) ->
  for_first body p orelse l = body x.
Proof.
  induction l as [ | y l IH]; intros Hnd Hin Hpx Hp; simpl.
  - destruct Hin.
  - simpl in Hnd. inversion Hnd as [ | ? ? Hnotin Hnd']. subst.
    destruct Hin as [-> | Hin].
    + rewrite Hpx. reflexivity.
    + destruct (p y) eqn:Hpy.
      * exfalso. apply Hnotin.
        rewrite (Hp y (or_introl eq_refl) Hpy).
        apply in_map. exact Hin.
      * apply IH; try assumption.
        intros z Hz. apply Hp. right. exact Hz.
Qed.

Lemma nodupb_NoDup (l : list string) : nodupb l = true -> NoDup l.
Proof.
  induction l as [ | x l IH]; simpl; intros H.
  - constructor.
  - apply andb_true_iff in H. destruct H as [Hx Hl].
    constructor; [ | apply IH; exact Hl].
    intros Hin. apply (mem_In _ String.eqb_eq) in Hin.
    rewrite Hin in Hx. discriminate Hx.
Qed.

Lemma option_eqb_refl (o : option string) : option_eqb String.eqb o o = true.
Proof. destruct o; simpl; [apply String.eqb_refl | reflexivity]. Qed.

Lemma any_registered_gate (key : string) (a : TypeAttrs) :
  any_registered key a = true -> any_in a && negb (allowed key) = false.
Proof.
  unfold any_registered. destruct (any_in a), (allowed key); simpl; congruence.
Qed.

Lemma check_subset_self_silent cmd fld tn {A} (eqb : A -> A -> bool)
  (l : list A) path :
  (forall a b, eqb a b = true <-> a = b) ->
  silent (check_subset cmd fld tn eqb l l path).
Proof.
  intros H. unfold check_subset. rewrite (issubset_refl _ H). apply silent_ret.
Qed.

Lemma check_superset_self_silent cmd tn {A} (eqb : A -> A -> bool)
  (l : list A) path pn icp :
  (forall a b, eqb a b = true <-> a = b) ->
  silent (check_superset cmd tn eqb l l path pn icp).
Proof.
  intros H. unfold check_superset. rewrite (issubset_refl _ H). apply silent_ret.
Qed.

Lemma check_array_type_self (symbol : string) (t : IdlType)
  (cmd sn op np : string) (u : bool) (c : Ctxt) :
  check_array_type symbol (Some t) (Some t) cmd sn op np u c
  = Ok (if is_ArrayType (Some t) then TRUE else FALSE) c.
Proof.
  unfold check_array_type. destruct (is_ArrayType (Some t)); reflexivity.
Qed.

Section ReplySelf.
Variable rec_type :
  IdlType -> option IdlType -> FieldCompatibilityPair -> M unit.
Variable rec_fields : Struct -> Struct -> string -> string -> string -> M unit.
Variable p : FieldCompatibilityPair.

Lemma reply_recursive_def_self (t : IdlType) (a : TypeAttrs) :
  as_Type t = Some a ->
  any_registered (reply_allow_name (cmd_name p) (pair_field_name p)) a = true ->
  NoDup (map type_name (arms_of t)) ->
  (forall ov, In ov (arms_of t) -> silent (rec_type ov (Some ov) p)) ->
  (forall os, struct_component t os ->
     silent (rec_fields os os (cmd_name p) (old_idl_file_path p)
               (new_idl_file_path p))) ->
  silent (check_reply_field_type_recursive_def rec_type rec_fields t t p).
Proof.
  intros Ha Hany Hnd Harms Hstruct.
  unfold check_reply_field_type_recursive_def. cbv zeta. rewrite Ha.
  rewrite (any_registered_gate _ _ Hany).
  replace (any_in a && negb (any_in a)) with false by (destruct (any_in a); reflexivity).
  replace (negb (any_in a) && any_in a) with false by (destruct (any_in a); reflexivity).
  rewrite !option_eqb_refl. simpl negb. rewrite !andb_false_r.
  apply silent_bind.
  - apply silent_when. intros _. repeat apply silent_bind; apply silent_ret.
  - destruct t; simpl in Ha, Hnd, Harms, Hstruct; try discriminate Ha.
    + apply silent_when. intros _. simpl.
      apply check_subset_self_silent. apply String.eqb_eq.
    + apply silent_when. intros _. simpl.
      apply check_subset_self_silent. apply String.eqb_eq.
    + apply silent_bind.
      * apply silent_for_each. intros nv Hnv.
        rewrite (for_first_self type_name _ _ _ variant_types nv Hnd Hnv).
        -- apply Harms. exact Hnv.
        -- apply String.eqb_refl.
        -- intros y _ Hy. apply String.eqb_eq in Hy. exact Hy.
      * destruct variant_struct_type as [os | ]; [ | apply silent_ret].
        simpl. apply Hstruct. reflexivity.
Qed.

Lemma reply_unwrapped_def_self (t : IdlType) :
  (forall a, as_Type t = Some a ->
     any_registered (reply_allow_name (cmd_name p) (pair_field_name p)) a = true) ->
  NoDup (map type_name (arms_of t)) ->
  (forall ov, In ov (arms_of t) -> silent (rec_type ov (Some ov) p)) ->
  (forall os, struct_component t os ->
     silent (rec_fields os os (cmd_name p) (old_idl_file_path p)
               (new_idl_file_path p))) ->
  silent (check_reply_field_type_unwrapped_def rec_type rec_fields t (Some t) p).
Proof.
  intros Hany Hnd Harms Hstruct.
  unfold check_reply_field_type_unwrapped_def. cbv zeta.
  destruct t;
    try (eapply reply_recursive_def_self; try eassumption;
         [reflexivity | apply Hany; reflexivity]).
  - destruct (negb (old_unstable p)); [ | apply silent_ret].
    apply check_subset_self_silent. apply EnumValue_eqb_eq.
  - apply Hstruct. reflexivity.
Qed.

Lemma reply_type_def_self (t : IdlType) :
  (forall t', t' = t \/ (exists a, t = ArrayType a t') ->
     silent (check_reply_field_type_unwrapped_def rec_type rec_fields t'
               (Some t') p)) ->
  silent (check_reply_field_type_def rec_type rec_fields t (Some t) p).
Proof.
  intros H c. unfold check_reply_field_type_def, bind.
  rewrite check_array_type_self.
  destruct t; cbn [is_ArrayType]; try (apply H; left; reflexivity).
  apply H. right. eexists. reflexivity.
Qed.
End ReplySelf.

Arguments any_registered : simpl never.

Lemma newly_added_loop_self_reply (s : Struct) (cmd np : string) :
  silent (check_reply_fields_newly_added s s cmd np).
Proof.
  unfold check_reply_fields_newly_added. apply silent_for_each.
  intros nf Hnf. cbv zeta.
  replace (existsb _ (fields s)) with true; [apply silent_ret | ].
  symmetry. apply existsb_exists. exists nf. split; [exact Hnf | ].
  apply String.eqb_refl.
Qed.

(** A well-formed reply type, struct or field compared with itself records
    nothing. *)
Lemma reply_self_silent :
  (forall t p,
      wf_type (reply_allow_name (cmd_name p)) (pair_field_name p) t = true ->
      silent (check_reply_field_type_unwrapped_def
                check_reply_field_type_resolved check_reply_fields t (Some t) p)
      /\ silent (check_reply_field_type_resolved t (Some t) p))
  /\ (forall s cmd op np,
         wf_struct (reply_allow_name cmd) s = true ->
         silent (check_reply_fields s s cmd op np))
  /\ (forall f cmd op np,
         wf_field (reply_allow_name cmd) f = true ->
         silent (check_reply_field f f cmd op np)).
Proof.
  assert (Hres : forall t p,
    silent (check_reply_field_type_unwrapped_def
              check_reply_field_type_resolved check_reply_fields t (Some t) p) ->
    (forall a e, t = ArrayType a e ->
       silent (check_reply_field_type_unwrapped_def
                 check_reply_field_type_resolved check_reply_fields e (Some e) p)) ->
    silent (check_reply_field_type_resolved t (Some t) p)).
  { intros t p Ht He. intros c. rewrite check_reply_field_type_resolved_eq.
    revert c. apply reply_type_def_self.
    intros t' [-> | (a & ->)]; [exact Ht | eapply He; reflexivity]. }
  apply IdlType_mutind.
  - intros a p Hwf. simpl in Hwf.
    assert (U : silent (check_reply_field_type_unwrapped_def
                          check_reply_field_type_resolved check_reply_fields
                          (Type_ a) (Some (Type_ a)) p)).
    { apply reply_unwrapped_def_self; simpl.
      - intros a' E. injection E as <-. exact Hwf.
      - constructor.
      - intros; contradiction.
      - intros; contradiction. }
    split; [exact U | ]. apply Hres; [exact U | discriminate].
  - intros a e IHe p Hwf. simpl in Hwf.
    apply andb_true_iff in Hwf. destruct Hwf as [Hany Hwf].
    assert (U : silent (check_reply_field_type_unwrapped_def
                          check_reply_field_type_resolved check_reply_fields
                          (ArrayType a e) (Some (ArrayType a e)) p)).
    { apply reply_unwrapped_def_self; simpl.
      - intros a' E. injection E as <-. exact Hany.
      - constructor.
      - intros; contradiction.
      - intros; contradiction. }
    split; [exact U | ]. apply Hres; [exact U | ].
    intros a' e' E. injection E as _ <-. apply IHe. exact Hwf.
  - intros a l IHl s IHs p Hwf. simpl in Hwf.
    apply andb_true_iff in Hwf. destruct Hwf as [Hwf Hs].
    apply andb_true_iff in Hwf. destruct Hwf as [Hwf Hl].
    apply andb_true_iff in Hwf. destruct Hwf as [Hany Hnd].
    assert (U : silent (check_reply_field_type_unwrapped_def
                          check_reply_field_type_resolved check_reply_fields
                          (VariantType a l s) (Some (VariantType a l s)) p)).
    { apply reply_unwrapped_def_self; simpl.
      - intros a' E. injection E as <-. exact Hany.
      - apply nodupb_NoDup. exact Hnd.
      - intros ov Hov.
        apply (list_all_In _ _ IHl ov Hov p).
        rewrite forallb_forall in Hl. apply Hl. exact Hov.
      - intros os Hos. destruct s as [s | ]; [ | contradiction]. subst.
        apply (option_all_Some _ _ _ IHs eq_refl). exact Hs. }
    split; [exact U | ]. apply Hres; [exact U | discriminate].
  - intros en vs p _.
    assert (U : silent (check_reply_field_type_unwrapped_def
                          check_reply_field_type_resolved check_reply_fields
                          (Enum en vs) (Some (Enum en vs)) p)).
    { apply reply_unwrapped_def_self; simpl.
      - intros a' E. discriminate E.
      - constructor.
      - intros; contradiction.
      - intros; contradiction. }
    split; [exact U | ]. apply Hres; [exact U | discriminate].
  - intros s IHs p Hwf. simpl in Hwf.
    assert (U : silent (check_reply_field_type_unwrapped_def
                          check_reply_field_type_resolved check_reply_fields
                          (StructType s) (Some (StructType s)) p)).
    { apply reply_unwrapped_def_self; simpl.
      - intros a' E. discriminate E.
      - constructor.
      - intros; contradiction.
      - intros os ->. apply IHs. exact Hwf. }
    split; [exact U | ]. apply Hres; [exact U | discriminate].
  - intros sn fs IHfs cmd op np Hwf. simpl in Hwf.
    apply andb_true_iff in Hwf. destruct Hwf as [Hnd Hfs].
    apply nodupb_NoDup in Hnd. rewrite forallb_forall in Hfs.
    intros c. rewrite check_reply_fields_eq. revert c.
    unfold check_reply_fields_def. apply silent_bind.
    + apply silent_for_each. intros f Hf. simpl in Hf |- *.
      rewrite (for_first_self field_name _ _ _ fs f Hnd Hf).
      * apply (list_all_In _ _ IHfs f Hf). apply Hfs. exact Hf.
      * apply String.eqb_refl.
      * intros y _ Hy. apply String.eqb_eq in Hy. exact Hy.
    + apply newly_added_loop_self_reply.
  - intros fn ty IHty o u d v cmd op np Hwf. simpl in Hwf.
    destruct ty as [t | ]; [ | discriminate Hwf].
    intros c. rewrite check_reply_field_eq. revert c.
    unfold check_reply_field_def. cbv zeta. apply silent_bind.
    + apply silent_when. intros Hu. simpl in Hu |- *.
      apply negb_true_iff in Hu. subst u.
      repeat apply silent_bind.
      * apply silent_ret.
      * apply silent_when. intros H. destruct o; discriminate H.
      * destruct v as [v | ]; [ | apply silent_ret].
        rewrite String.eqb_refl. apply silent_ret.
    + simpl. apply (option_all_Some _ _ _ IHty eq_refl). exact Hwf.
Qed.

Section ParamSelf.
Variable rec_type :
  IdlType -> option IdlType -> FieldCompatibilityPair -> bool -> M unit.
Variable rec_fields :
  Struct -> Struct -> string -> string -> string -> bool -> M unit.
Variable p : FieldCompatibilityPair.
Variable icp : bool.

Lemma param_recursive_def_self (t : IdlType) (a : TypeAttrs) :
  as_Type t = Some a ->
  any_registered (param_allow_name (cmd_name p) (pair_field_name p) icp) a = true ->
  NoDup (map type_name (arms_of t)) ->
  (forall ov, In ov (arms_of t) -> silent (rec_type ov (Some ov) p icp)) ->
  (forall os, struct_component t os ->
     silent (rec_fields os os (cmd_name p) (old_idl_file_path p)
               (new_idl_file_path p) icp)) ->
  silent (check_param_or_command_type_recursive_def rec_type rec_fields t t p icp).
Proof.
  intros Ha Hany Hnd Harms Hstruct.
  unfold check_param_or_command_type_recursive_def. cbv zeta. rewrite Ha.
  rewrite (any_registered_gate _ _ Hany).
  replace (any_in a && negb (any_in a)) with false by (destruct (any_in a); reflexivity).
  replace (negb (any_in a) && any_in a) with false by (destruct (any_in a); reflexivity).
  rewrite !option_eqb_refl. simpl negb. rewrite !andb_false_r.
  apply silent_bind.
  - apply silent_when. intros _. repeat apply silent_bind; apply silent_ret.
  - destruct t; simpl in Ha, Hnd, Harms, Hstruct; try discriminate Ha.
    + apply silent_when. intros _.
      apply check_superset_self_silent. apply String.eqb_eq.
    + apply silent_when. intros _.
      apply check_superset_self_silent. apply String.eqb_eq.
    + apply silent_bind.
      * apply silent_for_each. intros ov Hov.
        rewrite (for_first_self type_name _ _ _ variant_types ov Hnd Hov).
        -- apply Harms. exact Hov.
        -- apply String.eqb_refl.
        -- intros y _ Hy. apply String.eqb_eq in Hy. symmetry. exact Hy.
      * destruct variant_struct_type as [os | ]; [ | apply silent_ret].
        apply Hstruct. reflexivity.
Qed.

Lemma param_unwrapped_def_self (t : IdlType) :
  (forall a, as_Type t = Some a ->
     any_registered (param_allow_name (cmd_name p) (pair_field_name p) icp) a
     = true) ->
  NoDup (map type_name (arms_of t)) ->
  (forall ov, In ov (arms_of t) -> silent (rec_type ov (Some ov) p icp)) ->
  (forall os, struct_component t os ->
     silent (rec_fields os os (cmd_name p) (old_idl_file_path p)
               (new_idl_file_path p) icp)) ->
  silent (check_param_or_command_type_unwrapped_def rec_type rec_fields t
            (Some t) p icp).
Proof.
  intros Hany Hnd Harms Hstruct.
  unfold check_param_or_command_type_unwrapped_def. cbv zeta.
  destruct t;
    try (eapply param_recursive_def_self; try eassumption;
         [reflexivity | apply Hany; reflexivity]).
  - destruct (negb (old_unstable p)); [ | apply silent_ret].
    apply check_superset_self_silent. apply EnumValue_eqb_eq.
  - apply Hstruct. reflexivity.
Qed.

Lemma param_type_def_self (t : IdlType) :
  (forall t', t' = t \/ (exists a, t = ArrayType a t') ->
     silent (check_param_or_command_type_unwrapped_def rec_type rec_fields t'
               (Some t') p icp)) ->
  silent (check_param_or_command_type_def rec_type rec_fields t (Some t) p icp).
Proof.
  intros H c. unfold check_param_or_command_type_def, bind.
  rewrite check_array_type_self.
  destruct t; cbn [is_ArrayType]; try (apply H; left; reflexivity).
  apply H. right. eexists. reflexivity.
Qed.
End ParamSelf.

Lemma newly_added_loop_self_param (s : Struct) (cmd op np : string) (icp : bool) :
  silent (check_command_params_or_type_struct_fields_newly_added s s cmd op np icp).
Proof.
  unfold check_command_params_or_type_struct_fields_newly_added.
  apply silent_for_each. intros nf Hnf. cbv zeta.
  replace (existsb _ (fields s)) with true.
  - apply silent_bind; apply silent_ret.
  - symmetry. apply existsb_exists. exists nf. split; [exact Hnf | ].
    apply String.eqb_refl.
Qed.

(** A well-formed parameter or command type, struct or field compared with
    itself records nothing. *)
Lemma param_self_silent :
  (forall t p icp,
      wf_type (fun f => param_allow_name (cmd_name p) f icp)
        (pair_field_name p) t = true ->
      silent (check_param_or_command_type_unwrapped_def
                check_param_or_command_type_resolved
                check_command_params_or_type_struct_fields t (Some t) p icp)
      /\ silent (check_param_or_command_type_resolved t (Some t) p icp))
  /\ (forall s cmd op np icp,
         wf_struct (fun f => param_allow_name cmd f icp) s = true ->
         silent (check_command_params_or_type_struct_fields s s cmd op np icp))
  /\ (forall f cmd op np tn icp,
         wf_field (fun f => param_allow_name cmd f icp) f = true ->
         silent (check_command_param_or_type_struct_field f f cmd op np tn icp)).
Proof.
  assert (Hres : forall t p icp,
    silent (check_param_or_command_type_unwrapped_def
              check_param_or_command_type_resolved
              check_command_params_or_type_struct_fields t (Some t) p icp) ->
    (forall a e, t = ArrayType a e ->
       silent (check_param_or_command_type_unwrapped_def
                 check_param_or_command_type_resolved
                 check_command_params_or_type_struct_fields e (Some e) p icp)) ->
    silent (check_param_or_command_type_resolved t (Some t) p icp)).
  { intros t p icp Ht He. intros c.
    rewrite check_param_or_command_type_resolved_eq.
    revert c. apply param_type_def_self.
    intros t' [-> | (a & ->)]; [exact Ht | eapply He; reflexivity]. }
  apply IdlType_mutind.
  - intros a p icp Hwf. simpl in Hwf.
    assert (U : silent (check_param_or_command_type_unwrapped_def
                          check_param_or_command_type_resolved
                          check_command_params_or_type_struct_fields
                          (Type_ a) (Some (Type_ a)) p icp)).
    { apply param_unwrapped_def_self; simpl.
      - intros a' E. injection E as <-. exact Hwf.
      - constructor.
      - intros; contradiction.
      - intros; contradiction. }
    split; [exact U | ]. apply Hres; [exact U | discriminate].
  - intros a e IHe p icp Hwf. simpl in Hwf.
    apply andb_true_iff in Hwf. destruct Hwf as [Hany Hwf].
    assert (U : silent (check_param_or_command_type_unwrapped_def
                          check_param_or_command_type_resolved
                          check_command_params_or_type_struct_fields
                          (ArrayType a e) (Some (ArrayType a e)) p icp)).
    { apply param_unwrapped_def_self; simpl.
      - intros a' E. injection E as <-. exact Hany.
      - constructor.
      - intros; contradiction.
      - intros; contradiction. }
    split; [exact U | ]. apply Hres; [exact U | ].
    intros a' e' E. injection E as _ <-. apply IHe. exact Hwf.
  - intros a l IHl s IHs p icp Hwf. simpl in Hwf.
    apply andb_true_iff in Hwf. destruct Hwf as [Hwf Hs].
    apply andb_true_iff in Hwf. destruct Hwf as [Hwf Hl].
    apply andb_true_iff in Hwf. destruct Hwf as [Hany Hnd].
    assert (U : silent (check_param_or_command_type_unwrapped_def
                          check_param_or_command_type_resolved
                          check_command_params_or_type_struct_fields
                          (VariantType a l s) (Some (VariantType a l s)) p icp)).
    { apply param_unwrapped_def_self; simpl.
      - intros a' E. injection E as <-. exact Hany.
      - apply nodupb_NoDup. exact Hnd.
      - intros ov Hov.
        apply (list_all_In _ _ IHl ov Hov p icp).
        rewrite forallb_forall in Hl. apply Hl. exact Hov.
      - intros os Hos. destruct s as [s | ]; [ | contradiction]. subst.
        apply (option_all_Some _ _ _ IHs eq_refl). exact Hs. }
    split; [exact U | ]. apply Hres; [exact U | discriminate].
  - intros en vs p icp _.
    assert (U : silent (check_param_or_command_type_unwrapped_def
                          check_param_or_command_type_resolved
                          check_command_params_or_type_struct_fields
                          (Enum en vs) (Some (Enum en vs)) p icp)).
    { apply param_unwrapped_def_self; simpl.
      - intros a' E. discriminate E.
      - constructor.
      - intros; contradiction.
      - intros; contradiction. }
    split; [exact U | ]. apply Hres; [exact U | discriminate].
  - intros s IHs p icp Hwf. simpl in Hwf.
    assert (U : silent (check_param_or_command_type_unwrapped_def
                          check_param_or_command_type_resolved
                          check_command_params_or_type_struct_fields
                          (StructType s) (Some (StructType s)) p icp)).
    { apply param_unwrapped_def_self; simpl.
      - intros a' E. discriminate E.
      - constructor.
      - intros; contradiction.
      - intros os ->. apply IHs. exact Hwf. }
    split; [exact U | ]. apply Hres; [exact U | discriminate].
  - intros sn fs IHfs cmd op np icp Hwf. simpl in Hwf.
    apply andb_true_iff in Hwf. destruct Hwf as [Hnd Hfs].
    apply nodupb_NoDup in Hnd. rewrite forallb_forall in Hfs.
    intros c. rewrite check_command_params_or_type_struct_fields_eq. revert c.
    unfold check_command_params_or_type_struct_fields_def. apply silent_bind.
    + apply silent_for_each. intros f Hf. simpl in Hf |- *.
      rewrite (for_first_self field_name _ _ _ fs f Hnd Hf).
      * apply (list_all_In _ _ IHfs f Hf). apply Hfs. exact Hf.
      * apply String.eqb_refl.
      * intros y _ Hy. apply String.eqb_eq in Hy. exact Hy.
    + apply newly_added_loop_self_param.
  - intros fn ty IHty o u d v cmd op np tn icp Hwf. simpl in Hwf.
    destruct ty as [t | ]; [ | discriminate Hwf].
    intros c. rewrite check_command_param_or_type_struct_field_eq. revert c.
    unfold check_command_param_or_type_struct_field_def. cbv zeta. simpl.
    apply silent_bind; [apply silent_when; intros H; destruct u; discriminate H | ].
    apply silent_bind; [apply silent_when; intros H; destruct u; discriminate H | ].
    apply silent_bind; [apply silent_when; intros H; destruct o; discriminate H | ].
    apply silent_bind.
    + apply silent_when. intros _. unfold check_param_or_type_validator. simpl.
      destruct v as [v | ]; [ | apply silent_ret].
      rewrite String.eqb_refl. apply silent_ret.
    + apply (option_all_Some _ _ _ IHty eq_refl). exact Hwf.
Qed.

Lemma check_namespace_self (cmd : Command) (op np : string) :
  wf_command cmd = true -> silent (check_namespace cmd cmd op np).
Proof.
  unfold wf_command, check_namespace. intros Hwf.
  apply andb_true_iff in Hwf. destruct Hwf as [Hwf _].
  apply andb_true_iff in Hwf. destruct Hwf as [_ Hns].
  destruct (namespace cmd); simpl; try apply silent_ret.
  destruct (command_type cmd) as [t | ]; [ | discriminate Hns].
  simpl. apply (proj1 param_self_silent t
                  (mkPair op false np false (command_name cmd) "") false).
  exact Hns.
Qed.

Lemma privilege_matches_refl (x : Privilege) : privilege_matches x x = true.
Proof.
  unfold privilege_matches.
  rewrite String.eqb_refl, (issubset_refl _ String.eqb_eq). reflexivity.
Qed.

Lemma match_privileges_self (l : list Privilege) (cmd np : string) :
  silent (match_privileges l l cmd np).
Proof.
  induction l as [ | x l IH]; intros c; simpl.
  - reflexivity.
  - rewrite privilege_matches_refl. apply IH.
Qed.

Lemma check_security_access_checks_self (a : option AccessChecks)
  (cmd : Command) (np : string) :
  silent (check_security_access_checks a a cmd np).
Proof.
  intros c. unfold check_security_access_checks.
  destruct a as [[ | s | l] | ]; simpl; try reflexivity.
  - unfold bind. rewrite option_eqb_refl. simpl.
    destruct (privilege s) as [pv | ]; simpl; [ | reflexivity].
    rewrite String.eqb_refl, (issubset_refl _ String.eqb_eq). reflexivity.
  - unfold bind. simpl. rewrite Nat.ltb_irrefl.
    unfold split_complex_checks.
    rewrite (issubset_refl _ String.eqb_eq). simpl.
    rewrite Nat.ltb_irrefl. apply match_privileges_self.
Qed.

Lemma fold_m_app {A S} (f : S -> A -> M S) (l1 l2 : list A) (s : S) (c : Ctxt) :
  fold_m f (l1 ++ l2) s c = bind (fold_m f l1 s) (fold_m f l2) c.
Proof.
  revert s c. induction l1 as [ | x l1 IH]; intros s c; simpl.
  - reflexivity.
  - unfold bind. destruct (f s x c) as [s' c' | | ]; try reflexivity.
    rewrite IH. reflexivity.
Qed.

Lemma fold_m_map {A B S} (f : S -> B -> M S) (g : A -> B) (l : list A) (s : S)
  (c : Ctxt) :
  fold_m f (map g l) s c = fold_m (fun s x => f s (g x)) l s c.
Proof.
  revert s c. induction l as [ | x l IH]; intros s c; simpl.
  - reflexivity.
  - unfold bind. destruct (f s (g x) c) as [s' c' | | ]; try reflexivity.
    apply IH.
Qed.

(** The nested loops over files and commands are one loop over
    [all_commands]. *)
Lemma fold_m_files {S} (step : string -> S -> Command -> M S)
  (files : list IDLFile) (s : S) (c : Ctxt) :
  fold_m (fun s f => fold_m (step (idl_file_path f)) (commands f) s) files s c
  = fold_m (fun s pc => step (fst pc) s (snd pc)) (all_commands files) s c.
Proof.
  revert s c. induction files as [ | f files IH]; intros s c; simpl.
  - reflexivity.
  - unfold all_commands. simpl. rewrite fold_m_app. unfold bind.
    rewrite fold_m_map. simpl.
    destruct (fold_m _ (commands f) s c) as [s' c' | | ]; try reflexivity.
    apply IH.
Qed.

Lemma lookup_command_None (name : string) (d : NewCommands) :
  ~ In name (map fst d) -> lookup_command name d = None.
Proof.
  induction d as [ | [k v] d IH]; simpl; intros H.
  - reflexivity.
  - destruct (String.eqb k name) eqn:E.
    + apply String.eqb_eq in E. exfalso. apply H. left. exact E.
    + apply IH. intros Hin. apply H. right. exact Hin.
Qed.

Lemma command_table_keys (l : list (string * Command)) :
  map fst (command_table l) = map (fun pc => command_name (snd pc)) l.
Proof. unfold command_table. rewrite map_map. reflexivity. Qed.

Lemma lookup_command_table (l : list (string * Command)) (pc : string * Command) :
  NoDup (map (fun pc => command_name (snd pc)) l) -> In pc l ->
  lookup_command (command_name (snd pc)) (command_table l)
  = Some (snd pc, fst pc).
Proof.
  induction l as [ | x l IH]; simpl; intros Hnd Hin.
  - destruct Hin.
  - inversion Hnd as [ | ? ? Hnotin Hnd']. subst.
    destruct Hin as [-> | Hin].
    + rewrite String.eqb_refl. reflexivity.
    + destruct (String.eqb (command_name (snd x)) (command_name (snd pc))) eqn:E.
      * apply String.eqb_eq in E. exfalso. apply Hnotin. rewrite E.
        apply (in_map (fun pc => command_name (snd pc))). exact Hin.
      * apply IH; assumption.
Qed.

Lemma in_api_version (cmd : Command) :
  in_api cmd = true ->
  String.eqb (api_version cmd) "" || imported cmd = false.
Proof. unfold in_api. apply negb_true_iff. Qed.

Lemma get_new_commands_loop (dir : string) (l : list (string * Command))
  (acc : NewCommands) (c : Ctxt) :
  (forall pc, In pc l -> in_api (snd pc) = true -> wf_command (snd pc) = true) ->
  NoDup (map fst acc ++
         map (fun pc => command_name (snd pc))
             (filter (fun pc => in_api (snd pc)) l)) ->
  fold_m (fun acc pc => get_new_commands_step dir (fst pc) acc (snd pc)) l acc c
  = Ok (acc ++ command_table (filter (fun pc => in_api (snd pc)) l)) c.
Proof.
  revert acc c. induction l as [ | pc l IH]; intros acc c Hwf Hnd; simpl.
  - rewrite app_nil_r. reflexivity.
  - unfold bind, get_new_commands_step. simpl in Hnd.
    destruct (in_api (snd pc)) eqn:Hapi.
    + rewrite (in_api_version _ Hapi).
      assert (Hv : String.eqb (api_version (snd pc)) "1" = true).
      { specialize (Hwf pc (or_introl eq_refl) Hapi). unfold wf_command in Hwf.
        repeat (apply andb_true_iff in Hwf; destruct Hwf as [Hwf _]).
        exact Hwf. }
      rewrite Hv. simpl negb. cbv iota.
      simpl in Hnd.
      rewrite lookup_command_None.
      * simpl. rewrite IH.
        -- rewrite <- app_assoc. reflexivity.
        -- intros x Hx. apply Hwf. right. exact Hx.
        -- rewrite map_app. simpl. rewrite <- app_assoc. exact Hnd.
      * apply NoDup_remove_2 in Hnd. intros Hin. apply Hnd.
        apply in_or_app. left. exact Hin.
    + unfold in_api in Hapi. apply negb_false_iff in Hapi. rewrite Hapi.
      simpl. apply IH.
      * intros x Hx. apply Hwf. right. exact Hx.
      * exact Hnd.
Qed.

Lemma check_compatibility_step_self (dir path : string) (table : NewCommands)
  (olds : list string) (cmd : Command) (c : Ctxt) :
  in_api cmd = true -> wf_command cmd = true ->
  ~ In (command_name cmd) olds ->
  lookup_command (command_name cmd) table = Some (cmd, path) ->
  check_compatibility_step dir path table olds cmd c
  = Ok (olds ++ [command_name cmd]) c.
Proof.
  intros Hapi Hwf Hnew Hlook. unfold check_compatibility_step.
  rewrite (in_api_version _ Hapi).
  pose proof Hwf as Hwf'. unfold wf_command in Hwf'.
  apply andb_true_iff in Hwf'. destruct Hwf' as [Hwf' Hreply].
  apply andb_true_iff in Hwf'. destruct Hwf' as [Hwf' _].
  apply andb_true_iff in Hwf'. destruct Hwf' as [Hv Hparams].
  rewrite Hv. simpl negb. cbv iota.
  replace (mem String.eqb (command_name cmd) olds) with false.
  2: { symmetry. destruct (mem String.eqb (command_name cmd) olds) eqn:E;
         [ | reflexivity].
       apply (mem_In _ String.eqb_eq) in E. contradiction. }
  rewrite Hlook. unfold bind.
  replace (negb (strict cmd) && strict cmd) with false
    by (destruct (strict cmd); reflexivity).
  cbn [negb when]. unfold ret at 1.
  rewrite (proj1 (proj2 param_self_silent) _ _ _ _ _ Hparams).
  rewrite (check_namespace_self _ _ _ Hwf).
  destruct (reply_type cmd) as [r | ]; [ | discriminate Hreply].
  simpl check_reply_fields_opt.
  rewrite (proj1 (proj2 reply_self_silent) _ _ _ _ Hreply).
  rewrite check_security_access_checks_self. reflexivity.
Qed.

Lemma check_compatibility_loop_self (dir : string) (table : NewCommands)
  (l : list (string * Command)) (olds : list string) (c : Ctxt) :
  (forall pc, In pc l -> in_api (snd pc) = true ->
     wf_command (snd pc) = true /\
     lookup_command (command_name (snd pc)) table = Some (snd pc, fst pc)) ->
  NoDup (olds ++ map (fun pc => command_name (snd pc))
                   (filter (fun pc => in_api (snd pc)) l)) ->
  fold_m (fun olds pc => check_compatibility_step dir (fst pc) table olds (snd pc))
    l olds c
  = Ok (olds ++ map (fun pc => command_name (snd pc))
                  (filter (fun pc => in_api (snd pc)) l)) c.
Proof.
  revert olds c. induction l as [ | pc l IH]; intros olds c H Hnd; simpl.
  - rewrite app_nil_r. reflexivity.
  - unfold bind. simpl in Hnd. destruct (in_api (snd pc)) eqn:Hapi.
    + destruct (H pc (or_introl eq_refl) Hapi) as [Hwf Hlook].
      simpl in Hnd.
      rewrite (check_compatibility_step_self _ _ _ _ _ _ Hapi Hwf).
      * rewrite IH.
        -- simpl. rewrite <- app_assoc. reflexivity.
        -- intros x Hx. apply H. right. exact Hx.
        -- rewrite <- app_assoc. exact Hnd.
      * apply NoDup_remove_2 in Hnd. intros Hin. apply Hnd.
        apply in_or_app. left. exact Hin.
      * exact Hlook.
    + unfold check_compatibility_step.
      unfold in_api in Hapi. apply negb_false_iff in Hapi. rewrite Hapi.
      simpl. apply IH.
      * intros x Hx. apply H. right. exact Hx.
      * exact Hnd.
Qed.

(** C9 (amended): a well-formed generation -- command names unique among the
    commands of the API, API version "1", every field type, namespace type
    and reply struct resolved, field names unique in a struct, arm names
    unique in a variant -- every ["any"]-carrying type of which sits under a
    registered allowlist key, compared with itself, records no error: the
    run returns after its final dump with an empty error sequence.  The same
    holds for each check on its own: field reconciliation and type
    comparison in both directions, namespace and access checks. *)
Theorem self_comparison_records_nothing (old_dir new_dir : string)
  (files : list IDLFile) :
  wf_generation files = true ->
  check_compatibility old_dir new_dir files files empty_ctxt
    = Ok tt (dumped_once empty_ctxt)
  /\ (forall cmd op np, wf_command cmd = true ->
        silent (check_command_params_or_type_struct_fields (as_struct cmd)
                  (as_struct cmd) (command_name cmd) op np true)
        /\ silent (check_namespace cmd cmd op np)
        /\ silent (check_reply_fields_opt (reply_type cmd) (reply_type cmd)
                     (command_name cmd) op np)
        /\ silent (check_security_access_checks (access_check cmd)
                     (access_check cmd) cmd np))
  /\ (forall t p icp,
        (wf_type (reply_allow_name (cmd_name p)) (pair_field_name p) t = true ->
         silent (check_reply_field_type (Some t) (Some t) p))
        /\ (wf_type (fun f => param_allow_name (cmd_name p) f icp)
              (pair_field_name p) t = true ->
            silent (check_param_or_command_type (Some t) (Some t) p icp))).
Proof.
  intros Hwf. unfold wf_generation in Hwf.
  apply andb_true_iff in Hwf. destruct Hwf as [Hnd Hall].
  apply nodupb_NoDup in Hnd. rewrite forallb_forall in Hall.
  split; [ | split].
  - unfold check_compatibility, get_new_commands, bind.
    rewrite fold_m_files.
    rewrite (get_new_commands_loop new_dir (all_commands files) [] empty_ctxt).
    + simpl app.
      rewrite (fold_m_files
                 (fun path => check_compatibility_step old_dir path _)).
      rewrite (check_compatibility_loop_self old_dir _ (all_commands files) []
                 empty_ctxt).
      * reflexivity.
      * intros pc Hin Hapi.
        assert (Hin' : In pc (api_commands files)).
        { unfold api_commands. apply filter_In. split; assumption. }
        split; [apply (Hall pc Hin') | ].
        apply lookup_command_table; assumption.
      * exact Hnd.
    + intros pc Hin Hapi. apply (Hall pc).
      unfold api_commands. apply filter_In. split; assumption.
    + exact Hnd.
  - intros cmd op np Hc.
    pose proof Hc as Hc'. unfold wf_command in Hc'.
    apply andb_true_iff in Hc'. destruct Hc' as [Hc' Hreply].
    apply andb_true_iff in Hc'. destruct Hc' as [Hc' _].
    apply andb_true_iff in Hc'. destruct Hc' as [_ Hparams].
    repeat split.
    + apply (proj1 (proj2 param_self_silent)). exact Hparams.
    + apply check_namespace_self. exact Hc.
    + destruct (reply_type cmd) as [r | ]; [ | discriminate Hreply].
      apply (proj1 (proj2 reply_self_silent)). exact Hreply.
    + apply check_security_access_checks_self.
  - intros t p icp. split; intros Ht.
    + apply (proj1 reply_self_silent). exact Ht.
    + apply (proj1 param_self_silent). exact Ht.
Qed.

Lemma self_comparison_records_nothing_witness :
  check_compatibility "old" "new" find_generation find_generation empty_ctxt
    = Ok tt (dumped_once empty_ctxt).
Proof.
  exact (proj1 (self_comparison_records_nothing "old" "new" find_generation
                  eq_refl)).
Defined.

(** ** Sample runs *)

(** A command of the old generation missing from the new one is reported
    once; the command present in both is not. *)
Example command_removal_detected :
  errors (ctxt_of (check_compatibility "old" "new"
                     [mkIDLFile "cmds.idl" [bare_cmd "A"; bare_cmd "B"]]
                     [mkIDLFile "cmds.idl" [bare_cmd "B"]] empty_ctxt))
  = [mkError command_removed_error "A" [] "cmds.idl" None].
Proof. reflexivity. Qed.

(** An unstable required parameter that becomes stable and stays required is
    reported when it has no default, and accepted when it has one. *)
Example stable_promotion_needs_default :
  check_command_param_or_type_struct_field unstable_required_field
    (stable_required_field None) "cmd" "old.idl" "new.idl" "cmd" true empty_ctxt
  = Ok tt (record (mkError
                     new_param_or_command_type_field_stable_required_no_default_error
                     "cmd" ["f"; "cmd"] "old.idl" (Some true)) empty_ctxt)
  /\ check_command_param_or_type_struct_field unstable_required_field
       (stable_required_field (Some "0")) "cmd" "old.idl" "new.idl" "cmd" true
       empty_ctxt
     = Ok tt empty_ctxt.
Proof. split; reflexivity. Qed.

(** A simple access check may drop action types but not add one. *)
Example privilege_narrowing :
  check_security_access_checks (simple_access ["a"; "b"; "c"])
    (simple_access ["a"; "b"]) (bare_cmd "A") "new.idl" empty_ctxt
  = Ok tt empty_ctxt
  /\ check_security_access_checks (simple_access ["a"; "b"; "c"])
       (simple_access ["a"; "b"; "d"]) (bare_cmd "A") "new.idl" empty_ctxt
     = Ok tt (record (mkError new_action_types_not_subset_error "A" []
                        "new.idl" None) empty_ctxt).
Proof. split; reflexivity. Qed.

(** The greedy matching of complex privileges consumes old privileges: two
    copies of a new privilege cannot share one old privilege. *)
Example complex_privileges_are_consumed :
  check_security_access_checks
    (Some (AccessComplex [mkAccessCheck None (Some kill_privilege);
                          mkAccessCheck None (Some find_and_kill_privilege)]))
    (Some (AccessComplex [mkAccessCheck None (Some find_privilege);
                          mkAccessCheck None (Some find_privilege)]))
    (bare_cmd "A") "new.idl" empty_ctxt
  = Ok tt (record (mkError new_complex_privileges_not_subset_error "A" []
                     "new.idl" None) empty_ctxt).
Proof. reflexivity. Qed.

(** * Further properties of the checker *)

(** ** Every check appends a fixed list of errors *)

Lemma steady_ret {A} (a : A) : steady (ret a).
Proof.
  exists [], (Returns a). split; [exact I | ].
  intros c. simpl. rewrite extend_nil. reflexivity.
Qed.

Lemma steady_raise {A} (e : Exn) : steady (@raise A e).
Proof.
  exists [], (Raises e). split; [exact I | ].
  intros c. simpl. rewrite extend_nil. reflexivity.
Qed.

Lemma steady_add_error k cmd args file icp :
  steady (add_error k cmd args file icp).
Proof.
  exists [mkError k cmd args file icp], (Returns tt). split; [exact I | ].
  intros c. reflexivity.
Qed.

Lemma realize_extend {A} (a1 a2 : list CompatError) (k : Ending A) (c : Ctxt) :
  realize a2 k (extend c a1) = realize (a1 ++ a2) k c.
Proof.
  destruct k; simpl; unfold extend; simpl; rewrite <- !app_assoc; reflexivity.
Qed.

Lemma steady_bind {A B} (m : M A) (k : A -> M B) :
  steady m -> (forall a, steady (k a)) -> steady (bind m k).
Proof.
  intros (a1 & k1 & F1 & E1) Hk.
  destruct k1 as [x | code | e].
  - destruct (Hk x) as (a2 & k2 & F2 & E2).
    exists (a1 ++ a2), k2. split.
    + destruct k2; simpl in *; try exact I.
      destruct F2 as (-> & front & e & -> & He).
      split; [reflexivity | ]. exists (a1 ++ front), e.
      split; [apply app_assoc | exact He].
    + intros c. unfold bind. rewrite E1. simpl. rewrite E2.
      apply realize_extend.
  - exists a1, (Exits code). split; [exact F1 | ].
    intros c. unfold bind. rewrite E1. reflexivity.
  - exists a1, (Raises e). split; [exact I | ].
    intros c. unfold bind. rewrite E1. reflexivity.
Qed.

Lemma steady_when (b : bool) (m : M unit) : steady m -> steady (when b m).
Proof. destruct b; simpl; intros H; [exact H | apply steady_ret]. Qed.

(** [add_..._type_invalid_error(...); dump_errors(); sys.exit(1)] *)
Lemma steady_fatal k cmd args file icp :
  is_invalid_type_error (mkError k cmd args file icp) = true ->
  steady (bind (add_error k cmd args file icp)
            (fun _ => bind dump_errors (fun _ => @sys_exit unit 1))).
Proof.
  intros H. exists [mkError k cmd args file icp], (Exits 1). split.
  - split; [reflexivity | ]. exists [], (mkError k cmd args file icp).
    split; [reflexivity | exact H].
  - intros c. reflexivity.
Qed.

Lemma steady_for_each {A} (body : A -> M unit) (l : list A) :
  (forall x, In x l -> steady (body x)) -> steady (for_each body l).
Proof.
  induction l as [ | x l IH]; intros H; simpl.
  - apply steady_ret.
  - apply steady_bind.
    + apply H. left. reflexivity.
    + intros _. apply IH. intros y Hy. apply H. right. exact Hy.
Qed.

Lemma steady_for_first {A} (body : A -> M unit) (p : A -> bool)
  (orelse : M unit) (l : list A) :
  (forall x, In x l -> steady (body x)) -> steady orelse ->
  steady (for_first body p orelse l).
Proof.
  intros H Helse. induction l as [ | x l IH]; simpl.
  - exact Helse.
  - destruct (p x).
    + apply H. left. reflexivity.
    + apply IH. intros y Hy. apply H. right. exact Hy.
Qed.

Lemma steady_fold_m {A S} (f : S -> A -> M S) (l : list A) (s : S) :
  (forall s x, In x l -> steady (f s x)) -> steady (fold_m f l s).
Proof.
  revert s. induction l as [ | x l IH]; intros s H; simpl.
  - apply steady_ret.
  - apply steady_bind.
    + apply H. left. reflexivity.
    + intros s'. apply IH. intros s0 y Hy. apply H. right. exact Hy.
Qed.

Ltac steady_step :=
  match goal with
  | |- steady (ret _) => apply steady_ret
  | |- steady (raise _) => apply steady_raise
  | |- steady (add_error _ _ _ _ _) => apply steady_add_error
  | |- steady (bind (add_error _ _ _ _ _)
                 (fun _ => bind dump_errors (fun _ => sys_exit 1))) =>
      apply steady_fatal; reflexivity
  | |- steady (bind _ _) => apply steady_bind; [ | intros ? ]
  | |- steady (when _ _) => apply steady_when
  | |- steady (check_subset _ _ _ _ _ _ _) => unfold check_subset
  | |- steady (check_superset _ _ _ _ _ _ _ _) => unfold check_superset
  | |- steady (check_param_or_type_validator _ _ _ _ _ _) =>
      unfold check_param_or_type_validator
  | |- steady (name_of ?t) => destruct t; simpl
  | |- steady (if ?b then _ else _) => destruct b
  | |- steady (match ?x with _ => _ end) => destruct x
  end.

Lemma steady_check_array_type symbol old_type new_type cmd sn op np u :
  steady (check_array_type symbol old_type new_type cmd sn op np u).
Proof. unfold check_array_type. cbv zeta. repeat steady_step. Qed.

Section ReplySteady.
Variable rec_type :
  IdlType -> option IdlType -> FieldCompatibilityPair -> M unit.
Variable rec_fields : Struct -> Struct -> string -> string -> string -> M unit.
Variable field_pair : FieldCompatibilityPair.

Lemma reply_recursive_def_steady (t n : IdlType) :
  (forall ov, In ov (arms_of t) -> forall nv, steady (rec_type ov nv field_pair)) ->
  (forall os ns, struct_component t os ->
     steady (rec_fields os ns (cmd_name field_pair)
               (old_idl_file_path field_pair) (new_idl_file_path field_pair))) ->
  steady (check_reply_field_type_recursive_def rec_type rec_fields t n field_pair).
Proof.
  intros Harms Hstruct. unfold check_reply_field_type_recursive_def.
  cbv zeta.
  destruct (as_Type n) as [new_attrs | ]; [ | repeat steady_step].
  destruct (as_Type t) as [old_attrs | ]; [ | apply steady_raise].
  repeat match goal with
         | |- steady (if ?b then _ else _) => destruct b
         end; try apply steady_add_error.
  apply steady_bind.
  - repeat steady_step.
  - intros _. destruct t; simpl in Harms, Hstruct; try solve [repeat steady_step].
    apply steady_bind.
    + apply steady_for_each. intros nv _.
      apply steady_for_first.
      * intros ov Hov. apply Harms. exact Hov.
      * repeat steady_step.
    + intros _.
      destruct n; try apply steady_ret.
      destruct variant_struct_type0 as [ns | ]; [ | apply steady_ret].
      destruct variant_struct_type as [os | ]; simpl.
      * apply Hstruct. reflexivity.
      * repeat steady_step.
Qed.

Lemma reply_unwrapped_def_steady (t : IdlType) (n : option IdlType) :
  (forall ov, In ov (arms_of t) -> forall nv, steady (rec_type ov nv field_pair)) ->
  (forall os ns, struct_component t os ->
     steady (rec_fields os ns (cmd_name field_pair)
               (old_idl_file_path field_pair) (new_idl_file_path field_pair))) ->
  steady (check_reply_field_type_unwrapped_def rec_type rec_fields t n field_pair).
Proof.
  intros Harms Hstruct. unfold check_reply_field_type_unwrapped_def. cbv zeta.
  destruct n as [n | ].
  - destruct t; try (apply reply_recursive_def_steady; assumption).
    + repeat steady_step.
    + destruct n; try solve [repeat steady_step].
      apply Hstruct. reflexivity.
  - apply steady_fatal. reflexivity.
Qed.

Lemma reply_type_def_steady (t : IdlType) (n : option IdlType) :
  (forall t', t' = t \/ (exists a, t = ArrayType a t') ->
     forall n', steady (check_reply_field_type_unwrapped_def rec_type
                          rec_fields t' n' field_pair)) ->
  steady (check_reply_field_type_def rec_type rec_fields t n field_pair).
Proof.
  intros H. unfold check_reply_field_type_def.
  apply steady_bind.
  - apply steady_check_array_type.
  - intros [ | | ].
    + apply steady_ret.
    + destruct t; try apply steady_raise.
      destruct n as [[] | ]; try apply steady_raise.
      apply H. right. eexists. reflexivity.
    + apply H. left. reflexivity.
Qed.
End ReplySteady.

Lemma reply_unresolved_steady n p :
  steady (check_reply_field_type_unresolved n p).
Proof.
  unfold check_reply_field_type_unresolved.
  apply steady_bind.
  - apply steady_check_array_type.
  - intros [ | | ]; repeat steady_step.
Qed.

Lemma reply_newly_added_steady old_reply new_reply cmd np :
  steady (check_reply_fields_newly_added old_reply new_reply cmd np).
Proof.
  unfold check_reply_fields_newly_added.
  apply steady_for_each. intros nf _. cbv zeta. repeat steady_step.
Qed.

Lemma reply_checks_steady :
  (forall t,
      (forall n p, steady (check_reply_field_type_unwrapped_def
                             check_reply_field_type_resolved check_reply_fields
                             t n p))
      /\ (forall n p, steady (check_reply_field_type_resolved t n p)))
  /\ (forall s ns cmd op np, steady (check_reply_fields s ns cmd op np))
  /\ (forall f nf cmd op np, steady (check_reply_field f nf cmd op np)).
Proof.
  assert (Hres : forall t,
    (forall n p, steady (check_reply_field_type_unwrapped_def
                           check_reply_field_type_resolved check_reply_fields
                           t n p)) ->
    (forall a e, t = ArrayType a e ->
       forall n p, steady (check_reply_field_type_unwrapped_def
                             check_reply_field_type_resolved check_reply_fields
                             e n p)) ->
    forall n p, steady (check_reply_field_type_resolved t n p)).
  { intros t Ht He n p. rewrite check_reply_field_type_resolved_eq.
    apply reply_type_def_steady.
    intros t' [-> | (a & ->)] n'; [apply Ht | eapply He; reflexivity]. }
  assert (Hleaf : forall t, arms_of t = [] ->
    (forall os, ~ struct_component t os) ->
    (forall a e, t = ArrayType a e ->
       forall n p, steady (check_reply_field_type_unwrapped_def
                             check_reply_field_type_resolved check_reply_fields
                             e n p)) ->
    (forall n p, steady (check_reply_field_type_unwrapped_def
                           check_reply_field_type_resolved check_reply_fields
                           t n p))
    /\ (forall n p, steady (check_reply_field_type_resolved t n p))).
  { intros t Ha Hs He.
    assert (U : forall n p, steady (check_reply_field_type_unwrapped_def
                check_reply_field_type_resolved check_reply_fields t n p)).
    { intros n p. apply reply_unwrapped_def_steady.
      - rewrite Ha. intros ov [].
      - intros os ns H. destruct (Hs os H). }
    split; [exact U | ]. apply Hres; assumption. }
  apply IdlType_mutind.
  - intros a. apply Hleaf; [reflexivity | intros os [] | discriminate].
  - intros a e [IHu IHr]. apply Hleaf; [reflexivity | intros os [] | ].
    intros a' e' E. injection E as _ <-. exact IHu.
  - intros a l IHl s IHs.
    assert (U : forall n p, steady (check_reply_field_type_unwrapped_def
                check_reply_field_type_resolved check_reply_fields
                (VariantType a l s) n p)).
    { intros n p. apply reply_unwrapped_def_steady; simpl.
      - intros ov Hov nv. apply (list_all_In _ _ IHl ov Hov).
      - intros os ns Hs. destruct s as [s | ]; [ | contradiction]. subst.
        apply (option_all_Some _ _ _ IHs eq_refl). }
    split; [exact U | ]. apply Hres; [exact U | discriminate].
  - intros en vs. apply Hleaf; [reflexivity | intros os [] | discriminate].
  - intros s IHs.
    assert (U : forall n p, steady (check_reply_field_type_unwrapped_def
                check_reply_field_type_resolved check_reply_fields
                (StructType s) n p)).
    { intros n p. apply reply_unwrapped_def_steady; simpl.
      - intros ov [].
      - intros os ns ->. apply IHs. }
    split; [exact U | ]. apply Hres; [exact U | discriminate].
  - intros sn fs IHfs ns cmd op np. rewrite check_reply_fields_eq.
    unfold check_reply_fields_def. apply steady_bind.
    + apply steady_for_each. intros f Hf. simpl in Hf.
      apply steady_for_first.
      * intros nf _. apply (list_all_In _ _ IHfs f Hf).
      * repeat steady_step.
    + intros _. apply reply_newly_added_steady.
  - intros fn ty IHty o u d v nf cmd op np. rewrite check_reply_field_eq.
    unfold check_reply_field_def. apply steady_bind.
    + repeat steady_step.
    + intros _. cbv zeta. simpl get_field_type at 1.
      destruct ty as [t | ].
      * apply (option_all_Some _ _ _ IHty eq_refl).
      * apply reply_unresolved_steady.
Qed.

Section ParamSteady.
Variable rec_type :
  IdlType -> option IdlType -> FieldCompatibilityPair -> bool -> M unit.
Variable rec_fields :
  Struct -> Struct -> string -> string -> string -> bool -> M unit.
Variable field_pair : FieldCompatibilityPair.
Variable icp : bool.

Lemma param_recursive_def_steady (t n : IdlType) :
  (forall ov, In ov (arms_of t) ->
     forall nv, steady (rec_type ov nv field_pair icp)) ->
  (forall os ns, struct_component t os ->
     steady (rec_fields os ns (cmd_name field_pair)
               (old_idl_file_path field_pair) (new_idl_file_path field_pair) icp)) ->
  steady (check_param_or_command_type_recursive_def rec_type rec_fields t n
            field_pair icp).
Proof.
  intros Harms Hstruct. unfold check_param_or_command_type_recursive_def.
  cbv zeta.
  destruct (as_Type n) as [new_attrs | ]; [ | repeat steady_step].
  destruct (as_Type t) as [old_attrs | ]; [ | apply steady_raise].
  repeat match goal with
         | |- steady (if ?b then _ else _) => destruct b
         end; try apply steady_add_error.
  apply steady_bind.
  - repeat steady_step.
  - intros _. destruct t; simpl in Harms, Hstruct; try solve [repeat steady_step].
    destruct n; try solve [repeat steady_step].
    apply steady_bind.
    + apply steady_for_each. intros ov Hov.
      apply steady_for_first.
      * intros nv _. apply Harms. exact Hov.
      * repeat steady_step.
    + intros _.
      destruct variant_struct_type as [os | ]; [ | apply steady_ret].
      destruct variant_struct_type0 as [ns | ].
      * apply Hstruct. reflexivity.
      * repeat steady_step.
Qed.

Lemma param_unwrapped_def_steady (t : IdlType) (n : option IdlType) :
  (forall ov, In ov (arms_of t) ->
     forall nv, steady (rec_type ov nv field_pair icp)) ->
  (forall os ns, struct_component t os ->
     steady (rec_fields os ns (cmd_name field_pair)
               (old_idl_file_path field_pair) (new_idl_file_path field_pair) icp)) ->
  steady (check_param_or_command_type_unwrapped_def rec_type rec_fields t n
            field_pair icp).
Proof.
  intros Harms Hstruct. unfold check_param_or_command_type_unwrapped_def.
  cbv zeta.
  destruct n as [n | ].
  - destruct t; try (apply param_recursive_def_steady; assumption).
    + repeat steady_step.
    + destruct n; try solve [repeat steady_step].
      apply Hstruct. reflexivity.
  - apply steady_fatal. reflexivity.
Qed.

Lemma param_type_def_steady (t : IdlType) (n : option IdlType) :
  (forall t', t' = t \/ (exists a, t = ArrayType a t') ->
     forall n', steady (check_param_or_command_type_unwrapped_def rec_type
                          rec_fields t' n' field_pair icp)) ->
  steady (check_param_or_command_type_def rec_type rec_fields t n field_pair icp).
Proof.
  intros H. unfold check_param_or_command_type_def.
  apply steady_bind.
  - apply steady_check_array_type.
  - intros [ | | ].
    + apply steady_ret.
    + destruct t; try apply steady_raise.
      destruct n as [[] | ]; try apply steady_raise.
      apply H. right. eexists. reflexivity.
    + apply H. left. reflexivity.
Qed.
End ParamSteady.

Lemma param_unresolved_steady n p icp :
  steady (check_param_or_command_type_unresolved n p icp).
Proof.
  unfold check_param_or_command_type_unresolved.
  apply steady_bind.
  - apply steady_check_array_type.
  - intros [ | | ]; repeat steady_step.
Qed.

Lemma param_newly_added_steady old_struct new_struct cmd op np icp :
  steady (check_command_params_or_type_struct_fields_newly_added old_struct
            new_struct cmd op np icp).
Proof.
  unfold check_command_params_or_type_struct_fields_newly_added.
  apply steady_for_each. intros nf _. cbv zeta. repeat steady_step.
Qed.

Lemma param_checks_steady :
  (forall t,
      (forall n p icp, steady (check_param_or_command_type_unwrapped_def
                                 check_param_or_command_type_resolved
                                 check_command_params_or_type_struct_fields
                                 t n p icp))
      /\ (forall n p icp, steady (check_param_or_command_type_resolved t n p icp)))
  /\ (forall s ns cmd op np icp,
         steady (check_command_params_or_type_struct_fields s ns cmd op np icp))
  /\ (forall f nf cmd op np tn icp,
         steady (check_command_param_or_type_struct_field f nf cmd op np tn icp)).
Proof.
  assert (Hres : forall t,
    (forall n p icp, steady (check_param_or_command_type_unwrapped_def
                               check_param_or_command_type_resolved
                               check_command_params_or_type_struct_fields
                               t n p icp)) ->
    (forall a e, t = ArrayType a e ->
       forall n p icp, steady (check_param_or_command_type_unwrapped_def
                                 check_param_or_command_type_resolved
                                 check_command_params_or_type_struct_fields
                                 e n p icp)) ->
    forall n p icp, steady (check_param_or_command_type_resolved t n p icp)).
  { intros t Ht He n p icp. rewrite check_param_or_command_type_resolved_eq.
    apply param_type_def_steady.
    intros t' [-> | (a & ->)] n'; [apply Ht | eapply He; reflexivity]. }
  assert (Hleaf : forall t, arms_of t = [] ->
    (forall os, ~ struct_component t os) ->
    (forall a e, t = ArrayType a e ->
       forall n p icp, steady (check_param_or_command_type_unwrapped_def
                                 check_param_or_command_type_resolved
                                 check_command_params_or_type_struct_fields
                                 e n p icp)) ->
    (forall n p icp, steady (check_param_or_command_type_unwrapped_def
                               check_param_or_command_type_resolved
                               check_command_params_or_type_struct_fields
                               t n p icp))
    /\ (forall n p icp, steady (check_param_or_command_type_resolved t n p icp))).
  { intros t Ha Hs He.
    assert (U : forall n p icp, steady (check_param_or_command_type_unwrapped_def
                check_param_or_command_type_resolved
                check_command_params_or_type_struct_fields t n p icp)).
    { intros n p icp. apply param_unwrapped_def_steady.
      - rewrite Ha. intros ov [].
      - intros os ns H. destruct (Hs os H). }
    split; [exact U | ]. apply Hres; assumption. }
  apply IdlType_mutind.
  - intros a. apply Hleaf; [reflexivity | intros os [] | discriminate].
  - intros a e [IHu IHr]. apply Hleaf; [reflexivity | intros os [] | ].
    intros a' e' E. injection E as _ <-. exact IHu.
  - intros a l IHl s IHs.
    assert (U : forall n p icp, steady (check_param_or_command_type_unwrapped_def
                check_param_or_command_type_resolved
                check_command_params_or_type_struct_fields
                (VariantType a l s) n p icp)).
    { intros n p icp. apply param_unwrapped_def_steady; simpl.
      - intros ov Hov nv. apply (list_all_In _ _ IHl ov Hov).
      - intros os ns Hs. destruct s as [s | ]; [ | contradiction]. subst.
        apply (option_all_Some _ _ _ IHs eq_refl). }
    split; [exact U | ]. apply Hres; [exact U | discriminate].
  - intros en vs. apply Hleaf; [reflexivity | intros os [] | discriminate].
  - intros s IHs.
    assert (U : forall n p icp, steady (check_param_or_command_type_unwrapped_def
                check_param_or_command_type_resolved
                check_command_params_or_type_struct_fields
                (StructType s) n p icp)).
    { intros n p icp. apply param_unwrapped_def_steady; simpl.
      - intros ov [].
      - intros os ns ->. apply IHs. }
    split; [exact U | ]. apply Hres; [exact U | discriminate].
  - intros sn fs IHfs ns cmd op np icp.
    rewrite check_command_params_or_type_struct_fields_eq.
    unfold check_command_params_or_type_struct_fields_def. apply steady_bind.
    + apply steady_for_each. intros f Hf. simpl in Hf.
      apply steady_for_first.
      * intros nf _. apply (list_all_In _ _ IHfs f Hf).
      * repeat steady_step.
    + intros _. apply param_newly_added_steady.
  - intros fn ty IHty o u d v nf cmd op np tn icp.
    rewrite check_command_param_or_type_struct_field_eq.
    unfold check_command_param_or_type_struct_field_def. cbv zeta.
    repeat (apply steady_bind; [ repeat steady_step | intros _ ]).
    simpl get_field_type at 1.
    destruct ty as [t | ].
    + apply (option_all_Some _ _ _ IHty eq_refl).
    + apply param_unresolved_steady.
Qed.

Lemma steady_check_reply_field_type old_type new_type p :
  steady (check_reply_field_type old_type new_type p).
Proof.
  destruct old_type as [t | ]; simpl.
  - apply reply_checks_steady.
  - apply reply_unresolved_steady.
Qed.

Lemma steady_check_param_or_command_type old_type new_type p icp :
  steady (check_param_or_command_type old_type new_type p icp).
Proof.
  destruct old_type as [t | ]; simpl.
  - apply param_checks_steady.
  - apply param_unresolved_steady.
Qed.

Lemma steady_check_namespace old_cmd new_cmd op np :
  steady (check_namespace old_cmd new_cmd op np).
Proof.
  unfold check_namespace. cbv zeta.
  destruct (namespace old_cmd); try solve [repeat steady_step].
  destruct (Namespace_eqb (namespace new_cmd) COMMAND_NAMESPACE_TYPE).
  - apply steady_check_param_or_command_type.
  - repeat steady_step.
Qed.

Lemma steady_match_privileges news olds cmd np :
  steady (match_privileges news olds cmd np).
Proof.
  revert olds. induction news as [ | n news IH]; intros olds; simpl.
  - apply steady_ret.
  - destruct (remove_first_match n olds).
    + apply IH.
    + apply steady_bind; [apply steady_add_error | intros _; apply IH].
Qed.

Lemma steady_check_security_access_checks old_ac new_ac cmd np :
  steady (check_security_access_checks old_ac new_ac cmd np).
Proof.
  unfold check_security_access_checks, split_complex_checks. cbv zeta.
  destruct old_ac as [old_ac | ], new_ac as [new_ac | ];
    try solve [repeat steady_step].
  destruct (negb _); [apply steady_add_error | ].
  apply steady_bind; [repeat steady_step | intros _].
  destruct (complex old_ac) as [oc | ]; [ | apply steady_ret].
  destruct (complex new_ac) as [nc | ]; [ | apply steady_ret].
  destruct (Nat.ltb _ _); [apply steady_add_error | ].
  apply steady_bind; [repeat steady_step | intros _].
  destruct (Nat.ltb _ _); [apply steady_add_error | ].
  apply steady_match_privileges.
Qed.

Lemma steady_get_new_commands dir files : steady (get_new_commands dir files).
Proof.
  unfold get_new_commands. apply steady_fold_m. intros s f _.
  apply steady_fold_m. intros s' cmd _.
  unfold get_new_commands_step. repeat steady_step.
Qed.

Lemma steady_check_reply_fields_opt old_reply new_reply cmd op np :
  steady (check_reply_fields_opt old_reply new_reply cmd op np).
Proof.
  unfold check_reply_fields_opt.
  destruct old_reply, new_reply; try apply steady_raise.
  apply reply_checks_steady.
Qed.

Lemma steady_check_compatibility_step dir path table olds cmd :
  steady (check_compatibility_step dir path table olds cmd).
Proof.
  unfold check_compatibility_step. cbv zeta.
  repeat match goal with
         | |- steady (if ?b then _ else _) => destruct b
         end; try solve [repeat steady_step].
  destruct (lookup_command _ _) as [[new_cmd new_path] | ];
    [ | repeat steady_step].
  apply steady_bind; [repeat steady_step | intros _].
  apply steady_bind; [apply param_checks_steady | intros _].
  apply steady_bind; [apply steady_check_namespace | intros _].
  apply steady_bind; [apply steady_check_reply_fields_opt | intros _].
  apply steady_bind; [apply steady_check_security_access_checks | intros _].
  apply steady_ret.
Qed.

(** [check_compatibility] before its final [dump_errors]. *)
Lemma steady_check_compatibility_loops old_dir new_dir old_files new_files :
  steady (bind (get_new_commands new_dir new_files)
            (fun new_commands =>
               fold_m (fun old_commands old_idl_file =>
                         fold_m (check_compatibility_step old_dir
                                   (idl_file_path old_idl_file) new_commands)
                                (commands old_idl_file) old_commands)
                      old_files [])).
Proof.
  apply steady_bind; [apply steady_get_new_commands | intros table].
  apply steady_fold_m. intros s f _.
  apply steady_fold_m. intros s' cmd _.
  apply steady_check_compatibility_step.
Qed.

Lemma bind_assoc {A B C} (m : M A) (f : A -> M B) (g : B -> M C) (c : Ctxt) :
  bind (bind m f) g c = bind m (fun x => bind (f x) g) c.
Proof. unfold bind. destruct (m c); reflexivity. Qed.

Lemma check_compatibility_shape old_dir new_dir old_files new_files :
  exists added (k : Ending (list string)),
    fatal_only added k /\
    forall c,
      check_compatibility old_dir new_dir old_files new_files c
      = match k with
        | Returns _ => Ok tt (dumped_once (extend c added))
        | Exits code =>
            SysExit code
              (mkCtxt (errors c ++ added) (dumped c ++ [errors c ++ added]))
        | Raises e => Raised e (extend c added)
        end.
Proof.
  destruct (steady_check_compatibility_loops old_dir new_dir old_files new_files)
    as (added & k & F & E).
  exists added, k. split; [exact F | ].
  intros c. unfold check_compatibility.
  rewrite <- bind_assoc.
  unfold bind at 1. rewrite E. destruct k; reflexivity.
Qed.

Lemma steady_context_free {A} (m : M A) : steady m -> context_free m.
Proof.
  intros (added & k & _ & E) c. rewrite !E.
  destruct k; simpl; unfold rebase_ctxt, extend; simpl;
    rewrite ?app_nil_r; reflexivity.
Qed.

Lemma steady_exits_only_fatally {A} (m : M A) :
  steady m -> exits_only_fatally m.
Proof.
  intros (added & k & F & E) c code c' H. rewrite E in H.
  destruct k; simpl in H; try discriminate H.
  injection H as <- <-. simpl in F. destruct F as (-> & front & e & -> & He).
  simpl. repeat split.
  exists (errors c ++ front), e. split; [apply app_assoc | exact He].
Qed.

Lemma steady_dumps_nothing {A} (m : M A) : steady m -> dumps_nothing m.
Proof.
  intros (added & k & _ & E) c. rewrite E. destruct k; simpl; auto.
Qed.

Lemma returns_ret {A} (a : A) : always_returns (ret a).
Proof. intros c. exists a, c. reflexivity. Qed.

Lemma returns_add_error k cmd args file icp :
  always_returns (add_error k cmd args file icp).
Proof. intros c. eexists. eexists. reflexivity. Qed.

Lemma returns_bind {A B} (m : M A) (k : A -> M B) :
  always_returns m -> (forall a, always_returns (k a)) ->
  always_returns (bind m k).
Proof.
  intros Hm Hk c. unfold bind. destruct (Hm c) as (a & c' & ->). apply Hk.
Qed.

Lemma returns_when (b : bool) (m : M unit) :
  always_returns m -> always_returns (when b m).
Proof. destruct b; simpl; intros H; [exact H | apply returns_ret]. Qed.

Lemma returns_fold_m {A S} (f : S -> A -> M S) (l : list A) (s : S) :
  (forall s x, always_returns (f s x)) -> always_returns (fold_m f l s).
Proof.
  intros H. revert s. induction l as [ | x l IH]; intros s; simpl.
  - apply returns_ret.
  - apply returns_bind; [apply H | intros s'; apply IH].
Qed.

Ltac returns_step :=
  match goal with
  | |- always_returns (ret _) => apply returns_ret
  | |- always_returns (add_error _ _ _ _ _) => apply returns_add_error
  | |- always_returns (bind _ _) => apply returns_bind; [ | intros ? ]
  | |- always_returns (when _ _) => apply returns_when
  | |- always_returns (if ?b then _ else _) => destruct b
  | |- always_returns (match ?x with _ => _ end) => destruct x
  end.

Lemma returns_match_privileges news olds cmd np :
  always_returns (match_privileges news olds cmd np).
Proof.
  revert olds. induction news as [ | n news IH]; intros olds; simpl.
  - apply returns_ret.
  - destruct (remove_first_match n olds).
    + apply IH.
    + apply returns_bind; [apply returns_add_error | intros _; apply IH].
Qed.

Lemma returns_check_security_access_checks old_ac new_ac cmd np :
  always_returns (check_security_access_checks old_ac new_ac cmd np).
Proof.
  unfold check_security_access_checks, split_complex_checks. cbv zeta.
  destruct old_ac as [old_ac | ], new_ac as [new_ac | ];
    try solve [repeat returns_step].
  destruct (negb _); [apply returns_add_error | ].
  apply returns_bind; [repeat returns_step | intros _].
  destruct (complex old_ac) as [oc | ]; [ | apply returns_ret].
  destruct (complex new_ac) as [nc | ]; [ | apply returns_ret].
  destruct (Nat.ltb _ _); [apply returns_add_error | ].
  apply returns_bind; [repeat returns_step | intros _].
  destruct (Nat.ltb _ _); [apply returns_add_error | ].
  apply returns_match_privileges.
Qed.

(** X1.  The checks never read the error collection: from any context each
    one ends the same way and appends the same errors as from the empty
    context.  This holds for the field reconciliation and type comparison of
    both directions, the namespace and access checks, and the whole run. *)
Theorem checks_are_context_free :
  (forall old_reply new_reply cmd op np,
      context_free (check_reply_fields old_reply new_reply cmd op np))
  /\ (forall old_struct new_struct cmd op np icp,
         context_free (check_command_params_or_type_struct_fields old_struct
                         new_struct cmd op np icp))
  /\ (forall old_type new_type p,
         context_free (check_reply_field_type old_type new_type p))
  /\ (forall old_type new_type p icp,
         context_free (check_param_or_command_type old_type new_type p icp))
  /\ (forall old_cmd new_cmd op np,
         context_free (check_namespace old_cmd new_cmd op np))
  /\ (forall old_ac new_ac cmd np,
         context_free (check_security_access_checks old_ac new_ac cmd np))
  /\ (forall old_dir new_dir old_files new_files,
         context_free (check_compatibility old_dir new_dir old_files new_files)).
Proof.
  split; [ | split; [ | split; [ | split; [ | split; [ | split]]]]]; intros.
  - apply steady_context_free, reply_checks_steady.
  - apply steady_context_free, param_checks_steady.
  - apply steady_context_free, steady_check_reply_field_type.
  - apply steady_context_free, steady_check_param_or_command_type.
  - apply steady_context_free, steady_check_namespace.
  - apply steady_context_free, steady_check_security_access_checks.
  - intros c.
    destruct (check_compatibility_shape old_dir new_dir old_files new_files)
      as (added & k & _ & E).
    rewrite !E. destruct k; simpl; unfold rebase_ctxt, dumped_once, extend;
      simpl; rewrite ?app_nil_r; reflexivity.
Qed.

(** X2.  [sys.exit] is reached only through the unresolved-type tests: when
    a check or the whole run exits, the status is 1, the last recorded error
    is an invalid-type error, and the last thing dumped is the whole error
    sequence. *)
Theorem exits_follow_invalid_type_errors :
  (forall old_reply new_reply cmd op np,
      exits_only_fatally (check_reply_fields old_reply new_reply cmd op np))
  /\ (forall old_struct new_struct cmd op np icp,
         exits_only_fatally (check_command_params_or_type_struct_fields
                               old_struct new_struct cmd op np icp))
  /\ (forall old_type new_type p,
         exits_only_fatally (check_reply_field_type old_type new_type p))
  /\ (forall old_type new_type p icp,
         exits_only_fatally (check_param_or_command_type old_type new_type p icp))
  /\ (forall old_cmd new_cmd op np,
         exits_only_fatally (check_namespace old_cmd new_cmd op np))
  /\ (forall old_ac new_ac cmd np c code c',
         check_security_access_checks old_ac new_ac cmd np c <> SysExit code c')
  /\ (forall old_dir new_dir old_files new_files,
         exits_only_fatally
           (check_compatibility old_dir new_dir old_files new_files)).
Proof.
  split; [ | split; [ | split; [ | split; [ | split; [ | split]]]]]; intros.
  - apply steady_exits_only_fatally, reply_checks_steady.
  - apply steady_exits_only_fatally, param_checks_steady.
  - apply steady_exits_only_fatally, steady_check_reply_field_type.
  - apply steady_exits_only_fatally, steady_check_param_or_command_type.
  - apply steady_exits_only_fatally, steady_check_namespace.
  - destruct (returns_check_security_access_checks old_ac new_ac cmd np c)
      as (a & c0 & ->). discriminate.
  - intros c code c' H.
    destruct (check_compatibility_shape old_dir new_dir old_files new_files)
      as (added & k & F & E).
    rewrite E in H. destruct k; simpl in H; try discriminate H.
    injection H as <- <-. simpl in F. destruct F as (-> & front & e & -> & He).
    simpl. repeat split.
    exists (errors c ++ front), e. split; [apply app_assoc | exact He].
Qed.

Lemma exits_follow_invalid_type_errors_witness :
  exists front e,
    errors (ctxt_of (check_compatibility "old" "new"
                       [mkIDLFile "ping.idl" [unresolved_reply_cmd]]
                       [mkIDLFile "ping.idl" [unresolved_reply_cmd]] empty_ctxt))
    = front ++ [e] /\ is_invalid_type_error e = true.
Proof.
  exact (proj1 (proj2
    (proj2 (proj2 (proj2 (proj2 (proj2 (proj2
       exits_follow_invalid_type_errors)))))
       "old" "new" [mkIDLFile "ping.idl" [unresolved_reply_cmd]]
       [mkIDLFile "ping.idl" [unresolved_reply_cmd]] empty_ctxt 1 _ eq_refl))).
Defined.


(** ** Complex access checks: sorting and matching *)


(** X4.  [split_complex_checks] returns the check strings of the entries
    that have one, in the order of the entries, and the privileges of the
    entries that have one, in non-increasing order of their number of action
    types, privileges with equally many action types in the order of the
    entries.  A string or privilege is returned exactly when some entry
    carries it, and neither list is longer than the list of entries. *)
Theorem split_complex_checks_sorts (complex_checks : list AccessCheck) :
  let checks := fst (split_complex_checks complex_checks) in
  let privileges := snd (split_complex_checks complex_checks) in
  kept_of (map check complex_checks) checks
  /\ sorted_privileges_of complex_checks privileges
  /\ (forall s, In s checks <->
                exists e, In e complex_checks /\ check e = Some s)
  /\ (forall p, In p privileges <->
                exists e, In e complex_checks /\ privilege e = Some p)
  /\ List.length checks <= List.length complex_checks
  /\ List.length privileges <= List.length complex_checks.
Proof.
  cbv zeta. split; [apply somes_kept | ].
  split; [apply split_sorted_privileges | ].
  unfold split_complex_checks. cbn [fst snd].
  split; [intros s; apply In_somes_map | ].
  split.
  - intros p. rewrite <- In_somes_map. split; intros H.
    + apply (Permutation_in _ (sorted_by_len_desc_perm _)). exact H.
    + apply (Permutation_in _ (Permutation_sym (sorted_by_len_desc_perm _))).
      exact H.
  - split.
    + eapply Nat.le_trans; [apply somes_length | ].
      rewrite length_map. apply Nat.le_refl.
    + rewrite (Permutation_length (sorted_by_len_desc_perm _)).
      eapply Nat.le_trans; [apply somes_length | ].
      rewrite length_map. apply Nat.le_refl.
Qed.


Lemma split_complex_checks_sorts_witness :
  kept_of (map check mixed_complex_sample) ["is_authenticated"; "is_admin"]
  /\ sorted_privileges_of mixed_complex_sample
       [find_and_kill_privilege; find_privilege; kill_privilege].
Proof.
  destruct (split_complex_checks_sorts mixed_complex_sample) as (K & S & _).
  exact (conj K S).
Defined.

Lemma greedy_match_zero (news olds : list Privilege) (k : nat) :
  greedy_match news olds k -> k = 0 ->
  exists assigned rest,
    Permutation olds (assigned ++ rest) /\
    Forall2 covers assigned news.
Proof.
  induction 1 as [olds | n news before o after k Hb Hc Hg IH
                  | n news olds k Hf Hg IH]; intros Hk.
  - exists [], olds. split; [apply Permutation_refl | constructor].
  - destruct (IH Hk) as (assigned & rest & Hp & Hf).
    exists (o :: assigned), rest. split.
    + simpl. eapply Permutation_trans;
        [apply Permutation_sym, Permutation_middle | ].
      apply perm_skip. exact Hp.
    + constructor; assumption.
  - discriminate Hk.
Qed.

Lemma silent_matching_is_one_to_one (news olds : list Privilege)
  (cmd np : string) (c : Ctxt) :
  errors (ctxt_of (match_privileges news olds cmd np c)) = errors c ->
  exists assigned rest,
    Permutation olds (assigned ++ rest) /\
    Forall2 covers assigned news.
Proof.
  intros H.
  destruct (match_privileges_greedy news olds cmd np c) as (k & G & E).
  rewrite E in H. simpl in H.
  apply (greedy_match_zero news olds k G).
  destruct k; [reflexivity | ].
  simpl in H. apply (f_equal (@List.length _)) in H.
  rewrite length_app in H. simpl in H. lia.
Qed.

Lemma app_eq_self {A} (l added : list A) : l ++ added = l -> added = [].
Proof.
  intros H. apply (app_inv_head l). rewrite app_nil_r. exact H.
Qed.

Lemma match_privileges_extends (news olds : list Privilege) (cmd np : string)
  (c : Ctxt) (e : CompatError) :
  errors (ctxt_of (match_privileges news olds cmd np (record e c))) <> errors c.
Proof.
  destruct (match_privileges_greedy news olds cmd np (record e c)) as (k & _ & E).
  rewrite E. simpl. rewrite <- app_assoc. intros H.
  apply app_eq_self in H. discriminate H.
Qed.

(** X5.  When the comparison of two complex access checks records nothing,
    the new check is a narrowing of the old one: it has no more entries, its
    check strings are among the old ones, and its privileges are covered
    one-to-one by old privileges -- each new privilege by an old one of its
    own, with equal resource pattern and action types among the old ones. *)
Theorem silent_complex_check_is_narrowing (old_complex new_complex : list AccessCheck)
  (cmd : Command) (np : string) (c : Ctxt) :
  errors (ctxt_of (check_security_access_checks
                     (Some (AccessComplex old_complex))
                     (Some (AccessComplex new_complex)) cmd np c)) = errors c ->
  List.length new_complex <= List.length old_complex
  /\ incl (somes (map check new_complex)) (somes (map check old_complex))
  /\ exists assigned rest new_privileges,
       Permutation (somes (map privilege old_complex)) (assigned ++ rest) /\
       Permutation new_privileges (somes (map privilege new_complex)) /\
       Forall2 covers assigned new_privileges.
Proof.
  unfold check_security_access_checks, split_complex_checks. simpl.
  unfold bind at 1. simpl.
  set (old_checks := somes (map check old_complex)).
  set (new_checks := somes (map check new_complex)).
  set (olds := somes (map privilege old_complex)).
  set (news := somes (map privilege new_complex)).
  destruct (Nat.ltb (List.length old_complex) (List.length new_complex)) eqn:Hlen.
  - simpl. intros H. apply app_eq_self in H. discriminate H.
  - apply Nat.ltb_ge in Hlen. unfold bind.
    destruct (issubset String.eqb new_checks old_checks) eqn:Hsub; simpl.
    + apply (issubset_incl _ String.eqb_eq) in Hsub.
      destruct (Nat.ltb (List.length (sorted_by_len_desc olds))
                        (List.length (sorted_by_len_desc news))).
      * simpl. intros H. apply app_eq_self in H. discriminate H.
      * intros H. apply silent_matching_is_one_to_one in H.
        destruct H as (assigned & rest & Hp & Hf).
        split; [exact Hlen | ]. split; [exact Hsub | ].
        exists assigned, rest, (sorted_by_len_desc news).
        split; [ | split; [apply sorted_by_len_desc_perm | exact Hf]].
        eapply Permutation_trans;
          [apply Permutation_sym, sorted_by_len_desc_perm | exact Hp].
    + destruct (Nat.ltb (List.length (sorted_by_len_desc olds))
                        (List.length (sorted_by_len_desc news))).
      * simpl. rewrite <- app_assoc. intros H. apply app_eq_self in H.
        discriminate H.
      * intros H. exfalso. revert H. apply match_privileges_extends.
Qed.

Lemma silent_complex_check_is_narrowing_witness :
  exists assigned rest new_privileges,
    Permutation [find_and_kill_privilege; kill_privilege] (assigned ++ rest) /\
    Permutation new_privileges [find_privilege; kill_privilege] /\
    Forall2 covers assigned new_privileges.
Proof.
  exact (proj2 (proj2 (silent_complex_check_is_narrowing
           [mkAccessCheck None (Some find_and_kill_privilege);
            mkAccessCheck (Some "is_authenticated") (Some kill_privilege)]
           [mkAccessCheck None (Some find_privilege);
            mkAccessCheck (Some "is_authenticated") (Some kill_privilege)]
           plain_cmd "new.idl" empty_ctxt eq_refl))).
Defined.

(** X6.  The converse fails, because the matching is greedy: there are
    complex access checks whose new privileges are covered one-to-one by
    old privileges and for which an unmatched privilege is nevertheless
    reported.  Here the new privilege on [killCursors] takes the old
    privilege on [find] and [killCursors], which the new privilege on
    [find] would need. *)
Theorem greedy_matching_is_incomplete :
  exists old_complex new_complex assigned,
    Permutation (somes (map privilege old_complex)) assigned
    /\ Forall2 covers assigned (somes (map privilege new_complex))
    /\ incl (somes (map check new_complex)) (somes (map check old_complex))
    /\ List.length new_complex = List.length old_complex
    /\ check_security_access_checks (Some (AccessComplex old_complex))
         (Some (AccessComplex new_complex)) plain_cmd "new.idl" empty_ctxt
       = Ok tt (record (complex_error new_complex_privileges_not_subset_error
                          plain_cmd "new.idl") empty_ctxt).
Proof.
  exists [mkAccessCheck None (Some find_and_kill_privilege);
          mkAccessCheck None (Some kill_privilege)],
         [mkAccessCheck None (Some kill_privilege);
          mkAccessCheck None (Some find_privilege)],
         [kill_privilege; find_and_kill_privilege].
  split; [apply perm_swap | ].
  split.
  - simpl. constructor; [ | constructor; [ | constructor]].
    + split; [reflexivity | ]. intros x [<- | []]. simpl. auto.
    + split; [reflexivity | ]. intros x [<- | []]. simpl. auto.
  - split; [intros x [] | ]. split; reflexivity.
Qed.

(** ** The type comparison *)

(** X7.  Two array types are compared through their element types alone:
    when the elements are not arrays themselves, comparing the arrays is
    comparing the elements, whatever the arrays' own attributes.  When a
    stable field has an array on one side only and both types resolve, the
    comparison records the not-array error -- against the new file if the
    old type is the array, else against the old file -- and stops. *)
Theorem arrays_compare_their_elements (a b : TypeAttrs) (e f old_type new_type : IdlType)
  (p : FieldCompatibilityPair) (icp : bool) (c : Ctxt) :
  (is_ArrayType (Some e) = false -> is_ArrayType (Some f) = false ->
   check_reply_field_type (Some (ArrayType a e)) (Some (ArrayType b f)) p c
   = check_reply_field_type (Some e) (Some f) p c
   /\ check_param_or_command_type (Some (ArrayType a e)) (Some (ArrayType b f))
        p icp c
      = check_param_or_command_type (Some e) (Some f) p icp c)
  /\ (old_unstable p = false ->
      is_ArrayType (Some old_type) = negb (is_ArrayType (Some new_type)) ->
      check_reply_field_type (Some old_type) (Some new_type) p c
      = Ok tt (record (not_array_error "reply_field" "type" old_type new_type p) c)
      /\ check_param_or_command_type (Some old_type) (Some new_type) p icp c
         = Ok tt (record (not_array_error (array_symbol icp)
                            (array_symbol_name p icp) old_type new_type p) c)).
Proof.
  split.
  - intros He Hf.
    unfold check_reply_field_type, check_param_or_command_type.
    rewrite !check_reply_field_type_resolved_eq,
      !check_param_or_command_type_resolved_eq.
    unfold check_reply_field_type_def, check_param_or_command_type_def,
      check_array_type, bind.
    rewrite He, Hf. simpl. split; reflexivity.
  - intros Hst Hx.
    unfold check_reply_field_type, check_param_or_command_type.
    rewrite !check_reply_field_type_resolved_eq,
      !check_param_or_command_type_resolved_eq.
    unfold check_reply_field_type_def, check_param_or_command_type_def,
      check_array_type, bind, not_array_error.
    rewrite Hx, Hst.
    destruct (is_ArrayType (Some new_type)); simpl; split; reflexivity.
Qed.

Lemma arrays_compare_their_elements_witness :
  check_reply_field_type (Some array_of_string) (Some array_of_string)
    stable_pair empty_ctxt
  = check_reply_field_type (Some string_type) (Some string_type) stable_pair
      empty_ctxt
  /\ check_reply_field_type (Some array_of_string) (Some string_type)
       stable_pair empty_ctxt
     = Ok tt (record (not_array_error "reply_field" "type" array_of_string
                        string_type stable_pair) empty_ctxt).
Proof.
  split.
  - exact (proj1 (proj1 (arrays_compare_their_elements _ _ string_type
                           string_type string_type string_type stable_pair true
                           empty_ctxt) eq_refl eq_refl)).
  - exact (proj1 (proj2 (arrays_compare_their_elements
                           (mkTypeAttrs "" [] None None None)
                           (mkTypeAttrs "" [] None None None)
                           string_type string_type array_of_string string_type
                           stable_pair true empty_ctxt) eq_refl eq_refl)).
Defined.

Lemma unwrapped_non_array_reply (t n : IdlType) (p : FieldCompatibilityPair)
  (c : Ctxt) :
  is_ArrayType (Some t) = false -> is_ArrayType (Some n) = false ->
  check_reply_field_type (Some t) (Some n) p c
  = check_reply_field_type_unwrapped_def check_reply_field_type_resolved
      check_reply_fields t (Some n) p c.
Proof.
  intros Ht Hn. unfold check_reply_field_type.
  rewrite check_reply_field_type_resolved_eq.
  unfold check_reply_field_type_def, check_array_type, bind.
  rewrite Ht, Hn. reflexivity.
Qed.

Lemma unwrapped_non_array_param (t n : IdlType) (p : FieldCompatibilityPair)
  (icp : bool) (c : Ctxt) :
  is_ArrayType (Some t) = false -> is_ArrayType (Some n) = false ->
  check_param_or_command_type (Some t) (Some n) p icp c
  = check_param_or_command_type_unwrapped_def check_param_or_command_type_resolved
      check_command_params_or_type_struct_fields t (Some n) p icp c.
Proof.
  intros Ht Hn. unfold check_param_or_command_type.
  rewrite check_param_or_command_type_resolved_eq.
  unfold check_param_or_command_type_def, check_array_type, bind.
  rewrite Ht, Hn. reflexivity.
Qed.

(** X8.  For two plain scalar types that do not carry ["any"], an unstable
    old field tolerates every change of the serialization kinds.  For a
    stable one, the reply comparison records the not-subset error exactly
    when some new kind is not an old kind, and the parameter comparison the
    not-superset error exactly when some old kind is not a new kind; nothing
    else is recorded. *)
Theorem scalar_kinds_direction (a b : TypeAttrs) (p : FieldCompatibilityPair)
  (icp : bool) (c : Ctxt) :
  any_in a = false -> any_in b = false ->
  let out := check_reply_field_type (Some (Type_ a)) (Some (Type_ b)) p c in
  let inp := check_param_or_command_type (Some (Type_ a)) (Some (Type_ b)) p
               icp c in
  (old_unstable p = true -> out = Ok tt c /\ inp = Ok tt c)
  /\ (old_unstable p = false ->
      (incl (bson_serialization_type b) (bson_serialization_type a) ->
       out = Ok tt c)
      /\ (~ incl (bson_serialization_type b) (bson_serialization_type a) ->
          out = Ok tt (record (reply_not_subset_error p (name b)) c))
      /\ (incl (bson_serialization_type a) (bson_serialization_type b) ->
          inp = Ok tt c)
      /\ (~ incl (bson_serialization_type a) (bson_serialization_type b) ->
          inp = Ok tt (record (param_not_superset_error p (name b) icp) c))).
Proof.
  intros Ha Hb. cbv zeta.
  rewrite unwrapped_non_array_reply, unwrapped_non_array_param by reflexivity.
  unfold check_reply_field_type_unwrapped_def,
    check_param_or_command_type_unwrapped_def,
    check_reply_field_type_recursive_def,
    check_param_or_command_type_recursive_def, check_subset, check_superset.
  cbv zeta. cbn [as_Type]. cbv iota. rewrite Ha, Hb. cbn [andb negb].
  unfold is_VariantType, when.
  split.
  - intros Hu. rewrite Hu. split; reflexivity.
  - intros Hu. rewrite Hu. cbn [negb].
    repeat split; intros H.
    + apply (issubset_incl _ String.eqb_eq) in H. rewrite H. reflexivity.
    + apply (issubset_not_incl _ String.eqb_eq) in H. rewrite H. reflexivity.
    + apply (issubset_incl _ String.eqb_eq) in H. rewrite H. reflexivity.
    + apply (issubset_not_incl _ String.eqb_eq) in H. rewrite H. reflexivity.
Qed.

Lemma scalar_kinds_direction_witness :
  check_reply_field_type (Some int_or_string_type) (Some string_type)
    stable_pair empty_ctxt = Ok tt empty_ctxt
  /\ check_param_or_command_type (Some int_or_string_type) (Some string_type)
       stable_pair true empty_ctxt
     = Ok tt (record (param_not_superset_error stable_pair "string" true)
                empty_ctxt).
Proof.
  pose proof (proj2 (scalar_kinds_direction
                (mkTypeAttrs "intOrString" ["int"; "string"] (Some "IntOrString")
                   None None)
                (mkTypeAttrs "string" ["string"] (Some "std::string") None None)
                stable_pair true empty_ctxt eq_refl eq_refl) eq_refl)
    as (Hsub & _ & _ & Hsup).
  split.
  - apply Hsub. intros x [<- | []]. right. left. reflexivity.
  - apply Hsup. intros H. destruct (H "int") as [E | []].
    + left. reflexivity.
    + discriminate E.
Defined.

(** X9.  Between two scalar or variant types, removing ["any"] records the
    old-any error and introducing it records the new-any error; either way
    that error is the only one, with or without allowlist entry and whether
    or not the old field is unstable. *)
Theorem any_kind_transitions (old_type new_type : IdlType) (a b : TypeAttrs)
  (p : FieldCompatibilityPair) (icp : bool) (c : Ctxt) :
  as_Type old_type = Some a -> as_Type new_type = Some b ->
  is_ArrayType (Some old_type) = false -> is_ArrayType (Some new_type) = false ->
  (any_in a = true -> any_in b = false ->
   check_reply_field_type (Some old_type) (Some new_type) p c
   = Ok tt (record (reply_any_error old_reply_field_bson_any_error p (name a)
                      (old_idl_file_path p)) c)
   /\ check_param_or_command_type (Some old_type) (Some new_type) p icp c
      = Ok tt (record (param_any_error old_command_or_param_type_bson_any_error
                         p (name a) (old_idl_file_path p) icp) c))
  /\ (any_in a = false -> any_in b = true ->
      check_reply_field_type (Some old_type) (Some new_type) p c
      = Ok tt (record (reply_any_error new_reply_field_bson_any_error p (name a)
                         (new_idl_file_path p)) c)
      /\ check_param_or_command_type (Some old_type) (Some new_type) p icp c
         = Ok tt (record (param_any_error
                            new_command_or_param_type_bson_any_error
                            p (name b) (new_idl_file_path p) icp) c)).
Proof.
  intros Ho Hn Hoa Hna.
  rewrite unwrapped_non_array_reply, unwrapped_non_array_param by assumption.
  assert (Hr : check_reply_field_type_unwrapped_def
                 check_reply_field_type_resolved check_reply_fields old_type
                 (Some new_type) p c
               = check_reply_field_type_recursive_def
                   check_reply_field_type_resolved check_reply_fields old_type
                   new_type p c).
  { destruct old_type; simpl in Ho; try discriminate Ho; reflexivity. }
  assert (Hp : check_param_or_command_type_unwrapped_def
                 check_param_or_command_type_resolved
                 check_command_params_or_type_struct_fields old_type
                 (Some new_type) p icp c
               = check_param_or_command_type_recursive_def
                   check_param_or_command_type_resolved
                   check_command_params_or_type_struct_fields old_type
                   new_type p icp c).
  { destruct old_type; simpl in Ho; try discriminate Ho; reflexivity. }
  rewrite Hr, Hp.
  unfold check_reply_field_type_recursive_def,
    check_param_or_command_type_recursive_def. cbv zeta. rewrite Ho, Hn.
  split; intros H1 H2; rewrite H1, H2; simpl; split; reflexivity.
Qed.

Lemma any_kind_transitions_witness :
  check_reply_field_type (Some any_type) (Some string_type) unstable_pair
    empty_ctxt
  = Ok tt (record (reply_any_error old_reply_field_bson_any_error unstable_pair
                     "any_t" "old.idl") empty_ctxt).
Proof.
  exact (proj1 (proj1 (any_kind_transitions any_type string_type _ _
                         unstable_pair true empty_ctxt eq_refl eq_refl eq_refl
                         eq_refl) eq_refl eq_refl)).
Defined.

Lemma option_eqb_eq (x y : option string) :
  option_eqb String.eqb x y = true <-> x = y.
Proof.
  destruct x as [x | ], y as [y | ]; simpl; split; intros H;
    try discriminate; try reflexivity.
  - apply String.eqb_eq in H. congruence.
  - injection H as ->. apply String.eqb_refl.
Qed.

Lemma option_eqb_neq (x y : option string) :
  negb (option_eqb String.eqb x y) = true <-> x <> y.
Proof.
  rewrite negb_true_iff, <- not_true_iff_false, option_eqb_eq. reflexivity.
Qed.

Lemma stable_and_neq (u : bool) (x y : option string) :
  negb u && negb (option_eqb String.eqb x y) = true <-> u = false /\ x <> y.
Proof.
  rewrite andb_true_iff, negb_true_iff, option_eqb_neq. reflexivity.
Qed.

Lemma stable_and_not_incl (u : bool) (l1 l2 : list string) :
  negb u && negb (issubset String.eqb l1 l2) = true
  <-> u = false /\ ~ incl l1 l2.
Proof.
  rewrite andb_true_iff, !negb_true_iff. split; intros [Hu H]; split; trivial.
  - intros Hi. apply (issubset_incl _ String.eqb_eq) in Hi. congruence.
  - apply (issubset_not_incl _ String.eqb_eq). exact H.
Qed.

Lemma In_flag (b : bool) (e e' : CompatError) :
  In e (flag b e') <-> b = true /\ e' = e.
Proof.
  destruct b; simpl; split.
  - intros [H | []]. split; [reflexivity | exact H].
  - intros [_ H]. left. exact H.
  - intros [].
  - intros [H _]. discriminate H.
Qed.

Lemma Forall_flag (P : CompatError -> Prop) (b : bool) (e : CompatError) :
  P e -> Forall P (flag b e).
Proof. intros H. destruct b; simpl; auto. Qed.

Lemma four_flags (b1 b2 b3 b4 : bool) (e1 e2 e3 e4 : CompatError) :
  kind e1 <> kind e2 -> kind e1 <> kind e3 -> kind e1 <> kind e4 ->
  kind e2 <> kind e3 -> kind e2 <> kind e4 -> kind e3 <> kind e4 ->
  let added := (flag b1 e1 ++ flag b2 e2 ++ flag b3 e3 ++ flag b4 e4)%list in
  (In e1 added <-> b1 = true) /\ (In e2 added <-> b2 = true)
  /\ (In e3 added <-> b3 = true) /\ (In e4 added <-> b4 = true)
  /\ Forall (fun e => e = e1 \/ e = e2 \/ e = e3 \/ e = e4) added.
Proof.
  intros H12 H13 H14 H23 H24 H34. cbv zeta.
  rewrite !in_app_iff, !In_flag.
  split; [ | split; [ | split; [ | split]]].
  - split.
    + intros [[H _] | [[_ E] | [[_ E] | [_ E]]]]; trivial; congruence.
    + intros H. left. split; [exact H | reflexivity].
  - split.
    + intros [[_ E] | [[H _] | [[_ E] | [_ E]]]]; trivial; congruence.
    + intros H. right. left. split; [exact H | reflexivity].
  - split.
    + intros [[_ E] | [[_ E] | [[H _] | [_ E]]]]; trivial; congruence.
    + intros H. right. right. left. split; [exact H | reflexivity].
  - split.
    + intros [[_ E] | [[_ E] | [[_ E] | [H _]]]]; trivial; congruence.
    + intros H. right. right. right. split; [exact H | reflexivity].
  - repeat (apply Forall_app; split); apply Forall_flag; auto.
Qed.

(** X10.  When both scalar types carry ["any"] and the allowlist key is
    registered, the comparison returns having recorded, in this order and
    nothing else: the cpp-type error if the C++ types differ (also for an
    unstable old field); the serializer and the deserializer error if the old
    field is stable and the respective functions differ; and, for a stable
    old field, the not-subset (reply) or not-superset (parameter) error of
    the serialization kinds. *)
Theorem registered_any_identity (a b : TypeAttrs) (p : FieldCompatibilityPair)
  (icp : bool) (c : Ctxt) :
  any_in a = true -> any_in b = true ->
  let u := old_unstable p in
  let new_path := new_idl_file_path p in
  (allowed (reply_allow_name (cmd_name p) (pair_field_name p)) = true ->
   let e1 := reply_any_error reply_field_cpp_type_not_equal_error p (name b)
               new_path in
   let e2 := reply_any_error reply_field_serializer_not_equal_error p (name b)
               new_path in
   let e3 := reply_any_error reply_field_deserializer_not_equal_error p
               (name b) new_path in
   let e4 := reply_not_subset_error p (name b) in
   exists added,
     check_reply_field_type (Some (Type_ a)) (Some (Type_ b)) p c
     = Ok tt (extend c added)
     /\ (In e1 added <-> cpp_type a <> cpp_type b)
     /\ (In e2 added <-> u = false /\ serializer a <> serializer b)
     /\ (In e3 added <-> u = false /\ deserializer a <> deserializer b)
     /\ (In e4 added <->
         u = false
         /\ ~ incl (bson_serialization_type b) (bson_serialization_type a))
     /\ Forall (fun e => e = e1 \/ e = e2 \/ e = e3 \/ e = e4) added)
  /\ (allowed (param_allow_name (cmd_name p) (pair_field_name p) icp) = true ->
      let e1 := param_any_error command_or_param_cpp_type_not_equal_error p
                  (name b) new_path icp in
      let e2 := param_any_error command_or_param_serializer_not_equal_error p
                  (name b) new_path icp in
      let e3 := param_any_error command_or_param_deserializer_not_equal_error p
                  (name b) new_path icp in
      let e4 := param_not_superset_error p (name b) icp in
      exists added,
        check_param_or_command_type (Some (Type_ a)) (Some (Type_ b)) p icp c
        = Ok tt (extend c added)
        /\ (In e1 added <-> cpp_type a <> cpp_type b)
        /\ (In e2 added <-> u = false /\ serializer a <> serializer b)
        /\ (In e3 added <-> u = false /\ deserializer a <> deserializer b)
        /\ (In e4 added <->
            u = false
            /\ ~ incl (bson_serialization_type a) (bson_serialization_type b))
        /\ Forall (fun e => e = e1 \/ e = e2 \/ e = e3 \/ e = e4) added).
Proof.
  intros Ha Hb. cbv zeta.
  rewrite unwrapped_non_array_reply, unwrapped_non_array_param by reflexivity.
  unfold check_reply_field_type_unwrapped_def,
    check_param_or_command_type_unwrapped_def,
    check_reply_field_type_recursive_def,
    check_param_or_command_type_recursive_def, check_subset, check_superset.
  cbv zeta. cbn [as_Type]. cbv iota. rewrite Ha, Hb. cbn [andb negb].
  unfold is_VariantType.
  split; intros Hkey; rewrite Hkey; cbn [negb].
  - match goal with
    | |- exists added, _ /\ (In ?e1 _ <-> _) /\ (In ?e2 _ <-> _)
                       /\ (In ?e3 _ <-> _) /\ (In ?e4 _ <-> _) /\ _ =>
        pose proof (four_flags
          (negb (option_eqb String.eqb (cpp_type a) (cpp_type b)))
          (negb (old_unstable p)
           && negb (option_eqb String.eqb (serializer a) (serializer b)))
          (negb (old_unstable p)
           && negb (option_eqb String.eqb (deserializer a) (deserializer b)))
          (negb (old_unstable p)
           && negb (issubset String.eqb (bson_serialization_type b)
                      (bson_serialization_type a)))
          e1 e2 e3 e4) as HF
    end.
    cbv zeta in HF.
    destruct HF as (H1 & H2 & H3 & H4 & H5); try (simpl; discriminate).
    eexists. split; [ | split; [ | split; [ | split; [ | split]]]];
      [ | rewrite <- option_eqb_neq; exact H1
        | rewrite <- stable_and_neq; exact H2
        | rewrite <- stable_and_neq; exact H3
        | rewrite <- stable_and_not_incl; exact H4
        | exact H5].
    unfold when, bind, flag, reply_any_error, reply_not_subset_error.
    destruct (option_eqb String.eqb (cpp_type a) (cpp_type b)),
      (old_unstable p),
      (option_eqb String.eqb (serializer a) (serializer b)),
      (option_eqb String.eqb (deserializer a) (deserializer b)),
      (issubset String.eqb (bson_serialization_type b)
         (bson_serialization_type a)); ctxt_eq.
  - match goal with
    | |- exists added, _ /\ (In ?e1 _ <-> _) /\ (In ?e2 _ <-> _)
                       /\ (In ?e3 _ <-> _) /\ (In ?e4 _ <-> _) /\ _ =>
        pose proof (four_flags
          (negb (option_eqb String.eqb (cpp_type a) (cpp_type b)))
          (negb (old_unstable p)
           && negb (option_eqb String.eqb (serializer a) (serializer b)))
          (negb (old_unstable p)
           && negb (option_eqb String.eqb (deserializer a) (deserializer b)))
          (negb (old_unstable p)
           && negb (issubset String.eqb (bson_serialization_type a)
                      (bson_serialization_type b)))
          e1 e2 e3 e4) as HF
    end.
    cbv zeta in HF.
    destruct HF as (H1 & H2 & H3 & H4 & H5); try (simpl; discriminate).
    eexists. split; [ | split; [ | split; [ | split; [ | split]]]];
      [ | rewrite <- option_eqb_neq; exact H1
        | rewrite <- stable_and_neq; exact H2
        | rewrite <- stable_and_neq; exact H3
        | rewrite <- stable_and_not_incl; exact H4
        | exact H5].
    unfold when, bind, flag, param_any_error, param_not_superset_error.
    destruct (option_eqb String.eqb (cpp_type a) (cpp_type b)),
      (old_unstable p),
      (option_eqb String.eqb (serializer a) (serializer b)),
      (option_eqb String.eqb (deserializer a) (deserializer b)),
      (issubset String.eqb (bson_serialization_type a)
         (bson_serialization_type b)); ctxt_eq.
Qed.

Lemma registered_any_identity_witness :
  exists added,
    check_reply_field_type (Some (any_with_cpp_type "A"))
      (Some (any_with_cpp_type "B")) allowed_any_pair empty_ctxt
    = Ok tt (extend empty_ctxt added)
    /\ In (reply_any_error reply_field_cpp_type_not_equal_error allowed_any_pair
             "any_t" "new.idl") added.
Proof.
  destruct (proj1 (registered_any_identity
                     (mkTypeAttrs "any_t" ["any"] (Some "A") None None)
                     (mkTypeAttrs "any_t" ["any"] (Some "B") None None)
                     allowed_any_pair false empty_ctxt eq_refl eq_refl) eq_refl)
    as (added & E & H1 & _).
  exists added. split; [exact E | apply H1; discriminate].
Defined.

(** X11.  When a resolved type changes its kind between scalar, enum and
    struct (neither side being an array), an unstable old field records
    nothing, with or without ["any"] on either side, and a stable one records
    exactly one error: the one named after the kind of the old type, with
    the names of the new and of the old type. *)
Theorem kind_change_is_one_error (old_type new_type : IdlType)
  (p : FieldCompatibilityPair) (icp : bool) (c : Ctxt) :
  is_ArrayType (Some old_type) = false -> is_ArrayType (Some new_type) = false ->
  kind_of old_type <> kind_of new_type ->
  (old_unstable p = true ->
   check_reply_field_type (Some old_type) (Some new_type) p c = Ok tt c
   /\ check_param_or_command_type (Some old_type) (Some new_type) p icp c
      = Ok tt c)
  /\ (old_unstable p = false ->
      check_reply_field_type (Some old_type) (Some new_type) p c
      = Ok tt (record (reply_kind_change_error old_type new_type p) c)
      /\ check_param_or_command_type (Some old_type) (Some new_type) p icp c
         = Ok tt (record (param_kind_change_error old_type new_type p icp) c)).
Proof.
  intros Ho Hn Hk.
  rewrite unwrapped_non_array_reply, unwrapped_non_array_param by assumption.
  unfold check_reply_field_type_unwrapped_def,
    check_param_or_command_type_unwrapped_def,
    check_reply_field_type_recursive_def,
    check_param_or_command_type_recursive_def,
    reply_kind_change_error, param_kind_change_error.
  cbv zeta.
  split; intros Hu; rewrite Hu;
    destruct old_type, new_type; simpl in Ho, Hn, Hk;
      try discriminate; try congruence; split; reflexivity.
Qed.

Lemma kind_change_is_one_error_witness :
  check_reply_field_type (Some color_enum) (Some string_type) stable_pair
    empty_ctxt
  = Ok tt (record (reply_kind_change_error color_enum string_type stable_pair)
             empty_ctxt).
Proof.
  refine (proj1 (proj2 (kind_change_is_one_error color_enum string_type
                          stable_pair true empty_ctxt eq_refl eq_refl _)
                   eq_refl)).
  discriminate.
Defined.


Lemma ret_bind {A B} (a : A) (k : A -> M B) (c : Ctxt) :
  bind (ret a) k c = k a c.
Proof. reflexivity. Qed.

Lemma for_first_absent {A} (body : A -> M unit) (p : A -> bool)
  (orelse : M unit) (l : list A) :
  (forall y, In y l -> p y = false) -> for_first body p orelse l = orelse.
Proof.
  induction l as [ | x l IH]; intros H; simpl; [reflexivity | ].
  rewrite (H x (or_introl eq_refl)). apply IH. intros y Hy. apply H.
  right. exact Hy.
Qed.

Lemma for_first_found {A} (body : A -> M unit) (p : A -> bool)
  (orelse : M unit) (front back : list A) (x : A) :
  (forall y, In y front -> p y = false) -> p x = true ->
  for_first body p orelse (front ++ x :: back) = body x.
Proof.
  induction front as [ | y front IH]; intros H Hx; simpl.
  - rewrite Hx. reflexivity.
  - rewrite (H y (or_introl eq_refl)). apply IH; trivial.
    intros z Hz. apply H. right. exact Hz.
Qed.

(** X12.  A variant type replaced by a single scalar type, neither carrying
    ["any"].  In a reply this is a narrowing: if an arm of the old variant
    has the name of the new type, the outcome is that of comparing the first
    such arm with the new type; if none has, a stable old field records the
    variant-not-subset error and an unstable one nothing.  As a parameter or
    command type it is never accepted on a stable field: the not-variant
    error is recorded whatever the arms are. *)
Theorem variant_narrowed_to_single_type (va b : TypeAttrs) (arms : list IdlType)
  (s : option Struct) (p : FieldCompatibilityPair) (icp : bool) (c : Ctxt) :
  any_in va = false -> any_in b = false ->
  let old_type := VariantType va arms s in
  (forall front arm back,
      arms = (front ++ arm :: back)%list ->
      (forall y, In y front -> type_name y <> name b) ->
      type_name arm = name b ->
      check_reply_field_type (Some old_type) (Some (Type_ b)) p c
      = check_reply_field_type (Some arm) (Some (Type_ b)) p c)
  /\ ((forall y, In y arms -> type_name y <> name b) ->
      check_reply_field_type (Some old_type) (Some (Type_ b)) p c
      = if old_unstable p then Ok tt c
        else Ok tt (record (reply_any_error
                              new_reply_field_variant_type_not_subset_error p
                              (name b) (new_idl_file_path p)) c))
  /\ check_param_or_command_type (Some old_type) (Some (Type_ b)) p icp c
     = if old_unstable p then Ok tt c
       else Ok tt (record (param_any_error
                             new_command_or_param_type_not_variant_type_error p
                             (name b) (new_idl_file_path p) icp) c).
Proof.
  intros Ha Hb. cbv zeta.
  rewrite unwrapped_non_array_reply, unwrapped_non_array_param by reflexivity.
  unfold check_reply_field_type_unwrapped_def,
    check_param_or_command_type_unwrapped_def,
    check_reply_field_type_recursive_def,
    check_param_or_command_type_recursive_def.
  cbv zeta. cbn [as_Type]. cbv iota. rewrite Ha, Hb. cbn [andb negb].
  cbn [when for_each type_name].
  split; [ | split].
  - intros front arm back -> Hfront Harm.
    rewrite (for_first_found _ _ _ front back arm).
    + rewrite ret_bind, !bind_ret_tt. reflexivity.
    + intros y Hy. apply String.eqb_neq. apply Hfront. exact Hy.
    + apply String.eqb_eq. exact Harm.
  - intros Habs. rewrite for_first_absent.
    + destruct (old_unstable p); reflexivity.
    + intros y Hy. apply String.eqb_neq. apply Habs. exact Hy.
  - destruct (old_unstable p); reflexivity.
Qed.

Lemma variant_narrowed_to_single_type_witness :
  check_reply_field_type (Some int_or_string_variant) (Some string_type)
    stable_pair empty_ctxt = Ok tt empty_ctxt
  /\ check_param_or_command_type (Some int_or_string_variant) (Some string_type)
       stable_pair true empty_ctxt
     = Ok tt (record (param_any_error
                        new_command_or_param_type_not_variant_type_error
                        stable_pair "string" "new.idl" true) empty_ctxt).
Proof.
  pose proof (variant_narrowed_to_single_type
                (mkTypeAttrs "variant<int, string>" ["int"; "string"] None None
                   None)
                (mkTypeAttrs "string" ["string"] (Some "std::string") None None)
                [Type_ (mkTypeAttrs "int" ["int"] (Some "std::int32_t") None None);
                 string_type]
                None stable_pair true empty_ctxt eq_refl eq_refl)
    as (Hfound & _ & Hparam).
  split; [ | exact Hparam].
  refine (eq_trans
            (Hfound [Type_ (mkTypeAttrs "int" ["int"] (Some "std::int32_t") None
                              None)] string_type [] eq_refl _ eq_refl)
            eq_refl).
  intros y [<- | []]. discriminate.
Defined.

(** X13.  A scalar type replaced by a variant.  As a parameter or command
    type the arms of the new variant are never looked at: the outcome is that
    of comparing with a scalar type carrying the variant's own attributes.
    In a reply, when neither type carries ["any"], a stable old field
    records exactly the new-variant error and an unstable one nothing. *)
Theorem single_type_widened_to_variant (a vb : TypeAttrs) (arms : list IdlType)
  (s : option Struct) (p : FieldCompatibilityPair) (icp : bool) (c : Ctxt) :
  check_param_or_command_type (Some (Type_ a)) (Some (VariantType vb arms s)) p
    icp c
  = check_param_or_command_type (Some (Type_ a)) (Some (Type_ vb)) p icp c
  /\ (any_in a = false -> any_in vb = false ->
      check_reply_field_type (Some (Type_ a)) (Some (VariantType vb arms s)) p c
      = if old_unstable p then Ok tt c
        else Ok tt (record (reply_any_error new_reply_field_variant_type_error p
                              (name a) (new_idl_file_path p)) c)).
Proof.
  rewrite unwrapped_non_array_reply, !unwrapped_non_array_param by reflexivity.
  split; [reflexivity | ].
  intros Ha Hb.
  unfold check_reply_field_type_unwrapped_def,
    check_reply_field_type_recursive_def.
  cbv zeta. cbn [as_Type]. cbv iota. rewrite Ha, Hb. cbn [andb negb].
  destruct (old_unstable p); reflexivity.
Qed.

Lemma single_type_widened_to_variant_witness :
  check_reply_field_type (Some string_type) (Some int_or_string_variant)
    stable_pair empty_ctxt
  = Ok tt (record (reply_any_error new_reply_field_variant_type_error
                     stable_pair "string" "new.idl") empty_ctxt).
Proof.
  exact (proj2 (single_type_widened_to_variant
                  (mkTypeAttrs "string" ["string"] (Some "std::string") None None)
                  (mkTypeAttrs "variant<int, string>" ["int"; "string"] None
                     None None)
                  [Type_ (mkTypeAttrs "int" ["int"] (Some "std::int32_t") None
                            None);
                   string_type]
                  None stable_pair true empty_ctxt) eq_refl eq_refl).
Defined.

(** X14.  The struct arm of a variant.  A parameter or command type whose
    old variant has no struct arm never looks at the struct arm of the new
    one.  In a reply (neither variant carrying ["any"]), a struct arm that
    appears where the old variant had none makes a stable old field end on
    the variant-not-subset error, and makes an unstable one fail: the field
    reconciliation is entered with [None] as old struct, so the call never
    returns normally.  A struct arm that disappears from a stable parameter
    ends on the variant-not-superset error. *)
Theorem variant_struct_arm (va vb : TypeAttrs) (arms narms : list IdlType)
  (st : Struct) (p : FieldCompatibilityPair) (icp : bool) :
  (forall c,
      check_param_or_command_type (Some (VariantType va arms None))
        (Some (VariantType vb narms (Some st))) p icp c
      = check_param_or_command_type (Some (VariantType va arms None))
          (Some (VariantType vb narms None)) p icp c)
  /\ (any_in va = false -> any_in vb = false ->
      (old_unstable p = true ->
       never_returns
         (check_reply_field_type (Some (VariantType va arms None))
            (Some (VariantType vb narms (Some st))) p))
      /\ (old_unstable p = false ->
          returns_after
            (reply_any_error new_reply_field_variant_type_not_subset_error p
               (struct_name st) (new_idl_file_path p))
            (check_reply_field_type (Some (VariantType va arms None))
               (Some (VariantType vb narms (Some st))) p)
          /\ returns_after
               (param_any_error
                  new_command_or_param_variant_type_not_superset_error p
                  (struct_name st) (new_idl_file_path p) icp)
               (check_param_or_command_type
                  (Some (VariantType va arms (Some st)))
                  (Some (VariantType vb narms None)) p icp))).
Proof.
  split.
  - intros c.
    rewrite !unwrapped_non_array_param by reflexivity. reflexivity.
  - intros Ha Hb.
    assert (Hr : forall c,
      check_reply_field_type (Some (VariantType va arms None))
        (Some (VariantType vb narms (Some st))) p c
      = check_reply_field_type_unwrapped_def check_reply_field_type_resolved
          check_reply_fields (VariantType va arms None)
          (Some (VariantType vb narms (Some st))) p c)
      by (intros c; apply unwrapped_non_array_reply; reflexivity).
    assert (Hp : forall c,
      check_param_or_command_type (Some (VariantType va arms (Some st)))
        (Some (VariantType vb narms None)) p icp c
      = check_param_or_command_type_unwrapped_def
          check_param_or_command_type_resolved
          check_command_params_or_type_struct_fields
          (VariantType va arms (Some st)) (Some (VariantType vb narms None))
          p icp c)
      by (intros c; apply unwrapped_non_array_param; reflexivity).
    split.
    + intros Hu c. rewrite Hr.
      unfold check_reply_field_type_unwrapped_def,
        check_reply_field_type_recursive_def.
      cbv zeta. cbn [as_Type]. cbv iota. rewrite Ha, Hb, Hu.
      cbn [andb negb when is_None].
      unfold bind at 1. cbn [ret]. unfold bind.
      match goal with
      | |- match (match ?l with _ => _ end) with _ => _ end =>
          destruct l; exact I
      end.
    + intros Hu. split; intros c a c'.
      * rewrite Hr.
        unfold check_reply_field_type_unwrapped_def,
          check_reply_field_type_recursive_def.
        cbv zeta. cbn [as_Type]. cbv iota. rewrite Ha, Hb, Hu.
        cbn [andb negb when is_None].
        unfold bind at 1. cbn [ret]. unfold bind.
        match goal with
        | |- match ?l with _ => _ end = _ -> _ =>
            destruct l as [u c1 | | ]; try discriminate
        end.
        unfold add_error. intros E. injection E as _ <-.
        exists (errors c1). reflexivity.
      * rewrite Hp.
        unfold check_param_or_command_type_unwrapped_def,
          check_param_or_command_type_recursive_def.
        cbv zeta. cbn [as_Type]. cbv iota. rewrite Ha, Hb, Hu.
        cbn [andb negb when is_None].
        unfold bind at 1. cbn [ret]. unfold bind.
        match goal with
        | |- match ?l with _ => _ end = _ -> _ =>
            destruct l as [u c1 | | ]; try discriminate
        end.
        unfold add_error. intros E. injection E as _ <-.
        exists (errors c1). reflexivity.
Qed.

Lemma variant_struct_arm_witness :
  never_returns
    (check_reply_field_type (Some (string_or_struct_variant None))
       (Some (string_or_struct_variant (Some (empty_struct "s"))))
       unstable_pair).
Proof.
  exact (proj1 (proj2 (variant_struct_arm
                         (mkTypeAttrs "variant<string, struct>"
                            ["string"; "object"] None None None)
                         (mkTypeAttrs "variant<string, struct>"
                            ["string"; "object"] None None None)
                         [string_type] [string_type] (empty_struct "s")
                         unstable_pair true) eq_refl eq_refl) eq_refl).
Defined.

(** ** Namespaces *)

(** X15.  Accepted namespace changes compose.  If the change from [a] to
    [b] records nothing and so does the change from [b] to [d], where [b]
    does not take its namespace from a type, then the direct change from [a]
    to [d] records nothing either, whatever the files are.  A change whose
    old command does not take its namespace from a type either records
    nothing or records exactly the namespace error. *)
Theorem namespace_changes_compose (a b d : Command)
  (op1 np1 op2 np2 op3 np3 : string) :
  (namespace a <> COMMAND_NAMESPACE_TYPE ->
   forall c,
     check_namespace a b op1 np1 c = Ok tt c
     \/ check_namespace a b op1 np1 c
        = Ok tt (record (namespace_error a b np1) c))
  /\ (namespace b <> COMMAND_NAMESPACE_TYPE ->
      silent (check_namespace a b op1 np1) ->
      silent (check_namespace b d op2 np2) ->
      silent (check_namespace a d op3 np3)).
Proof.
  split.
  - intros Ha c. unfold check_namespace, namespace_error.
    destruct (namespace a); try congruence;
      destruct (namespace b); simpl; auto.
  - intros Hb Hab Hbd c.
    specialize (Hab empty_ctxt). specialize (Hbd empty_ctxt).
    revert Hab Hbd. unfold check_namespace.
    destruct (namespace a) eqn:Ea; destruct (namespace b) eqn:Eb;
      try congruence; destruct (namespace d) eqn:Ed; simpl;
      try discriminate; try reflexivity;
      destruct (command_type a) as [t | ]; simpl; try discriminate;
      unfold bind, ret; simpl;
      destruct (type_name t =? "namespacestring")%string; simpl;
      try discriminate; reflexivity.
Qed.

Lemma namespace_changes_compose_witness :
  silent (check_namespace ns_type_cmd plain_cmd "a.idl" "c.idl").
Proof.
  refine (proj2 (namespace_changes_compose ns_type_cmd ns_with_db_cmd plain_cmd
                   "a.idl" "b.idl" "b.idl" "c.idl" "a.idl" "c.idl") _ _ _).
  - discriminate.
  - intros c. reflexivity.
  - intros c. reflexivity.
Defined.

(** X16.  A command whose namespace is a type that does not resolve.  When
    the new command no longer takes its namespace from a type, reading the
    name of the old type raises [AttributeError] and nothing is recorded.
    When both commands take their namespace from a type and one of the two
    does not resolve (the other not being an array), the invalid-type error
    is recorded against the file of the unresolved side (the old one first),
    the errors are dumped and the run exits with status 1. *)
Theorem namespace_type_unresolved (old_cmd new_cmd : Command)
  (old_path new_path : string) (c : Ctxt) :
  namespace old_cmd = COMMAND_NAMESPACE_TYPE ->
  (command_type old_cmd = None ->
   namespace new_cmd <> COMMAND_NAMESPACE_TYPE ->
   check_namespace old_cmd new_cmd old_path new_path c = Raised AttributeError c)
  /\ (namespace new_cmd = COMMAND_NAMESPACE_TYPE ->
      command_type old_cmd = None \/ command_type new_cmd = None ->
      is_ArrayType (command_type old_cmd) = false ->
      is_ArrayType (command_type new_cmd) = false ->
      check_namespace old_cmd new_cmd old_path new_path c
      = SysExit 1
          (recorded_and_dumped
             (param_invalid_error (namespace_pair old_cmd old_path new_path)
                (unresolved_file (command_type old_cmd)
                   (namespace_pair old_cmd old_path new_path)) false) c)).
Proof.
  intros Ho. unfold check_namespace. rewrite Ho. split.
  - intros Ht Hn. rewrite Ht.
    destruct (namespace new_cmd); try congruence; reflexivity.
  - intros Hn Hnone Hao Han. rewrite Hn. cbn [Namespace_eqb].
    exact (proj2 (unresolved_type_exits (command_type old_cmd)
                    (command_type new_cmd)
                    (namespace_pair old_cmd old_path new_path) false c
                    Hnone Hao Han)).
Qed.

Lemma namespace_type_unresolved_witness :
  check_namespace unresolved_ns_type_cmd plain_cmd "old.idl" "new.idl" empty_ctxt
  = Raised AttributeError empty_ctxt
  /\ exists c,
       check_namespace unresolved_ns_type_cmd ns_type_cmd "old.idl" "new.idl"
         empty_ctxt = SysExit 1 c.
Proof.
  pose proof (namespace_type_unresolved unresolved_ns_type_cmd plain_cmd
                "old.idl" "new.idl" empty_ctxt eq_refl) as [H1 _].
  pose proof (namespace_type_unresolved unresolved_ns_type_cmd ns_type_cmd
                "old.idl" "new.idl" empty_ctxt eq_refl) as [_ H2].
  split.
  - apply H1; [reflexivity | discriminate].
  - eexists. apply H2; try reflexivity. left. reflexivity.
Defined.

(** ** Field reconciliation *)


Lemma flat_map_flag {A} (b : A -> bool) (e : A -> CompatError) (l : list A) :
  flat_map (fun x => if b x then [e x] else []) l = map e (filter b l).
Proof.
  induction l as [ | x l IH]; simpl; [reflexivity | ].
  destruct (b x); simpl; rewrite IH; reflexivity.
Qed.

Lemma absent_field (old_struct : Struct) (new_field : Field) :
  (forall f, In f (fields old_struct) -> field_name f <> field_name new_field) ->
  existsb (fun old_field =>
             String.eqb (field_name new_field) (field_name old_field))
    (fields old_struct) = false.
Proof.
  intros H. destruct (existsb _ (fields old_struct)) eqn:E; [ | reflexivity].
  apply existsb_exists in E. destruct E as (f & Hf & Hn).
  apply String.eqb_eq in Hn. exfalso. apply (H f Hf). symmetry. exact Hn.
Qed.

(** X17.  When no field of the new struct has the name of a field of the
    old struct, the reconciliation splits in two independent parts: it
    records one missing-field error for every stable old field, in order
    (unstable ones may vanish silently), and then treats the new struct as
    if the old one had no field at all.  In particular, against a new struct
    without fields these missing-field errors are all that is recorded. *)
Theorem disjoint_fields_split (old_struct new_struct : Struct)
  (cmd old_path new_path n : string) (icp : bool) (c : Ctxt) :
  (forall f g, In f (fields old_struct) -> In g (fields new_struct) ->
               field_name f <> field_name g) ->
  check_reply_fields old_struct new_struct cmd old_path new_path c
  = check_reply_fields (empty_struct n) new_struct cmd old_path new_path
      (extend c (map (reply_missing_error cmd old_path)
                   (stable_fields old_struct)))
  /\ check_command_params_or_type_struct_fields old_struct new_struct cmd
       old_path new_path icp c
     = check_command_params_or_type_struct_fields (empty_struct n) new_struct
         cmd old_path new_path icp
         (extend c (map (param_missing_error cmd old_path
                           (struct_name old_struct) icp)
                      (stable_fields old_struct)))
  /\ (fields new_struct = [] ->
      check_reply_fields old_struct new_struct cmd old_path new_path c
      = Ok tt (extend c (map (reply_missing_error cmd old_path)
                           (stable_fields old_struct)))
      /\ check_command_params_or_type_struct_fields old_struct new_struct cmd
           old_path new_path icp c
         = Ok tt (extend c (map (param_missing_error cmd old_path
                                   (struct_name old_struct) icp)
                              (stable_fields old_struct)))).
Proof.
  intros Hdis.
  assert (Hr : check_reply_fields old_struct new_struct cmd old_path new_path c
    = check_reply_fields (empty_struct n) new_struct cmd old_path new_path
        (extend c (map (reply_missing_error cmd old_path)
                     (stable_fields old_struct)))).
  { rewrite !check_reply_fields_loops. unfold bind at 2. cbn [fields empty_struct for_each ret].
    unfold bind.
    rewrite (for_each_extend _
               (fun f => if negb (unstable f)
                         then [reply_missing_error cmd old_path f] else [])).
    - rewrite flat_map_flag. unfold check_reply_fields_newly_added.
      apply for_each_ext. intros g c' Hg. cbn [fields existsb].
      rewrite absent_field; [reflexivity | ].
      intros f Hf. apply Hdis; assumption.
    - intros f c' Hf. rewrite for_first_absent.
      + destruct (unstable f); simpl; [rewrite extend_nil | ]; reflexivity.
      + intros g Hg. apply String.eqb_neq. intros E.
        apply (Hdis f g Hf Hg). symmetry. exact E. }
  assert (Hp : check_command_params_or_type_struct_fields old_struct new_struct
                 cmd old_path new_path icp c
    = check_command_params_or_type_struct_fields (empty_struct n) new_struct
        cmd old_path new_path icp
        (extend c (map (param_missing_error cmd old_path
                          (struct_name old_struct) icp)
                     (stable_fields old_struct)))).
  { rewrite !check_command_params_or_type_struct_fields_loops.
    unfold bind at 2. cbn [fields empty_struct for_each ret].
    unfold bind.
    rewrite (for_each_extend _
               (fun f => if negb (unstable f)
                         then [param_missing_error cmd old_path
                                 (struct_name old_struct) icp f] else [])).
    - rewrite flat_map_flag.
      unfold check_command_params_or_type_struct_fields_newly_added.
      apply for_each_ext. intros g c' Hg. cbn [fields existsb].
      rewrite absent_field; [reflexivity | ].
      intros f Hf. apply Hdis; assumption.
    - intros f c' Hf. rewrite for_first_absent.
      + destruct (unstable f); simpl; [rewrite extend_nil | ]; reflexivity.
      + intros g Hg. apply String.eqb_neq. intros E.
        apply (Hdis f g Hf Hg). symmetry. exact E. }
  split; [exact Hr | split; [exact Hp | ]].
  intros Hnil. rewrite Hr, Hp.
  rewrite check_reply_fields_loops,
    check_command_params_or_type_struct_fields_loops.
  unfold check_reply_fields_newly_added,
    check_command_params_or_type_struct_fields_newly_added.
  rewrite Hnil. split; reflexivity.
Qed.

Lemma disjoint_fields_split_witness :
  check_reply_fields
    (mkStruct "reply" [required_string_field; unstable_required_field])
    (empty_struct "reply") "cmd" "old.idl" "new.idl" empty_ctxt
  = Ok tt (extend empty_ctxt
             [reply_missing_error "cmd" "old.idl" required_string_field]).
Proof.
  refine (proj1 (proj2 (proj2 (disjoint_fields_split
            (mkStruct "reply" [required_string_field; unstable_required_field])
            (empty_struct "reply") "cmd" "old.idl" "new.idl" "" true
            empty_ctxt _)) eq_refl)).
  intros f g _ [].
Defined.

Lemma bind_silent (m k : M unit) (c : Ctxt) :
  silent k -> bind m (fun _ => k) c = m c.
Proof.
  intros Hk. unfold bind. destruct (m c) as [[] c' | | ]; try reflexivity.
  apply Hk.
Qed.

Lemma bind4_silent (w1 w2 w3 w4 k : M unit) (c : Ctxt) :
  silent k ->
  (w1 ;; w2 ;; w3 ;; w4 ;; k) c = (w1 ;; w2 ;; w3 ;; w4) c.
Proof.
  intros Hk. unfold bind.
  destruct (w1 c) as [[] c1 | | ]; try reflexivity.
  destruct (w2 c1) as [[] c2 | | ]; try reflexivity.
  destruct (w3 c2) as [[] c3 | | ]; try reflexivity.
  destruct (w4 c3) as [[] c4 | | ]; try reflexivity.
  apply Hk.
Qed.

Ltac recorded_something H :=
  specialize (H empty_ctxt);
  cbv [when bind add_error ret record empty_ctxt errors dumped app
       check_param_or_type_validator negb andb is_None] in H;
  discriminate H.

Lemma eqb_some (x y : string) :
  (x =? y)%string = true <-> Some x = Some y.
Proof.
  rewrite String.eqb_eq. split; [intros -> | intros [= ->]]; reflexivity.
Qed.

(** X18.  Acceptance of a matched field whose type is unchanged and well
    formed.  A reply field is accepted (nothing is recorded) exactly when
    the old field is unstable, or the new field is stable, is optional only
    if the old one was, and keeps or drops the validator.  A parameter or
    command-type field is accepted exactly when a stable old field stays
    stable and keeps or drops its validator, an unstable old field that
    becomes stable and required has a default, and an optional old field
    stays optional. *)
Theorem unchanged_type_field_acceptance (old_field new_field : Field)
  (t : IdlType) (cmd old_path new_path type_name : string) (icp : bool) :
  get_field_type old_field = Some t -> get_field_type new_field = Some t ->
  (wf_type (reply_allow_name cmd) (field_name old_field) t = true ->
   (silent (check_reply_field old_field new_field cmd old_path new_path)
    <-> unstable old_field = true
        \/ (unstable new_field = false
            /\ (optional new_field = true -> optional old_field = true)
            /\ validator_kept old_field new_field)))
  /\ (wf_type (fun f => param_allow_name cmd f icp) (field_name old_field) t
      = true ->
      (silent (check_command_param_or_type_struct_field old_field new_field
                 cmd old_path new_path type_name icp)
       <-> (unstable old_field = false ->
            unstable new_field = false /\ validator_kept old_field new_field)
           /\ (unstable old_field = true -> unstable new_field = false ->
               optional new_field = true \/ default new_field <> None)
           /\ (optional old_field = true -> optional new_field = true))).
Proof.
  intros Ho Hn. split; intros Hwf.
  - assert (Hty : silent (check_reply_field_type_resolved t (Some t)
                            (mkPair old_path (unstable old_field) new_path
                               (unstable new_field) cmd (field_name old_field))))
      by (apply (proj1 reply_self_silent); exact Hwf).
    assert (E : forall c,
      check_reply_field old_field new_field cmd old_path new_path c
      = when (negb (unstable old_field))
    (when (unstable new_field)
       (add_error new_reply_field_unstable_error cmd
          [field_name new_field] new_path None) ;;
     when (optional new_field && negb (optional old_field))
       (add_error new_reply_field_optional_error cmd
          [field_name new_field] new_path None) ;;
     match validator new_field with
     | Some new_validator =>
         match validator old_field with
         | Some old_validator =>
             when (negb (String.eqb new_validator old_validator))
               (add_error reply_field_validators_not_equal_error cmd
                  [field_name new_field] new_path None)
         | None =>
             add_error reply_field_contains_validator_error cmd
               [field_name new_field] new_path None
         end
     | None => ret tt
     end) c).
    { intros c. rewrite check_reply_field_eq.
      unfold check_reply_field_def. rewrite Ho, Hn.
      apply bind_silent. exact Hty. }
    unfold silent, validator_kept.
    split.
    + intros H.
      assert (H' := fun c => eq_trans (eq_sym (E c)) (H c)). clear H E Hty.
      destruct (unstable old_field); [left; reflexivity | right].
      destruct (unstable new_field), (optional new_field),
        (optional old_field), (validator new_field) as [nv | ],
        (validator old_field) as [ov | ];
        try (destruct (String.eqb nv ov) eqn:Q);
        try recorded_something H';
        (split; [reflexivity | split; [intros; congruence | ]]);
        first [left; reflexivity | right; apply eqb_some; exact Q].
    + intros H c. rewrite E. clear E Hty.
      destruct H as [-> | (-> & Hopt & Hval)]; [reflexivity | ].
      destruct (unstable old_field); [reflexivity | ].
      assert (Hb : optional new_field && negb (optional old_field) = false).
      { destruct (optional new_field), (optional old_field); try reflexivity.
        discriminate (Hopt eq_refl). }
      cbn [negb when]. rewrite Hb. cbn [when].
      destruct Hval as [-> | ->]; [reflexivity | ].
      destruct (validator old_field) as [ov | ]; [ | reflexivity].
      rewrite String.eqb_refl. reflexivity.
  - assert (Hty : silent (check_param_or_command_type_resolved t (Some t)
                            (mkPair old_path (unstable old_field) new_path
                               (unstable new_field) cmd (field_name old_field))
                            icp))
      by (apply (proj1 param_self_silent); exact Hwf).
    assert (E : forall c,
      check_command_param_or_type_struct_field old_field new_field cmd old_path
        new_path type_name icp c
      = (when (negb (unstable old_field) && unstable new_field)
           (add_error new_param_or_command_type_field_unstable_error cmd
              [field_name old_field; type_name] old_path (Some icp)) ;;
         when (unstable old_field && negb (unstable new_field) &&
               negb (optional new_field) && is_None (default new_field))
           (add_error
              new_param_or_command_type_field_stable_required_no_default_error
              cmd [field_name old_field; type_name] old_path (Some icp)) ;;
         when (optional old_field && negb (optional new_field))
           (add_error new_param_or_command_type_field_required_error cmd
              [field_name old_field; type_name] old_path (Some icp)) ;;
         when (negb (unstable old_field))
           (check_param_or_type_validator old_field new_field cmd new_path
              type_name icp)) c).
    { intros c. rewrite check_command_param_or_type_struct_field_eq.
      unfold check_command_param_or_type_struct_field_def. rewrite Ho, Hn.
      cbv zeta. apply bind4_silent. exact Hty. }
    unfold silent, validator_kept.
    split.
    + intros H.
      assert (H' := fun c => eq_trans (eq_sym (E c)) (H c)). clear H E Hty.
      unfold check_param_or_type_validator in H'.
      destruct (unstable old_field), (unstable new_field),
        (optional old_field), (optional new_field),
        (default new_field) as [dn | ], (validator new_field) as [nv | ],
        (validator old_field) as [ov | ];
        try (destruct (String.eqb nv ov) eqn:Q;
             [apply String.eqb_eq in Q | apply String.eqb_neq in Q]);
        try recorded_something H';
        (split; [ | split]); intros; try congruence;
        first [ left; reflexivity | right; congruence
              | split; [reflexivity | ];
                first [left; reflexivity | right; congruence] ].
    + intros (H1 & H2 & H3) c. rewrite E. clear E Hty.
      unfold check_param_or_type_validator.
      destruct (unstable old_field), (unstable new_field),
        (optional old_field), (optional new_field),
        (default new_field) as [dn | ], (validator new_field) as [nv | ],
        (validator old_field) as [ov | ];
        try (destruct (String.eqb nv ov) eqn:Q;
             [apply String.eqb_eq in Q | apply String.eqb_neq in Q]);
        first [ reflexivity
              | exfalso;
                solve [ destruct (H1 eq_refl) as [? [? | ?]]; congruence
                      | destruct (H2 eq_refl eq_refl); congruence
                      | discriminate (H3 eq_refl) ] ].
Qed.

Lemma unchanged_type_field_acceptance_witness :
  silent (check_reply_field optional_string_field required_string_field "cmd"
            "old.idl" "new.idl").
Proof.
  apply (proj1 (unchanged_type_field_acceptance optional_string_field
                  required_string_field string_type "cmd" "old.idl" "new.idl"
                  "cmd" true eq_refl eq_refl) eq_refl).
  right. split; [reflexivity | split; [intros H; discriminate H | ]].
  left. reflexivity.
Defined.

(** ** The driver *)

Lemma lookup_command_Some_In (name : string) (d : NewCommands) (v : Command * string) :
  lookup_command name d = Some v -> In (name, v) d.
Proof.
  induction d as [ | [k w] d IH]; simpl; intros H; [discriminate H | ].
  destruct (String.eqb k name) eqn:E.
  - apply String.eqb_eq in E. left. congruence.
  - right. apply IH. exact H.
Qed.

Lemma lookup_command_not_None (name : string) (d : NewCommands) :
  In name (map fst d) <-> lookup_command name d <> None.
Proof.
  split.
  - induction d as [ | [k w] d IH]; simpl; intros H; [destruct H | ].
    destruct (String.eqb k name) eqn:E; [discriminate | ].
    apply IH. destruct H as [H | H]; [ | exact H].
    apply String.eqb_neq in E. contradiction.
  - intros H. destruct (lookup_command name d) as [v | ] eqn:E; [ | congruence].
    apply lookup_command_Some_In in E.
    apply (in_map fst) in E. exact E.
Qed.

Lemma lookup_command_NoDup (d : NewCommands) (k : string) (v : Command * string) :
  NoDup (map fst d) -> In (k, v) d -> lookup_command k d = Some v.
Proof.
  induction d as [ | [k' w] d IH]; simpl; intros Hnd Hin; [destruct Hin | ].
  inversion Hnd as [ | ? ? Hnot Hnd']. subst.
  destruct Hin as [E | Hin].
  - injection E as -> ->. rewrite String.eqb_refl. reflexivity.
  - destruct (String.eqb k' k) eqn:E.
    + apply String.eqb_eq in E. subst. exfalso. apply Hnot.
      apply (in_map fst) in Hin. exact Hin.
    + apply IH; assumption.
Qed.

Lemma get_new_commands_fold (dir : string) (l : list (string * Command)) :
  forall (acc : NewCommands) (c : Ctxt),
    NoDup (map fst acc) ->
    exists d added,
      fold_m (fun acc pc => get_new_commands_step dir (fst pc) acc (snd pc))
        l acc c = Ok d (extend c added)
      /\ NoDup (map fst d)
      /\ incl acc d
      /\ (forall e, In e d ->
            In e acc
            \/ exists pc, In pc l /\ is_v1 (snd pc) = true
                          /\ e = (command_name (snd pc), (snd pc, fst pc)))
      /\ (forall pc, In pc l -> is_v1 (snd pc) = true ->
            In (command_name (snd pc)) (map fst d))
      /\ (forall front pc back,
            l = front ++ pc :: back -> is_v1 (snd pc) = true ->
            ~ In (command_name (snd pc)) (map fst acc) ->
            (forall x, In x front -> is_v1 (snd x) = true ->
                       command_name (snd x) <> command_name (snd pc)) ->
            In (command_name (snd pc), (snd pc, fst pc)) d)
      /\ Forall registration_error added
      /\ List.length added + List.length d
         = List.length acc + List.length (filter (fun pc => in_api (snd pc)) l).
Proof.
  induction l as [ | [path cmd] l IH]; intros acc c Hnd.
  - exists acc, []. simpl. rewrite extend_nil.
    repeat split; auto.
    + apply incl_refl.
    + intros pc [].
    + intros front pc back E. destruct front; discriminate E.
  - cbn [fold_m fst snd]. unfold bind. unfold get_new_commands_step at 1.
    unfold is_v1, in_api in *. cbn [filter snd].
    unfold in_api.
    destruct (String.eqb (api_version cmd) "" || imported cmd) eqn:Hskip;
      cbn [negb ret].
    { destruct (IH acc c Hnd) as (d & added & E & H1 & H2 & H3 & H4 & H5 & H6 & H7).
      exists d, added. rewrite E.
      split; [reflexivity | ]. split; [exact H1 | ]. split; [exact H2 | ].
      split; [ | split; [ | split; [ | split; [exact H6 | exact H7]]]].
      - intros e He. destruct (H3 e He) as [Ha | (pc & Hpc & Hv & Ee)];
          [left; exact Ha | right].
        exists pc. split; [right; exact Hpc | split; assumption].
      - intros pc [<- | Hpc] Hv.
        + cbn [snd] in Hv. rewrite Hskip in Hv. discriminate Hv.
        + apply H4; assumption.
      - intros front pc back El Hv Hnot Hfront.
        destruct front as [ | x front]; cbn [app] in El; injection El as Ex El.
        + subst pc. cbn [snd] in Hv. rewrite Hskip in Hv. discriminate Hv.
        + apply (H5 front pc back El Hv Hnot).
          intros y Hy. apply Hfront. right. exact Hy. }
    destruct (String.eqb (api_version cmd) "1") eqn:Hone; cbn [negb andb].
    2:{ unfold bind, add_error. cbn [ret].
        destruct (IH acc (record (mkError command_invalid_api_version_error
                                    (command_name cmd) [api_version cmd] path
                                    None) c) Hnd)
          as (d & added & E & H1 & H2 & H3 & H4 & H5 & H6 & H7).
        exists d. eexists (_ :: added). rewrite E.
        split; [unfold record, extend; cbn [errors dumped];
                rewrite <- app_assoc; reflexivity | ].
        split; [exact H1 | ]. split; [exact H2 | ].
        split; [ | split; [ | split; [ | split]]].
        - intros e He. destruct (H3 e He) as [Ha | (pc & Hpc & Hv & Ee)];
            [left; exact Ha | right].
          exists pc. split; [right; exact Hpc | split; assumption].
        - intros pc [<- | Hpc] Hv.
          + cbn [snd] in Hv. rewrite Hone, andb_false_r in Hv. discriminate Hv.
          + apply H4; assumption.
        - intros front pc back El Hv Hnot Hfront.
          destruct front as [ | x front]; cbn [app] in El; injection El as Ex El.
          + subst pc. cbn [snd] in Hv. rewrite Hone, andb_false_r in Hv.
            discriminate Hv.
          + apply (H5 front pc back El Hv Hnot).
            intros y Hy. apply Hfront. right. exact Hy.
        - constructor; [left; reflexivity | exact H6].
        - cbn [List.length]. lia. }
    destruct (lookup_command (command_name cmd) acc) as [v | ] eqn:Hlook;
      cbn [is_None negb].
    { unfold bind, add_error. cbn [ret].
      destruct (IH acc (record (mkError duplicate_command_name_error
                                  (command_name cmd) [dir] path None) c) Hnd)
        as (d & added & E & H1 & H2 & H3 & H4 & H5 & H6 & H7).
      exists d. eexists (_ :: added). rewrite E.
      split; [unfold record, extend; cbn [errors dumped];
              rewrite <- app_assoc; reflexivity | ].
      split; [exact H1 | ]. split; [exact H2 | ].
      split; [ | split; [ | split; [ | split]]].
      - intros e He. destruct (H3 e He) as [Ha | (pc & Hpc & Hv & Ee)];
          [left; exact Ha | right].
        exists pc. split; [right; exact Hpc | split; assumption].
      - intros pc [<- | Hpc] Hv.
        + cbn [snd]. apply (in_map fst) with (x := (command_name cmd, v)).
          apply H2. apply lookup_command_Some_In. exact Hlook.
        + apply H4; assumption.
      - intros front pc back El Hv Hnot Hfront.
        destruct front as [ | x front]; cbn [app] in El; injection El as Ex El.
        + subst pc. cbn [snd] in Hnot. exfalso. apply Hnot.
          apply lookup_command_not_None. congruence.
        + apply (H5 front pc back El Hv Hnot).
          intros y Hy. apply Hfront. right. exact Hy.
      - constructor; [right; reflexivity | exact H6].
      - cbn [List.length]. lia. }
    assert (Hnew : ~ In (command_name cmd) (map fst acc)).
    { intros Hin. apply lookup_command_not_None in Hin. congruence. }
    assert (Hnd' : NoDup (map fst (acc ++ [(command_name cmd, (cmd, path))]))).
    { rewrite map_app. cbn [map fst].
      apply NoDup_app; [exact Hnd | repeat constructor; intros [] | ].
      intros k Hk [<- | []]. exact (Hnew Hk). }
    destruct (IH (acc ++ [(command_name cmd, (cmd, path))]) c Hnd')
      as (d & added & E & H1 & H2 & H3 & H4 & H5 & H6 & H7).
    exists d, added. cbn [ret]. rewrite E.
    split; [reflexivity | ]. split; [exact H1 | ].
    split; [ | split; [ | split; [ | split; [ | split; [exact H6 | ]]]]].
    + intros e He. apply H2. apply in_or_app. left. exact He.
    + intros e He. destruct (H3 e He) as [Ha | (pc & Hpc & Hv & Ee)].
      * apply in_app_or in Ha. destruct Ha as [Ha | [<- | []]];
          [left; exact Ha | right].
        exists (path, cmd). split; [left; reflexivity | ].
        cbn [fst snd]. rewrite Hskip, Hone. split; reflexivity.
      * right. exists pc. split; [right; exact Hpc | split; assumption].
    + intros pc [<- | Hpc] Hv.
      * cbn [snd]. apply (in_map fst) with (x := (command_name cmd, (cmd, path))).
        apply H2. apply in_or_app. right. left. reflexivity.
      * apply H4; assumption.
    + intros front pc back El Hv Hnot Hfront.
      destruct front as [ | x front]; cbn [app] in El; injection El as Ex El.
      * subst pc. cbn [fst snd]. apply H2. apply in_or_app. right. left.
        reflexivity.
      * apply (H5 front pc back El Hv).
        -- rewrite map_app. cbn [map fst]. intros Hin.
           apply in_app_or in Hin. destruct Hin as [Hin | [Hin | []]];
             [exact (Hnot Hin) | ].
           apply (Hfront x (or_introl eq_refl)); [ | subst x; exact Hin].
           subst x. cbn [snd]. rewrite Hskip, Hone. reflexivity.
        -- intros y Hy. apply Hfront. right. exact Hy.
    + rewrite length_app in H7. cbn [List.length] in *. lia.
Qed.

(** X19.  [get_new_commands] always returns.  Its dictionary has one entry
    per name; every entry is a version-1, not imported command of the new
    directory, filed under its own name together with the path of its file;
    every such command has its name in the dictionary, and the first one of
    each name is the one that is kept.  The only errors recorded are
    invalid-api-version and duplicate-name errors, and every command that
    belongs to an API version is either kept or reported, exactly once. *)
Theorem get_new_commands_table (dir : string) (files : list IDLFile) (c : Ctxt) :
  exists d added,
    get_new_commands dir files c = Ok d (extend c added)
    /\ NoDup (map fst d)
    /\ (forall k cmd path,
          In (k, (cmd, path)) d ->
          k = command_name cmd /\ is_v1 cmd = true
          /\ In (path, cmd) (all_commands files))
    /\ (forall path cmd,
          In (path, cmd) (all_commands files) -> is_v1 cmd = true ->
          lookup_command (command_name cmd) d <> None)
    /\ (forall front path cmd back,
          all_commands files = front ++ (path, cmd) :: back ->
          is_v1 cmd = true ->
          (forall x, In x front -> is_v1 (snd x) = true ->
                     command_name (snd x) <> command_name cmd) ->
          lookup_command (command_name cmd) d = Some (cmd, path))
    /\ Forall registration_error added
    /\ List.length added + List.length d = List.length (api_commands files).
Proof.
  unfold get_new_commands.
  rewrite (fold_m_files (get_new_commands_step dir)).
  destruct (get_new_commands_fold dir (all_commands files) [] c (NoDup_nil _))
    as (d & added & E & H1 & _ & H3 & H4 & H5 & H6 & H7).
  exists d, added. split; [exact E | ]. split; [exact H1 | ].
  split; [ | split; [ | split; [ | split; [exact H6 | exact H7]]]].
  - intros k cmd path Hin.
    destruct (H3 _ Hin) as [[] | ([p' cmd'] & Hpc & Hv & Ee)].
    cbn [fst snd] in *. injection Ee as -> -> ->. auto.
  - intros path cmd Hin Hv. apply lookup_command_not_None.
    exact (H4 (path, cmd) Hin Hv).
  - intros front path cmd back El Hv Hfront.
    apply lookup_command_NoDup; [exact H1 | ].
    apply (H5 front (path, cmd) back El Hv); [intros [] | exact Hfront].
Qed.

Lemma all_commands_keep_api (files : list IDLFile) :
  all_commands (map keep_api files) = api_commands files.
Proof.
  unfold api_commands, all_commands.
  induction files as [ | f files IH]; simpl; [reflexivity | ].
  rewrite filter_app, IH. f_equal.
  generalize (commands f). intros l.
  induction l as [ | x l IHl]; simpl; [reflexivity | ].
  destruct (in_api x); simpl; rewrite IHl; reflexivity.
Qed.

Lemma fold_m_filter {A S} (f : S -> A -> M S) (p : A -> bool) (l : list A) :
  (forall s x c, p x = false -> f s x c = Ok s c) ->
  forall s c, fold_m f (filter p l) s c = fold_m f l s c.
Proof.
  intros H. induction l as [ | x l IH]; intros s c; simpl; [reflexivity | ].
  destruct (p x) eqn:E; simpl; unfold bind.
  - destruct (f s x c) as [s' c' | | ]; try reflexivity. apply IH.
  - rewrite (H s x c E). apply IH.
Qed.

Lemma get_new_commands_step_skips dir path acc cmd c :
  in_api cmd = false -> get_new_commands_step dir path acc cmd c = Ok acc c.
Proof.
  unfold in_api, get_new_commands_step. intros H.
  apply negb_false_iff in H. rewrite H. reflexivity.
Qed.

Lemma check_compatibility_step_skips dir path table olds cmd c :
  in_api cmd = false ->
  check_compatibility_step dir path table olds cmd c = Ok olds c.
Proof.
  unfold in_api, check_compatibility_step. intros H.
  apply negb_false_iff in H. rewrite H. reflexivity.
Qed.

Lemma check_compatibility_flat old_dir new_dir old_files new_files c :
  check_compatibility old_dir new_dir old_files new_files c
  = (new_commands <-
       fold_m (fun acc pc => get_new_commands_step new_dir (fst pc) acc (snd pc))
         (all_commands new_files) [] ;;
     fold_m (fun (olds : list string) pc =>
               check_compatibility_step old_dir (fst pc) new_commands olds
                 (snd pc))
       (all_commands old_files) [] ;;
     dump_errors) c.
Proof.
  unfold check_compatibility, get_new_commands, bind.
  rewrite (fold_m_files (get_new_commands_step new_dir)).
  match goal with
  | |- context [fold_m ?f (all_commands new_files) [] c] =>
      destruct (fold_m f (all_commands new_files) [] c) as [d c1 | | ]
  end; try reflexivity.
  rewrite (fold_m_files (fun path => check_compatibility_step old_dir path d)).
  reflexivity.
Qed.

(** X20.  Commands that belong to no API version, and imported commands,
    have no influence on a run: deleting them from every file of both
    directories leaves the outcome, the recorded errors and the dump
    unchanged. *)
Theorem unversioned_commands_are_ignored (old_dir new_dir : string)
  (old_files new_files : list IDLFile) (c : Ctxt) :
  check_compatibility old_dir new_dir (map keep_api old_files)
    (map keep_api new_files) c
  = check_compatibility old_dir new_dir old_files new_files c.
Proof.
  rewrite !check_compatibility_flat, !all_commands_keep_api.
  unfold api_commands, bind.
  rewrite fold_m_filter
    by (intros s x c' H; apply get_new_commands_step_skips; exact H).
  match goal with
  | |- context [fold_m ?f (all_commands new_files) [] c] =>
      destruct (fold_m f (all_commands new_files) [] c) as [d c1 | | ]
  end; try reflexivity.
  rewrite fold_m_filter
    by (intros s x c' H; apply check_compatibility_step_skips; exact H).
  reflexivity.
Qed.

Lemma steady_grows {A} (m : M A) (c : Ctxt) (a : A) (c' : Ctxt) :
  steady m -> m c = Ok a c' -> exists added, errors c' = errors c ++ added.
Proof.
  intros (added & k & _ & E) H. rewrite E in H.
  destruct k; simpl in H; try discriminate H.
  injection H as _ <-. exists added. reflexivity.
Qed.

Lemma bind_Ok {A B} (m : M A) (k : A -> M B) (c : Ctxt) (b : B) (c' : Ctxt) :
  bind m k c = Ok b c' -> exists a c1, m c = Ok a c1 /\ k a c1 = Ok b c'.
Proof.
  unfold bind. destruct (m c) as [a c1 | | ]; try discriminate.
  intros H. exists a, c1. split; [reflexivity | exact H].
Qed.

Lemma check_compatibility_step_names dir path table olds cmd c olds' c' :
  check_compatibility_step dir path table olds cmd c = Ok olds' c' ->
  olds' = olds \/ (is_v1 cmd = true /\ olds' = olds ++ [command_name cmd]).
Proof.
  unfold check_compatibility_step, is_v1, in_api.
  destruct (String.eqb (api_version cmd) "" || imported cmd);
    [intros [= <- _]; left; reflexivity | ].
  destruct (String.eqb (api_version cmd) "1"); cbn [negb andb];
    [ | intros [= <- _]; left; reflexivity].
  destruct (mem String.eqb (command_name cmd) olds);
    [intros [= <- _]; left; reflexivity | ].
  destruct (lookup_command (command_name cmd) table) as [[new_cmd np] | ].
  - intros H. right. split; [reflexivity | ].
    repeat (apply bind_Ok in H; destruct H as (? & ? & _ & H)).
    injection H as <- _. reflexivity.
  - intros [= <- _]. right. split; reflexivity.
Qed.

Lemma old_commands_fold dir table (l : list (string * Command)) :
  forall olds c olds' c',
    fold_m (fun (olds : list string) pc =>
              check_compatibility_step dir (fst pc) table olds (snd pc))
      l olds c = Ok olds' c' ->
    forall n, In n olds' ->
      In n olds
      \/ exists pc, In pc l /\ is_v1 (snd pc) = true /\ command_name (snd pc) = n.
Proof.
  induction l as [ | pc l IH]; intros olds c olds' c' H n Hn.
  - injection H as <- _. left. exact Hn.
  - cbn [fold_m] in H. apply bind_Ok in H.
    destruct H as (olds1 & c1 & Hstep & H).
    destruct (IH _ _ _ _ H n Hn) as [Hin | (x & Hx & Hv & En)].
    + apply check_compatibility_step_names in Hstep.
      destruct Hstep as [-> | [Hv ->]]; [left; exact Hin | ].
      apply in_app_or in Hin. destruct Hin as [Hin | [<- | []]];
        [left; exact Hin | right].
      exists pc. split; [left; reflexivity | split; [exact Hv | reflexivity]].
    + right. exists x. split; [right; exact Hx | split; assumption].
Qed.

Lemma mem_false (x : string) (l : list string) :
  ~ In x l -> mem String.eqb x l = false.
Proof.
  intros H. destruct (mem String.eqb x l) eqn:E; [ | reflexivity].
  exfalso. apply H. apply (mem_In _ String.eqb_eq). exact E.
Qed.

(** X21.  A removed command is reported.  If a version-1 command of the old
    directory is the first of its name there and no version-1 command of the
    new directory has that name, every run that returns has recorded the
    command-removed error for it, against the file of the old command. *)
Theorem removed_command_is_reported (old_dir new_dir : string)
  (old_files new_files : list IDLFile) (front back : list (string * Command))
  (path : string) (cmd : Command) (c c' : Ctxt) :
  all_commands old_files = front ++ (path, cmd) :: back ->
  is_v1 cmd = true ->
  (forall x, In x front -> is_v1 (snd x) = true ->
             command_name (snd x) <> command_name cmd) ->
  (forall x, In x (all_commands new_files) -> is_v1 (snd x) = true ->
             command_name (snd x) <> command_name cmd) ->
  check_compatibility old_dir new_dir old_files new_files c = Ok tt c' ->
  In (removed_error path cmd) (errors c').
Proof.
  intros Hold Hv Hfront Hnew. rewrite check_compatibility_flat.
  intros H. apply bind_Ok in H. destruct H as (d & c1 & Hd & H).
  apply bind_Ok in H. destruct H as (olds & c2 & Hloop & H).
  unfold dump_errors in H. injection H as <-. cbn [errors].
  destruct (get_new_commands_fold new_dir (all_commands new_files) [] c
              (NoDup_nil _))
    as (d' & added & E & _ & _ & H3 & _).
  rewrite E in Hd. injection Hd as <- _.
  assert (Hlook : lookup_command (command_name cmd) d' = None).
  { apply lookup_command_None. intros Hin.
    apply in_map_iff in Hin. destruct Hin as ([k v] & Ek & Hin).
    cbn [fst] in Ek. subst k.
    destruct (H3 _ Hin) as [[] | (x & Hx & Hvx & Ex)].
    injection Ex as Ex _. apply (Hnew x Hx Hvx). symmetry. exact Ex. }
  rewrite Hold, fold_m_app in Hloop.
  apply bind_Ok in Hloop. destruct Hloop as (olds1 & c3 & Hf & Hrest).
  cbn [fold_m fst snd] in Hrest.
  apply bind_Ok in Hrest. destruct Hrest as (olds2 & c4 & Hstep & Hback).
  assert (Hfresh : ~ In (command_name cmd) olds1).
  { intros Hin.
    destruct (old_commands_fold _ _ _ _ _ _ _ Hf _ Hin)
      as [[] | (x & Hx & Hvx & Ex)].
    exact (Hfront x Hx Hvx Ex). }
  unfold check_compatibility_step in Hstep.
  unfold is_v1, in_api in Hv. apply andb_true_iff in Hv.
  destruct Hv as [Hv1 Hv2]. apply negb_true_iff in Hv1.
  rewrite Hv1, Hv2, (mem_false _ _ Hfresh), Hlook in Hstep.
  cbn [negb] in Hstep. unfold bind, add_error in Hstep. cbn [ret] in Hstep.
  injection Hstep as _ <-.
  destruct (steady_grows _ _ _ _
              (steady_fold_m _ back olds2
                 (fun s x _ => steady_check_compatibility_step _ _ _ _ _))
              Hback) as (more & Hmore).
  rewrite Hmore. apply in_or_app. left. cbn [record errors].
  apply in_or_app. right. left. reflexivity.
Qed.

Lemma removed_command_is_reported_witness :
  exists c',
    check_compatibility "old" "new"
      [mkIDLFile "cmds.idl" [bare_cmd "A"; bare_cmd "B"]]
      [mkIDLFile "cmds.idl" [bare_cmd "B"]] empty_ctxt = Ok tt c'
    /\ In (removed_error "cmds.idl" (bare_cmd "A")) (errors c').
Proof.
  eexists. split; [reflexivity | ].
  apply (removed_command_is_reported "old" "new"
           [mkIDLFile "cmds.idl" [bare_cmd "A"; bare_cmd "B"]]
           [mkIDLFile "cmds.idl" [bare_cmd "B"]]
           [] [("cmds.idl", bare_cmd "B")] "cmds.idl" (bare_cmd "A")
           empty_ctxt).
  - reflexivity.
  - reflexivity.
  - intros x [].
  - intros x [<- | []] _. discriminate.
  - reflexivity.
Defined.

Lemma lookup_command_app_other (n k : string) (v : Command * string)
  (d : NewCommands) :
  k <> n -> lookup_command n (d ++ [(k, v)]) = lookup_command n d.
Proof.
  intros H. induction d as [ | [k' w] d IH]; simpl.
  - apply String.eqb_neq in H. rewrite H. reflexivity.
  - destruct (String.eqb k' n); [reflexivity | exact IH].
Qed.

Lemma check_compatibility_step_other dir path d k v olds cmd c :
  (is_v1 cmd = true -> command_name cmd <> k) ->
  check_compatibility_step dir path (d ++ [(k, v)]) olds cmd c
  = check_compatibility_step dir path d olds cmd c.
Proof.
  unfold check_compatibility_step, is_v1, in_api. intros H.
  destruct (String.eqb (api_version cmd) "" || imported cmd); [reflexivity | ].
  destruct (String.eqb (api_version cmd) "1"); [ | reflexivity].
  cbn [negb andb] in *.
  rewrite lookup_command_app_other; [reflexivity | ].
  intros E. apply (H eq_refl). symmetry. exact E.
Qed.

Lemma fold_m_ext {A S} (f g : S -> A -> M S) (l : list A) :
  (forall s x c, In x l -> f s x c = g s x c) ->
  forall s c, fold_m f l s c = fold_m g l s c.
Proof.
  induction l as [ | x l IH]; intros H s c; simpl; [reflexivity | ].
  unfold bind. rewrite (H s x c (or_introl eq_refl)).
  destruct (g s x c) as [s' c' | | ]; try reflexivity.
  apply IH. intros s0 y c0 Hy. apply H. right. exact Hy.
Qed.

Lemma all_commands_app (f1 f2 : list IDLFile) :
  all_commands (f1 ++ f2) = all_commands f1 ++ all_commands f2.
Proof. unfold all_commands. apply flat_map_app. Qed.

(** X22.  A command can be added to version 1 at any time: appending to the
    new directory a file with one version-1 command whose name is used by no
    version-1 command of either directory changes nothing in the run. *)
Theorem added_command_is_free (old_dir new_dir : string)
  (old_files new_files : list IDLFile) (path : string) (cmd : Command)
  (c : Ctxt) :
  is_v1 cmd = true ->
  (forall x, In x (all_commands new_files) -> is_v1 (snd x) = true ->
             command_name (snd x) <> command_name cmd) ->
  (forall x, In x (all_commands old_files) -> is_v1 (snd x) = true ->
             command_name (snd x) <> command_name cmd) ->
  check_compatibility old_dir new_dir old_files
    (new_files ++ [mkIDLFile path [cmd]]) c
  = check_compatibility old_dir new_dir old_files new_files c.
Proof.
  intros Hv Hnew Hold. rewrite !check_compatibility_flat.
  rewrite all_commands_app. unfold bind at 1 3.
  rewrite fold_m_app. unfold bind at 1.
  destruct (get_new_commands_fold new_dir (all_commands new_files) [] c
              (NoDup_nil _))
    as (d & added & E & _ & _ & H3 & _).
  rewrite E.
  assert (Hlook : lookup_command (command_name cmd) d = None).
  { apply lookup_command_None. intros Hin.
    apply in_map_iff in Hin. destruct Hin as ([k v] & Ek & Hin).
    cbn [fst] in Ek. subst k.
    destruct (H3 _ Hin) as [[] | (x & Hx & Hvx & Ex)].
    injection Ex as Ex _. apply (Hnew x Hx Hvx). symmetry. exact Ex. }
  cbn [all_commands flat_map commands map idl_file_path app fold_m fst snd].
  unfold bind at 1. unfold get_new_commands_step.
  pose proof Hv as Hv'. unfold is_v1, in_api in Hv'.
  apply andb_true_iff in Hv'. destruct Hv' as [Hv1 Hv2].
  apply negb_true_iff in Hv1. rewrite Hv1, Hv2, Hlook. cbn [negb is_None ret].
  unfold bind.
  rewrite (fold_m_ext _
             (fun (olds : list string) pc =>
                check_compatibility_step old_dir (fst pc) d olds (snd pc))).
  - reflexivity.
  - intros s x c' Hx. apply check_compatibility_step_other.
    intros Hvx. apply Hold; assumption.
Qed.

Lemma added_command_is_free_witness :
  check_compatibility "old" "new" [mkIDLFile "cmds.idl" [bare_cmd "A"]]
    ([mkIDLFile "cmds.idl" [bare_cmd "A"]] ++ [mkIDLFile "more.idl" [bare_cmd "B"]])
    empty_ctxt
  = check_compatibility "old" "new" [mkIDLFile "cmds.idl" [bare_cmd "A"]]
      [mkIDLFile "cmds.idl" [bare_cmd "A"]] empty_ctxt.
Proof.
  apply added_command_is_free.
  - reflexivity.
  - intros x [<- | []] _. discriminate.
  - intros x [<- | []] _. discriminate.
Defined.

(** X23.  Frame property of the per-command checks.  When a well-formed
    version-1 old command is matched with a new command that has the same
    parameters, namespace, namespace type and reply, only the strict flag
    and the access checks can make a difference: the step records the
    strict error exactly when the old command is not strict and the new one
    is, and then behaves as the comparison of the access checks alone. *)
Theorem unchanged_interface_step (dir path new_path : string)
  (table : NewCommands) (olds : list string) (cmd new_cmd : Command) (c : Ctxt) :
  in_api cmd = true -> wf_command cmd = true ->
  ~ In (command_name cmd) olds ->
  lookup_command (command_name cmd) table = Some (new_cmd, new_path) ->
  as_struct new_cmd = as_struct cmd -> namespace new_cmd = namespace cmd ->
  command_type new_cmd = command_type cmd ->
  reply_type new_cmd = reply_type cmd ->
  check_compatibility_step dir path table olds cmd c
  = (when (negb (strict cmd) && strict new_cmd)
       (add_error command_strict_true_error (command_name new_cmd) []
          new_path None) ;;
     check_security_access_checks (access_check cmd) (access_check new_cmd) cmd
       new_path ;;
     ret (olds ++ [command_name cmd])) c.
Proof.
  intros Hapi Hwf Hnew Hlook Hs Hns Hct Hrt. unfold check_compatibility_step.
  rewrite (in_api_version _ Hapi).
  pose proof Hwf as Hwf'. unfold wf_command in Hwf'.
  apply andb_true_iff in Hwf'. destruct Hwf' as [Hwf' Hreply].
  apply andb_true_iff in Hwf'. destruct Hwf' as [Hwf' _].
  apply andb_true_iff in Hwf'. destruct Hwf' as [Hv Hparams].
  rewrite Hv. cbn [negb]. cbv iota.
  rewrite (mem_false _ _ Hnew), Hlook, Hs, Hrt.
  assert (Hn : check_namespace cmd new_cmd path new_path
               = check_namespace cmd cmd path new_path).
  { unfold check_namespace. rewrite Hns, Hct. reflexivity. }
  rewrite Hn. unfold bind.
  destruct (when (negb (strict cmd) && strict new_cmd) _ c) as [u c1 | | ];
    try reflexivity.
  rewrite (proj1 (proj2 param_self_silent) _ _ _ _ _ Hparams).
  rewrite (check_namespace_self _ _ _ Hwf).
  destruct (reply_type cmd) as [r | ]; [ | discriminate Hreply].
  cbn [check_reply_fields_opt].
  rewrite (proj1 (proj2 reply_self_silent) _ _ _ _ Hreply).
  reflexivity.
Qed.

Lemma unchanged_interface_step_witness :
  check_compatibility_step "old" "cmds.idl"
    [("find", (plain_cmd, "new.idl"))] [] lenient_cmd empty_ctxt
  = Ok ["find"] (record (strict_error plain_cmd "new.idl") empty_ctxt).
Proof.
  refine (eq_trans
            (unchanged_interface_step "old" "cmds.idl" "new.idl"
               [("find", (plain_cmd, "new.idl"))] [] lenient_cmd plain_cmd
               empty_ctxt eq_refl eq_refl _ eq_refl eq_refl eq_refl eq_refl
               eq_refl) eq_refl).
  intros [].
Defined.

(** ** Access checks: presence and simple checks *)

Ltac records_at_empty H :=
  specialize (H empty_ctxt);
  cbv [when bind add_error ret record empty_ctxt errors dumped app negb] in H;
  discriminate H.

(** X24.  Access checks: presence, kind and simple checks.  Dropping the
    access checks of a command is always reported; introducing them is
    accepted exactly when the command is not of API version 1.  Access
    checks of different kinds (none, simple, complex) record exactly the
    kind error.  Two simple checks are accepted exactly when they name the
    same check and, if both carry a privilege, the resource patterns agree
    and every new action type is an old one. *)
Theorem access_check_acceptance (cmd : Command) (new_path : string) :
  silent (check_security_access_checks None None cmd new_path)
  /\ (forall a, ~ silent (check_security_access_checks (Some a) None cmd new_path))
  /\ (forall a,
        silent (check_security_access_checks None (Some a) cmd new_path)
        <-> api_version cmd <> "1")
  /\ (forall a b c,
        get_access_check_type a <> get_access_check_type b ->
        check_security_access_checks (Some a) (Some b) cmd new_path c
        = Ok tt (record (access_kind_error a b cmd new_path) c))
  /\ (forall s1 s2,
        silent (check_security_access_checks (Some (AccessSimple s1))
                  (Some (AccessSimple s2)) cmd new_path)
        <-> check s1 = check s2
            /\ (forall p1 p2,
                  privilege s1 = Some p1 -> privilege s2 = Some p2 ->
                  resource_pattern p1 = resource_pattern p2
                  /\ incl (action_type p2) (action_type p1))).
Proof.
  split; [intros c; reflexivity | ].
  split; [intros a H; unfold check_security_access_checks in H;
          records_at_empty H | ].
  split; [ | split].
  - intros a. unfold silent, check_security_access_checks. split.
    + intros H E. rewrite E in H. records_at_empty H.
    + intros H c. apply String.eqb_neq in H. rewrite H. reflexivity.
  - intros a b c H. unfold check_security_access_checks, access_kind_error.
    destruct a, b; cbn in H; try congruence; reflexivity.
  - intros s1 s2. unfold silent, check_security_access_checks.
    cbn [get_access_check_type AccessCheckType_eqb negb simple complex].
    split.
    + intros H.
      destruct (option_eqb String.eqb (check s1) (check s2)) eqn:Ec;
        [ | records_at_empty H].
      split; [apply option_eqb_eq; exact Ec | ].
      intros p1 p2 E1 E2. rewrite E1, E2 in H.
      destruct (String.eqb (resource_pattern p1) (resource_pattern p2)) eqn:Er;
        destruct (issubset String.eqb (action_type p2) (action_type p1)) eqn:Ea;
        try records_at_empty H.
      split; [apply String.eqb_eq; exact Er | ].
      apply (issubset_incl _ String.eqb_eq). exact Ea.
    + intros [Ec Hp] c. apply option_eqb_eq in Ec. rewrite Ec. cbn [negb].
      destruct (privilege s1) as [p1 | ], (privilege s2) as [p2 | ];
        try reflexivity.
      destruct (Hp p1 p2 eq_refl eq_refl) as [Er Ea].
      apply String.eqb_eq in Er. apply (issubset_incl _ String.eqb_eq) in Ea.
      rewrite Er, Ea. reflexivity.
Qed.

(** ** Variant arms *)


Lemma flat_map_single {A B} (g : A -> B) (l : list A) :
  flat_map (fun x => [g x]) l = map g l.
Proof. induction l as [ | x l IH]; simpl; [reflexivity | rewrite IH; reflexivity]. Qed.

(** X26.  Two variants without struct arm, neither carrying ["any"], whose
    arms share no name.  The reply comparison reports, for a stable old
    field, every new arm (no old arm can answer for it), in order, and the
    parameter comparison every old arm (no new arm accepts it); an unstable
    old field records nothing.  Nothing else is recorded. *)
Theorem variant_arms_without_namesake (va vb : TypeAttrs)
  (arms narms : list IdlType) (p : FieldCompatibilityPair) (icp : bool)
  (c : Ctxt) :
  any_in va = false -> any_in vb = false ->
  (forall x y, In x arms -> In y narms -> type_name x <> type_name y) ->
  check_reply_field_type (Some (VariantType va arms None))
    (Some (VariantType vb narms None)) p c
  = Ok tt (extend c
             (if old_unstable p then []
              else map (fun y =>
                          reply_any_error
                            new_reply_field_variant_type_not_subset_error p
                            (type_name y) (new_idl_file_path p)) narms))
  /\ check_param_or_command_type (Some (VariantType va arms None))
       (Some (VariantType vb narms None)) p icp c
     = Ok tt (extend c
                (if old_unstable p then []
                 else map (fun x =>
                             param_any_error
                               new_command_or_param_variant_type_not_superset_error
                               p (type_name x) (new_idl_file_path p) icp)
                        arms)).
Proof.
  intros Ha Hb Hdis.
  rewrite unwrapped_non_array_reply, unwrapped_non_array_param by reflexivity.
  unfold check_reply_field_type_unwrapped_def,
    check_param_or_command_type_unwrapped_def,
    check_reply_field_type_recursive_def,
    check_param_or_command_type_recursive_def.
  cbv zeta. cbn [as_Type]. cbv iota. rewrite Ha, Hb. cbn [andb negb when].
  rewrite !ret_bind, !bind_ret_tt.
  split.
  - rewrite (for_each_extend _
               (fun y => if old_unstable p then []
                         else [reply_any_error
                                 new_reply_field_variant_type_not_subset_error p
                                 (type_name y) (new_idl_file_path p)])).
    + destruct (old_unstable p);
        [rewrite flat_map_nil_fun | rewrite flat_map_single]; reflexivity.
    + intros y c' Hy. rewrite for_first_absent.
      * destruct (old_unstable p); simpl; [rewrite extend_nil | ]; reflexivity.
      * intros x Hx. apply String.eqb_neq. apply Hdis; assumption.
  - rewrite (for_each_extend _
               (fun x => if old_unstable p then []
                         else [param_any_error
                                 new_command_or_param_variant_type_not_superset_error
                                 p (type_name x) (new_idl_file_path p) icp])).
    + destruct (old_unstable p);
        [rewrite flat_map_nil_fun | rewrite flat_map_single]; reflexivity.
    + intros x c' Hx. rewrite for_first_absent.
      * destruct (old_unstable p); simpl; [rewrite extend_nil | ]; reflexivity.
      * intros y Hy. apply String.eqb_neq. apply Hdis; assumption.
Qed.

Lemma variant_arms_without_namesake_witness :
  check_reply_field_type (Some (plain_variant [int_type]))
    (Some (plain_variant [string_type])) stable_pair empty_ctxt
  = Ok tt (extend empty_ctxt
             [reply_any_error new_reply_field_variant_type_not_subset_error
                stable_pair "string" "new.idl"]).
Proof.
  refine (proj1 (variant_arms_without_namesake
                   (mkTypeAttrs "variant" ["int"; "string"] None None None)
                   (mkTypeAttrs "variant" ["int"; "string"] None None None)
                   [int_type] [string_type] stable_pair true empty_ctxt
                   eq_refl eq_refl _)).
  intros x y [<- | []] [<- | []]. discriminate.
Defined.

(** ** Runs on resolved inputs *)

Lemma nx_ret {A} (a : A) : never_exits (ret a).
Proof. intros c. exact I. Qed.

Lemma nx_raise {A} (e : Exn) : never_exits (@raise A e).
Proof. intros c. exact I. Qed.

Lemma nx_add_error k cmd args file ip : never_exits (add_error k cmd args file ip).
Proof. intros c. exact I. Qed.

Lemma nx_bind {A B} (m : M A) (k : A -> M B) :
  never_exits m -> (forall a, never_exits (k a)) -> never_exits (bind m k).
Proof.
  intros Hm Hk c. unfold bind. specialize (Hm c).
  destruct (m c) as [a c' | | ]; try exact I; [apply Hk | destruct Hm].
Qed.

Lemma nx_when (b : bool) (m : M unit) : never_exits m -> never_exits (when b m).
Proof. intros H. destruct b; [exact H | apply nx_ret]. Qed.

Lemma nx_for_each {A} (body : A -> M unit) (l : list A) :
  (forall x, In x l -> never_exits (body x)) -> never_exits (for_each body l).
Proof.
  induction l as [ | x l IH]; intros H; simpl; [apply nx_ret | ].
  apply nx_bind; [apply H; left; reflexivity | intros _].
  apply IH. intros y Hy. apply H. right. exact Hy.
Qed.

Lemma nx_for_first {A} (body : A -> M unit) (p : A -> bool) (orelse : M unit)
  (l : list A) :
  (forall x, In x l -> never_exits (body x)) -> never_exits orelse ->
  never_exits (for_first body p orelse l).
Proof.
  induction l as [ | x l IH]; intros H Ho; simpl; [exact Ho | ].
  destruct (p x); [apply H; left; reflexivity | ].
  apply IH; [ | exact Ho]. intros y Hy. apply H. right. exact Hy.
Qed.

Lemma nx_fold_m {A S} (f : S -> A -> M S) (l : list A) (s : S) :
  (forall s x, In x l -> never_exits (f s x)) -> never_exits (fold_m f l s).
Proof.
  revert s. induction l as [ | x l IH]; intros s H; simpl; [apply nx_ret | ].
  apply nx_bind; [apply H; left; reflexivity | intros s'].
  apply IH. intros s0 y Hy. apply H. right. exact Hy.
Qed.

Ltac nx_step :=
  match goal with
  | |- never_exits (ret _) => apply nx_ret
  | |- never_exits (raise _) => apply nx_raise
  | |- never_exits (add_error _ _ _ _ _) => apply nx_add_error
  | |- never_exits (bind _ _) => apply nx_bind; [ | intros ? ]
  | |- never_exits (when _ _) => apply nx_when
  | |- never_exits (check_subset _ _ _ _ _ _ _) => unfold check_subset
  | |- never_exits (check_superset _ _ _ _ _ _ _ _) => unfold check_superset
  | |- never_exits (check_param_or_type_validator _ _ _ _ _ _) =>
      unfold check_param_or_type_validator
  | |- never_exits (name_of ?t) => destruct t; simpl
  | |- never_exits (if ?b then _ else _) => destruct b
  | |- never_exits (match ?x with _ => _ end) => destruct x
  end.

Lemma nx_check_array_type symbol old_type new_type cmd sn op np u :
  never_exits (check_array_type symbol old_type new_type cmd sn op np u).
Proof. unfold check_array_type. cbv zeta. repeat nx_step. Qed.

Lemma resolved_arm (a : TypeAttrs) (l : list IdlType) (s : option Struct)
  (x : IdlType) :
  resolved_type (VariantType a l s) = true -> In x l -> resolved_type x = true.
Proof.
  cbn [resolved_type]. intros H Hx. apply andb_true_iff in H.
  destruct H as [H _]. rewrite forallb_forall in H. apply H. exact Hx.
Qed.

Lemma resolved_struct_arm (a : TypeAttrs) (l : list IdlType) (s : Struct) :
  resolved_type (VariantType a l (Some s)) = true -> resolved_struct s = true.
Proof.
  cbn [resolved_type]. intros H. apply andb_true_iff in H. apply H.
Qed.

Section ReplyNeverExits.
Variable rec_type :
  IdlType -> option IdlType -> FieldCompatibilityPair -> M unit.
Variable rec_fields : Struct -> Struct -> string -> string -> string -> M unit.
Variable field_pair : FieldCompatibilityPair.

Lemma reply_recursive_def_nx (t n : IdlType) :
  (forall ov, In ov (arms_of t) ->
     forall nv, resolved_type nv = true ->
                never_exits (rec_type ov (Some nv) field_pair)) ->
  (forall os ns, struct_component t os -> resolved_struct ns = true ->
     never_exits (rec_fields os ns (cmd_name field_pair)
                    (old_idl_file_path field_pair)
                    (new_idl_file_path field_pair))) ->
  resolved_type n = true ->
  never_exits (check_reply_field_type_recursive_def rec_type rec_fields t n
                 field_pair).
Proof.
  intros Harms Hstruct Hn. unfold check_reply_field_type_recursive_def.
  cbv zeta.
  destruct (as_Type n) as [new_attrs | ]; [ | repeat nx_step].
  destruct (as_Type t) as [old_attrs | ]; [ | apply nx_raise].
  repeat match goal with
         | |- never_exits (if ?b then _ else _) => destruct b
         end; try apply nx_add_error.
  apply nx_bind.
  - repeat nx_step.
  - intros _. destruct t; simpl in Harms, Hstruct; try solve [repeat nx_step].
    apply nx_bind.
    + apply nx_for_each. intros nv Hnv.
      apply nx_for_first.
      * intros ov Hov. apply Harms; [exact Hov | ].
        destruct n; try (destruct Hnv as [<- | []]; exact Hn).
        apply (resolved_arm _ _ _ _ Hn Hnv).
      * repeat nx_step.
    + intros _.
      destruct n; try apply nx_ret.
      destruct variant_struct_type0 as [ns | ]; [ | apply nx_ret].
      destruct variant_struct_type as [os | ]; simpl.
      * apply Hstruct; [reflexivity | ].
        apply (resolved_struct_arm _ _ _ Hn).
      * repeat nx_step.
Qed.

Lemma reply_unwrapped_def_nx (t n : IdlType) :
  (forall ov, In ov (arms_of t) ->
     forall nv, resolved_type nv = true ->
                never_exits (rec_type ov (Some nv) field_pair)) ->
  (forall os ns, struct_component t os -> resolved_struct ns = true ->
     never_exits (rec_fields os ns (cmd_name field_pair)
                    (old_idl_file_path field_pair)
                    (new_idl_file_path field_pair))) ->
  resolved_type n = true ->
  never_exits (check_reply_field_type_unwrapped_def rec_type rec_fields t
                 (Some n) field_pair).
Proof.
  intros Harms Hstruct Hn. unfold check_reply_field_type_unwrapped_def.
  cbv zeta.
  destruct t; try (apply reply_recursive_def_nx; assumption).
  - repeat nx_step.
  - destruct n; try solve [repeat nx_step].
    apply Hstruct; [reflexivity | exact Hn].
Qed.

Lemma reply_type_def_nx (t n : IdlType) :
  (forall t', t' = t \/ (exists a, t = ArrayType a t') ->
     forall n', resolved_type n' = true ->
       never_exits (check_reply_field_type_unwrapped_def rec_type rec_fields t'
                      (Some n') field_pair)) ->
  resolved_type n = true ->
  never_exits (check_reply_field_type_def rec_type rec_fields t (Some n)
                 field_pair).
Proof.
  intros H Hn. unfold check_reply_field_type_def.
  apply nx_bind.
  - apply nx_check_array_type.
  - intros [ | | ].
    + apply nx_ret.
    + destruct t; try apply nx_raise.
      destruct n; try apply nx_raise.
      apply H; [right; eexists; reflexivity | exact Hn].
    + apply H; [left; reflexivity | exact Hn].
Qed.
End ReplyNeverExits.

Lemma reply_newly_added_nx old_reply new_reply cmd np :
  never_exits (check_reply_fields_newly_added old_reply new_reply cmd np).
Proof.
  unfold check_reply_fields_newly_added.
  apply nx_for_each. intros nf _. cbv zeta. repeat nx_step.
Qed.

Lemma resolved_field_type (f : Field) :
  resolved_field f = true ->
  exists t, get_field_type f = Some t /\ resolved_type t = true.
Proof.
  destruct f as [n [t | ] o u d v]; cbn [resolved_field get_field_type];
    intros H; [exists t; split; [reflexivity | exact H] | discriminate H].
Qed.

Lemma resolved_struct_field (s : Struct) (f : Field) :
  resolved_struct s = true -> In f (fields s) -> resolved_field f = true.
Proof.
  destruct s as [n fs]. cbn [resolved_struct fields]. intros H Hf.
  rewrite forallb_forall in H. apply H. exact Hf.
Qed.

Lemma reply_checks_nx :
  (forall t, resolved_type t = true ->
      (forall n p, resolved_type n = true ->
         never_exits (check_reply_field_type_unwrapped_def
                        check_reply_field_type_resolved check_reply_fields
                        t (Some n) p))
      /\ (forall n p, resolved_type n = true ->
            never_exits (check_reply_field_type_resolved t (Some n) p)))
  /\ (forall s, resolved_struct s = true ->
        forall ns cmd op np, resolved_struct ns = true ->
          never_exits (check_reply_fields s ns cmd op np))
  /\ (forall f, resolved_field f = true ->
        forall nf cmd op np, resolved_field nf = true ->
          never_exits (check_reply_field f nf cmd op np)).
Proof.
  assert (Hres : forall t,
    (forall n p, resolved_type n = true ->
       never_exits (check_reply_field_type_unwrapped_def
                      check_reply_field_type_resolved check_reply_fields
                      t (Some n) p)) ->
    (forall a e, t = ArrayType a e ->
       forall n p, resolved_type n = true ->
         never_exits (check_reply_field_type_unwrapped_def
                        check_reply_field_type_resolved check_reply_fields
                        e (Some n) p)) ->
    forall n p, resolved_type n = true ->
      never_exits (check_reply_field_type_resolved t (Some n) p)).
  { intros t Ht He n p Hn. rewrite check_reply_field_type_resolved_eq.
    apply reply_type_def_nx; [ | exact Hn].
    intros t' [-> | (a & ->)] n' Hn'; [apply Ht | eapply He; [reflexivity | ]];
      exact Hn'. }
  assert (Hleaf : forall t, arms_of t = [] ->
    (forall os, ~ struct_component t os) ->
    (forall a e, t = ArrayType a e ->
       forall n p, resolved_type n = true ->
         never_exits (check_reply_field_type_unwrapped_def
                        check_reply_field_type_resolved check_reply_fields
                        e (Some n) p)) ->
    (forall n p, resolved_type n = true ->
       never_exits (check_reply_field_type_unwrapped_def
                      check_reply_field_type_resolved check_reply_fields
                      t (Some n) p))
    /\ (forall n p, resolved_type n = true ->
          never_exits (check_reply_field_type_resolved t (Some n) p))).
  { intros t Ha Hs He.
    assert (U : forall n p, resolved_type n = true ->
      never_exits (check_reply_field_type_unwrapped_def
                     check_reply_field_type_resolved check_reply_fields
                     t (Some n) p)).
    { intros n p Hn. apply reply_unwrapped_def_nx; [ | | exact Hn].
      - rewrite Ha. intros ov [].
      - intros os ns H. destruct (Hs os H). }
    split; [exact U | ]. apply Hres; assumption. }
  apply IdlType_mutind.
  - intros a _. apply Hleaf; [reflexivity | intros os [] | discriminate].
  - intros a e IH Hr. cbn [resolved_type] in Hr. destruct (IH Hr) as [IHu IHr].
    apply Hleaf; [reflexivity | intros os [] | ].
    intros a' e' E. injection E as _ <-. exact IHu.
  - intros a l IHl s IHs Hr.
    assert (U : forall n p, resolved_type n = true ->
      never_exits (check_reply_field_type_unwrapped_def
                     check_reply_field_type_resolved check_reply_fields
                     (VariantType a l s) (Some n) p)).
    { intros n p Hn. apply reply_unwrapped_def_nx; [ | | exact Hn]; simpl.
      - intros ov Hov nv Hnv.
        apply (list_all_In _ _ IHl ov Hov (resolved_arm _ _ _ _ Hr Hov)).
        exact Hnv.
      - intros os ns Hs Hns. destruct s as [s | ]; [ | contradiction]. subst.
        apply (option_all_Some _ _ _ IHs eq_refl
                 (resolved_struct_arm _ _ _ Hr)). exact Hns. }
    split; [exact U | ]. apply Hres; [exact U | discriminate].
  - intros en vs _. apply Hleaf; [reflexivity | intros os [] | discriminate].
  - intros s IHs Hr.
    assert (U : forall n p, resolved_type n = true ->
      never_exits (check_reply_field_type_unwrapped_def
                     check_reply_field_type_resolved check_reply_fields
                     (StructType s) (Some n) p)).
    { intros n p Hn. apply reply_unwrapped_def_nx; [ | | exact Hn]; simpl.
      - intros ov [].
      - intros os ns <- Hns. apply IHs; assumption. }
    split; [exact U | ]. apply Hres; [exact U | discriminate].
  - intros sn fs IHfs Hr ns cmd op np Hns. rewrite check_reply_fields_eq.
    unfold check_reply_fields_def. apply nx_bind.
    + apply nx_for_each. intros f Hf. simpl in Hf.
      apply nx_for_first.
      * intros nf Hnf.
        apply (list_all_In _ _ IHfs f Hf).
        -- apply (resolved_struct_field (mkStruct sn fs)); assumption.
        -- apply (resolved_struct_field ns); assumption.
      * repeat nx_step.
    + intros _. apply reply_newly_added_nx.
  - intros fn ty IHty o u d v Hr nf cmd op np Hnf.
    rewrite check_reply_field_eq.
    unfold check_reply_field_def. apply nx_bind.
    + repeat nx_step.
    + intros _. cbv zeta. simpl get_field_type at 1.
      destruct (resolved_field_type nf Hnf) as (n & En & Hn). rewrite En.
      destruct ty as [t | ]; [ | discriminate Hr].
      cbn [resolved_field] in Hr.
      apply (option_all_Some _ _ _ IHty eq_refl Hr). exact Hn.
Qed.

Section ParamNeverExits.
Variable rec_type :
  IdlType -> option IdlType -> FieldCompatibilityPair -> bool -> M unit.
Variable rec_fields :
  Struct -> Struct -> string -> string -> string -> bool -> M unit.
Variable field_pair : FieldCompatibilityPair.
Variable icp : bool.

Lemma param_recursive_def_nx (t n : IdlType) :
  (forall ov, In ov (arms_of t) ->
     forall nv, resolved_type nv = true ->
                never_exits (rec_type ov (Some nv) field_pair icp)) ->
  (forall os ns, struct_component t os -> resolved_struct ns = true ->
     never_exits (rec_fields os ns (cmd_name field_pair)
                    (old_idl_file_path field_pair)
                    (new_idl_file_path field_pair) icp)) ->
  resolved_type n = true ->
  never_exits (check_param_or_command_type_recursive_def rec_type rec_fields t n
                 field_pair icp).
Proof.
  intros Harms Hstruct Hn. unfold check_param_or_command_type_recursive_def.
  cbv zeta.
  destruct (as_Type n) as [new_attrs | ]; [ | repeat nx_step].
  destruct (as_Type t) as [old_attrs | ]; [ | apply nx_raise].
  repeat match goal with
         | |- never_exits (if ?b then _ else _) => destruct b
         end; try apply nx_add_error.
  apply nx_bind.
  - repeat nx_step.
  - intros _. destruct t; simpl in Harms, Hstruct; try solve [repeat nx_step].
    destruct n; try solve [repeat nx_step].
    apply nx_bind.
    + apply nx_for_each. intros ov Hov.
      apply nx_for_first.
      * intros nv Hnv. apply Harms; [exact Hov | ].
        apply (resolved_arm _ _ _ _ Hn Hnv).
      * repeat nx_step.
    + intros _.
      destruct variant_struct_type as [os | ]; [ | apply nx_ret].
      destruct variant_struct_type0 as [ns | ].
      * apply Hstruct; [reflexivity | ].
        apply (resolved_struct_arm _ _ _ Hn).
      * repeat nx_step.
Qed.

Lemma param_unwrapped_def_nx (t n : IdlType) :
  (forall ov, In ov (arms_of t) ->
     forall nv, resolved_type nv = true ->
                never_exits (rec_type ov (Some nv) field_pair icp)) ->
  (forall os ns, struct_component t os -> resolved_struct ns = true ->
     never_exits (rec_fields os ns (cmd_name field_pair)
                    (old_idl_file_path field_pair)
                    (new_idl_file_path field_pair) icp)) ->
  resolved_type n = true ->
  never_exits (check_param_or_command_type_unwrapped_def rec_type rec_fields t
                 (Some n) field_pair icp).
Proof.
  intros Harms Hstruct Hn. unfold check_param_or_command_type_unwrapped_def.
  cbv zeta.
  destruct t; try (apply param_recursive_def_nx; assumption).
  - repeat nx_step.
  - destruct n; try solve [repeat nx_step].
    apply Hstruct; [reflexivity | exact Hn].
Qed.

Lemma param_type_def_nx (t n : IdlType) :
  (forall t', t' = t \/ (exists a, t = ArrayType a t') ->
     forall n', resolved_type n' = true ->
       never_exits (check_param_or_command_type_unwrapped_def rec_type
                      rec_fields t' (Some n') field_pair icp)) ->
  resolved_type n = true ->
  never_exits (check_param_or_command_type_def rec_type rec_fields t (Some n)
                 field_pair icp).
Proof.
  intros H Hn. unfold check_param_or_command_type_def.
  apply nx_bind.
  - apply nx_check_array_type.
  - intros [ | | ].
    + apply nx_ret.
    + destruct t; try apply nx_raise.
      destruct n; try apply nx_raise.
      apply H; [right; eexists; reflexivity | exact Hn].
    + apply H; [left; reflexivity | exact Hn].
Qed.
End ParamNeverExits.

Lemma param_newly_added_nx old_struct new_struct cmd op np icp :
  never_exits (check_command_params_or_type_struct_fields_newly_added
                 old_struct new_struct cmd op np icp).
Proof.
  unfold check_command_params_or_type_struct_fields_newly_added.
  apply nx_for_each. intros nf _. cbv zeta. repeat nx_step.
Qed.

Lemma param_checks_nx :
  (forall t, resolved_type t = true ->
      (forall n p icp, resolved_type n = true ->
         never_exits (check_param_or_command_type_unwrapped_def
                        check_param_or_command_type_resolved
                        check_command_params_or_type_struct_fields
                        t (Some n) p icp))
      /\ (forall n p icp, resolved_type n = true ->
            never_exits (check_param_or_command_type_resolved t (Some n) p icp)))
  /\ (forall s, resolved_struct s = true ->
        forall ns cmd op np icp, resolved_struct ns = true ->
          never_exits (check_command_params_or_type_struct_fields s ns cmd op
                         np icp))
  /\ (forall f, resolved_field f = true ->
        forall nf cmd op np tn icp, resolved_field nf = true ->
          never_exits (check_command_param_or_type_struct_field f nf cmd op np
                         tn icp)).
Proof.
  assert (Hres : forall t,
    (forall n p icp, resolved_type n = true ->
       never_exits (check_param_or_command_type_unwrapped_def
                      check_param_or_command_type_resolved
                      check_command_params_or_type_struct_fields
                      t (Some n) p icp)) ->
    (forall a e, t = ArrayType a e ->
       forall n p icp, resolved_type n = true ->
         never_exits (check_param_or_command_type_unwrapped_def
                        check_param_or_command_type_resolved
                        check_command_params_or_type_struct_fields
                        e (Some n) p icp)) ->
    forall n p icp, resolved_type n = true ->
      never_exits (check_param_or_command_type_resolved t (Some n) p icp)).
  { intros t Ht He n p icp Hn. rewrite check_param_or_command_type_resolved_eq.
    apply param_type_def_nx; [ | exact Hn].
    intros t' [-> | (a & ->)] n' Hn'; [apply Ht | eapply He; [reflexivity | ]];
      exact Hn'. }
  assert (Hleaf : forall t, arms_of t = [] ->
    (forall os, ~ struct_component t os) ->
    (forall a e, t = ArrayType a e ->
       forall n p icp, resolved_type n = true ->
         never_exits (check_param_or_command_type_unwrapped_def
                        check_param_or_command_type_resolved
                        check_command_params_or_type_struct_fields
                        e (Some n) p icp)) ->
    (forall n p icp, resolved_type n = true ->
       never_exits (check_param_or_command_type_unwrapped_def
                      check_param_or_command_type_resolved
                      check_command_params_or_type_struct_fields
                      t (Some n) p icp))
    /\ (forall n p icp, resolved_type n = true ->
          never_exits (check_param_or_command_type_resolved t (Some n) p icp))).
  { intros t Ha Hs He.
    assert (U : forall n p icp, resolved_type n = true ->
      never_exits (check_param_or_command_type_unwrapped_def
                     check_param_or_command_type_resolved
                     check_command_params_or_type_struct_fields
                     t (Some n) p icp)).
    { intros n p icp Hn. apply param_unwrapped_def_nx; [ | | exact Hn].
      - rewrite Ha. intros ov [].
      - intros os ns H. destruct (Hs os H). }
    split; [exact U | ]. apply Hres; assumption. }
  apply IdlType_mutind.
  - intros a _. apply Hleaf; [reflexivity | intros os [] | discriminate].
  - intros a e IH Hr. cbn [resolved_type] in Hr. destruct (IH Hr) as [IHu IHr].
    apply Hleaf; [reflexivity | intros os [] | ].
    intros a' e' E. injection E as _ <-. exact IHu.
  - intros a l IHl s IHs Hr.
    assert (U : forall n p icp, resolved_type n = true ->
      never_exits (check_param_or_command_type_unwrapped_def
                     check_param_or_command_type_resolved
                     check_command_params_or_type_struct_fields
                     (VariantType a l s) (Some n) p icp)).
    { intros n p icp Hn. apply param_unwrapped_def_nx; [ | | exact Hn]; simpl.
      - intros ov Hov nv Hnv.
        apply (list_all_In _ _ IHl ov Hov (resolved_arm _ _ _ _ Hr Hov)).
        exact Hnv.
      - intros os ns Hs Hns. destruct s as [s | ]; [ | contradiction]. subst.
        apply (option_all_Some _ _ _ IHs eq_refl
                 (resolved_struct_arm _ _ _ Hr)). exact Hns. }
    split; [exact U | ]. apply Hres; [exact U | discriminate].
  - intros en vs _. apply Hleaf; [reflexivity | intros os [] | discriminate].
  - intros s IHs Hr.
    assert (U : forall n p icp, resolved_type n = true ->
      never_exits (check_param_or_command_type_unwrapped_def
                     check_param_or_command_type_resolved
                     check_command_params_or_type_struct_fields
                     (StructType s) (Some n) p icp)).
    { intros n p icp Hn. apply param_unwrapped_def_nx; [ | | exact Hn]; simpl.
      - intros ov [].
      - intros os ns <- Hns. apply IHs; assumption. }
    split; [exact U | ]. apply Hres; [exact U | discriminate].
  - intros sn fs IHfs Hr ns cmd op np icp Hns.
    rewrite check_command_params_or_type_struct_fields_eq.
    unfold check_command_params_or_type_struct_fields_def. apply nx_bind.
    + apply nx_for_each. intros f Hf. simpl in Hf.
      apply nx_for_first.
      * intros nf Hnf.
        apply (list_all_In _ _ IHfs f Hf).
        -- apply (resolved_struct_field (mkStruct sn fs)); assumption.
        -- apply (resolved_struct_field ns); assumption.
      * repeat nx_step.
    + intros _. apply param_newly_added_nx.
  - intros fn ty IHty o u d v Hr nf cmd op np tn icp Hnf.
    rewrite check_command_param_or_type_struct_field_eq.
    unfold check_command_param_or_type_struct_field_def. cbv zeta.
    repeat (apply nx_bind; [ repeat nx_step | intros _ ]).
    simpl get_field_type at 1.
    destruct (resolved_field_type nf Hnf) as (n & En & Hn). rewrite En.
    destruct ty as [t | ]; [ | discriminate Hr].
    cbn [resolved_field] in Hr.
    apply (option_all_Some _ _ _ IHty eq_refl Hr). exact Hn.
Qed.

Lemma quiet_intro {A} (m : M A) : never_exits m -> steady m -> quiet m.
Proof.
  intros Hn Hs c. specialize (Hn c).
  pose proof (steady_dumps_nothing m Hs c) as Hd.
  destruct (m c); [exact Hd | destruct Hn | exact Hd].
Qed.

Lemma nx_check_namespace (old_cmd new_cmd : Command) (op np : string) :
  resolved_command old_cmd = true -> resolved_command new_cmd = true ->
  never_exits (check_namespace old_cmd new_cmd op np).
Proof.
  unfold resolved_command, check_namespace. intros Ho Hn. cbv zeta.
  apply andb_true_iff in Ho. destruct Ho as [Ho _].
  apply andb_true_iff in Ho. destruct Ho as [_ Ho].
  apply andb_true_iff in Hn. destruct Hn as [Hn _].
  apply andb_true_iff in Hn. destruct Hn as [_ Hn].
  destruct (namespace old_cmd); try solve [repeat nx_step].
  destruct (command_type old_cmd) as [t | ]; [ | discriminate Ho].
  destruct (namespace new_cmd); cbn [Namespace_eqb];
    try solve [repeat nx_step].
  destruct (command_type new_cmd) as [n | ]; [ | discriminate Hn].
  apply (proj1 param_checks_nx t Ho); exact Hn.
Qed.

Lemma nx_always_returns {A} (m : M A) : always_returns m -> never_exits m.
Proof. intros H c. destruct (H c) as (a & c' & ->). exact I. Qed.

Lemma nx_check_compatibility_step dir path (table : NewCommands)
  (olds : list string) (cmd : Command) :
  resolved_command cmd = true ->
  (forall k new_cmd np, lookup_command k table = Some (new_cmd, np) ->
                        resolved_command new_cmd = true) ->
  never_exits (check_compatibility_step dir path table olds cmd).
Proof.
  intros Hc Ht. unfold check_compatibility_step.
  destruct (String.eqb (api_version cmd) "" || imported cmd); [apply nx_ret | ].
  destruct (negb (String.eqb (api_version cmd) "1"));
    [repeat nx_step | ].
  destruct (mem String.eqb (command_name cmd) olds); [repeat nx_step | ].
  cbv zeta.
  destruct (lookup_command (command_name cmd) table) as [[new_cmd np] | ] eqn:E;
    [ | repeat nx_step].
  pose proof (Ht _ _ _ E) as Hn.
  pose proof Hc as Hc'. pose proof Hn as Hn'.
  unfold resolved_command in Hc', Hn'.
  apply andb_true_iff in Hc'. destruct Hc' as [Hc' Hcr].
  apply andb_true_iff in Hc'. destruct Hc' as [Hcs _].
  apply andb_true_iff in Hn'. destruct Hn' as [Hn' Hnr].
  apply andb_true_iff in Hn'. destruct Hn' as [Hns _].
  apply nx_bind; [repeat nx_step | intros _].
  apply nx_bind; [apply (proj1 (proj2 param_checks_nx)); assumption | intros _].
  apply nx_bind; [apply nx_check_namespace; assumption | intros _].
  apply nx_bind.
  - unfold check_reply_fields_opt.
    destruct (reply_type cmd) as [r | ], (reply_type new_cmd) as [nr | ];
      try apply nx_raise.
    apply (proj1 (proj2 reply_checks_nx)); assumption.
  - intros _. apply nx_bind; [ | intros _; apply nx_ret].
    apply nx_always_returns, returns_check_security_access_checks.
Qed.

(** X3.  Runs on resolved inputs.  When every field type and namespace type
    resolves, so that [get_field_type] has nothing to report, no check exits
    and no check dumps the compatibility errors: they are dumped by
    [check_compatibility] alone, once, in full, when the run returns, and
    not at all when an exception escapes, so what such a run had recorded is
    never shown. *)
Theorem dumping_discipline :
  (forall t n p icp,
      resolved_type t = true -> resolved_type n = true ->
      quiet (check_reply_field_type (Some t) (Some n) p)
      /\ quiet (check_param_or_command_type (Some t) (Some n) p icp))
  /\ (forall s ns cmd op np icp,
         resolved_struct s = true -> resolved_struct ns = true ->
         quiet (check_reply_fields s ns cmd op np)
         /\ quiet (check_command_params_or_type_struct_fields s ns cmd op np
                     icp))
  /\ (forall old_cmd new_cmd op np,
         resolved_command old_cmd = true -> resolved_command new_cmd = true ->
         quiet (check_namespace old_cmd new_cmd op np))
  /\ (forall old_ac new_ac cmd np,
         quiet (check_security_access_checks old_ac new_ac cmd np))
  /\ (forall old_dir new_dir old_files new_files c,
         (forall pc, In pc (all_commands old_files) ->
                     resolved_command (snd pc) = true) ->
         (forall pc, In pc (all_commands new_files) ->
                     resolved_command (snd pc) = true) ->
         match check_compatibility old_dir new_dir old_files new_files c with
         | Ok _ c' => dumped c' = dumped c ++ [errors c']
         | Raised _ c' => dumped c' = dumped c
         | SysExit _ _ => False
         end).
Proof.
  split; [ | split; [ | split; [ | split]]].
  - intros t n p icp Ht Hn. split; apply quiet_intro.
    + apply (proj1 reply_checks_nx t Ht); exact Hn.
    + apply steady_check_reply_field_type.
    + apply (proj1 param_checks_nx t Ht); exact Hn.
    + apply steady_check_param_or_command_type.
  - intros s ns cmd op np icp Hs Hns. split; apply quiet_intro.
    + apply (proj1 (proj2 reply_checks_nx)); assumption.
    + apply reply_checks_steady.
    + apply (proj1 (proj2 param_checks_nx)); assumption.
    + apply param_checks_steady.
  - intros old_cmd new_cmd op np Ho Hn. apply quiet_intro.
    + apply nx_check_namespace; assumption.
    + apply steady_check_namespace.
  - intros old_ac new_ac cmd np. apply quiet_intro.
    + apply nx_always_returns, returns_check_security_access_checks.
    + apply steady_check_security_access_checks.
  - intros old_dir new_dir old_files new_files c Hold Hnew.
    destruct (check_compatibility_shape old_dir new_dir old_files new_files)
      as (added & k & F & E).
    pose proof (E c) as Ec.
    destruct k as [a | code | e]; rewrite Ec; try reflexivity.
    exfalso. revert Ec. rewrite check_compatibility_flat.
    destruct (get_new_commands_fold new_dir (all_commands new_files) [] c
                (NoDup_nil _))
      as (d & added' & Ed & _ & _ & H3 & _).
    unfold bind at 1. rewrite Ed.
    assert (Hloop : never_exits
              (fold_m (fun (olds : list string) pc =>
                         check_compatibility_step old_dir (fst pc) d olds
                           (snd pc))
                 (all_commands old_files) [])).
    { apply nx_fold_m. intros s pc Hpc. apply nx_check_compatibility_step.
      - apply Hold. exact Hpc.
      - intros k' new_cmd np Hl. apply lookup_command_Some_In in Hl.
        destruct (H3 _ Hl) as [[] | (x & Hx & _ & Ex)].
        injection Ex as _ -> _. apply Hnew. exact Hx. }
    specialize (Hloop (extend c added')). unfold bind.
    destruct (fold_m _ (all_commands old_files) [] (extend c added'));
      [discriminate | destruct Hloop | discriminate].
Qed.

Lemma dumping_discipline_witness :
  match check_compatibility "old" "new" find_generation find_generation
          empty_ctxt with
  | Ok _ c' => dumped c' = dumped empty_ctxt ++ [errors c']
  | Raised _ c' => dumped c' = dumped empty_ctxt
  | SysExit _ _ => False
  end.
Proof.
  apply (proj2 (proj2 (proj2 (proj2 dumping_discipline)))).
  - intros pc [<- | []]. reflexivity.
  - intros pc [<- | []]. reflexivity.
Defined.
